(** * Offline capture and reconciliation: the durable queue and its sync engine

    A shallow embedding of [src/react-app/utils/offlineStorage.ts]:
    the [OfflineStorageManager] (IndexedDB object store [interviews]),
    the [SyncManager] (drain, upload, force-sync, automatic triggers) and
    the enqueue path of the [useOfflineStorage] hook; then the survey
    cache, the worker's sessions, the geographic distribution of the
    [StatisticalCalculator] and the [ResponseRandomizer].

    Conventions of the embedding.
    - The object store [interviews] (key path [id]) is a finite map from
      primary key to record; index and store scans list records by
      ascending primary key, as IndexedDB does.
    - An [async] method is a state transformer returning how its promise
      ends: resolved, rejected, or never settled.
    - JavaScript numbers that hold counters, identifiers and instants are
      integers ([Z]); instants are milliseconds since the epoch (the source
      stores their ISO-8601 rendering). Where the source divides, the
      quotient is computed on doubles ([float]).
    - Once the database is open, IndexedDB requests succeed; opening it may
      fail. A storage manager holds its handle [db] and the promise
      [initPromise] of an opening in flight; an opening in flight completes
      when a caller waits for it, or on its own between two operations.
    - Every [fetch] settles (with a response or a network error). *)

From Stdlib Require Import ZArith String Floats Uint63.
From stdpp Require Import base strings list gmap sorting.

Local Open Scope Z_scope.
Local Open Scope string_scope.

(** ** Data model *)

(** [metadata.sync_status: 'pending' | 'syncing' | 'synced' | 'error'] *)
Inductive SyncStatus := pending | syncing | synced | error.

#[global] Instance SyncStatus_eq_dec : EqDecision SyncStatus.
Proof. solve_decision. Defined.

Record Response := {
  question_id : Z;
  response_text : string
}.

Record Location := {
  latitude : Z;
  longitude : Z;
  accuracy : Z;
  timestamp : Z
}.

Record Metadata := {
  collected_at : Z;
  device_info : string;
  randomization_seed : string;
  sync_status : SyncStatus;
  sync_attempts : Z;
  last_sync_attempt : option Z;
  error_message : option string
}.

(** [interface OfflineInterview]. The type declares [survey_id: number];
    the validation of [saveOfflineInterview] also guards against its
    absence at run time, so the field is optional here ([None] is
    [undefined]). *)
Record OfflineInterview := {
  id : string;
  survey_id : option Z;
  interviewer_id : string;
  responses : list Response;
  location : option Location;
  metadata : Metadata
}.

(** The object store [interviews] of the database [LondonPesquisasDB]. *)
Abbreviation Store := (gmap string OfflineInterview).

(** ** Promises and thrown values *)

(** What a [catch] clause may receive: an [Error] object with its
    [message], or any other value. *)
Inductive Thrown := JsError (message : string) | NonError.

Inductive Promise (A : Type) :=
| Resolved (a : A)
| Rejected (e : Thrown)
| NeverSettles.
Arguments Resolved {A} a.
Arguments Rejected {A} e.
Arguments NeverSettles {A}.

(** An asynchronous computation over a state [S]. *)
Definition Async (S A : Type) : Type := S -> Promise A * S.

Definition ret {S A} (a : A) : Async S A := fun s => (Resolved a, s).

Definition throw {S A} (e : Thrown) : Async S A := fun s => (Rejected e, s).

Definition never {S A} : Async S A := fun s => (NeverSettles, s).

(** [await m; k] *)
Definition bind {S A B} (m : Async S A) (k : A -> Async S B) : Async S B :=
  fun s =>
    match m s with
    | (Resolved a, s') => k a s'
    | (Rejected e, s') => (Rejected e, s')
    | (NeverSettles, s') => (NeverSettles, s')
    end.

(** [try { m } catch (error) { h error }] *)
Definition try_catch {S A} (m : Async S A) (h : Thrown -> Async S A) : Async S A :=
  fun s =>
    match m s with
    | (Rejected e, s') => h e s'
    | r => r
    end.

(** [try { m } finally { f }] where [f] is a synchronous state update: it
    runs when [m] settles, either way, and not while [m] is unsettled. *)
Definition try_finally {S A} (m : Async S A) (f : S -> S) : Async S A :=
  fun s =>
    match m s with
    | (NeverSettles, s') => (NeverSettles, s')
    | (r, s') => (r, f s')
    end.

Definition modify {S} (f : S -> S) : Async S unit := fun s => (Resolved tt, f s).

Declare Scope async_scope.
Delimit Scope async_scope with async.
Notation "x <- m ;; k" := (bind m (fun x => k))
  (at level 100, m at next level, k at level 200, right associativity) : async_scope.
Notation "m ;;; k" := (bind m (fun _ => k))
  (at level 100, k at level 200, right associativity) : async_scope.

(** ** The environment of one call *)

(** How a [fetch] ends: the promise rejects (network error), or it
    resolves with a response whose [ok] flag is given and whose JSON body,
    when it parses, is [body]. *)
Inductive FetchResult (B : Type) :=
| NetworkError
| HttpResponse (ok : bool) (body : option B).
Arguments NetworkError {B}.
Arguments HttpResponse {B} ok body.

Record Env := {
  (** [indexedDB.open] fires [onsuccess] (rather than [onerror]) *)
  indexedDB_open_ok : bool;
  (** [navigator.onLine] *)
  navigator_onLine : bool;
  (** the instant read by [new Date()] *)
  Date_now : Z;
  (** the instant of [new Date()] after [setDate(getDate() - 30)]: the same
      local wall-clock time thirty calendar days earlier *)
  Date_thirtyDaysAgo : Z;
  (** the message of the [TypeError] that reading a property of [null]
      throws (the wording is the engine's) *)
  TypeError_message : string;
  (** [POST /api/interviews] for a queued interview; the body carries the
      identifier of the created remote interview *)
  post_interview : OfflineInterview -> FetchResult Z;
  (** [POST /api/interviews/{id}/responses] *)
  post_responses : Z -> list Response -> FetchResult unit
}.

(** ** Observable events *)

Inductive Event :=
| IdbPut (r : OfflineInterview)
| IdbDelete (key : string)
| FetchPostInterview (r : OfflineInterview)
| FetchPostResponses (created : Z) (rs : list Response)
| ShowSyncStatus (success errors : nat).

(** State of a storage manager together with the database it talks to and
    the [SyncManager] that owns it. *)
Record World := {
  interviews : Store;
  (** [this.db !== null] in the storage manager *)
  db_open : bool;
  (** [this.initPromise !== null] in the storage manager: an opening of
      the database is in flight *)
  initPromise : bool;
  (** [SyncManager.isSyncing] *)
  isSyncing : bool;
  (** events so far, oldest first *)
  trace : list Event
}.

Definition set_interviews (s : Store) (w : World) : World :=
  {| interviews := s; db_open := db_open w; initPromise := initPromise w;
     isSyncing := isSyncing w; trace := trace w |}.

Definition set_db_open (b : bool) (w : World) : World :=
  {| interviews := interviews w; db_open := b; initPromise := initPromise w;
     isSyncing := isSyncing w; trace := trace w |}.

Definition set_initPromise (b : bool) (w : World) : World :=
  {| interviews := interviews w; db_open := db_open w; initPromise := b;
     isSyncing := isSyncing w; trace := trace w |}.

Definition set_isSyncing (b : bool) (w : World) : World :=
  {| interviews := interviews w; db_open := db_open w; initPromise := initPromise w;
     isSyncing := b; trace := trace w |}.

Definition log (e : Event) (w : World) : World :=
  {| interviews := interviews w; db_open := db_open w; initPromise := initPromise w;
     isSyncing := isSyncing w; trace := trace w ++ [e] |}.

(** [store.put(r)]: create or replace under the key path [id]. *)
Definition idb_put (r : OfflineInterview) (w : World) : World :=
  log (IdbPut r) (set_interviews (<[id r := r]> (interviews w)) w).

(** [store.delete(key)] *)
Definition idb_delete (key : string) (w : World) : World :=
  log (IdbDelete key) (set_interviews (delete key (interviews w)) w).

(** Primary keys compare as strings, code unit by code unit. *)
Definition key_le (a b : string * OfflineInterview) : Prop :=
  String.leb a.1 b.1 = true.

#[global] Instance key_le_dec : RelDecision key_le.
Proof. intros a b. unfold key_le. apply _. Defined.

(** [store.getAll()]: every record, by ascending primary key. *)
Definition idb_getAll (s : Store) : list OfflineInterview :=
  (merge_sort key_le (map_to_list s)).*2.

(** [store.index('sync_status').getAll(status)] *)
Definition idb_index_getAll (status : SyncStatus) (s : Store) : list OfflineInterview :=
  filter (fun r => sync_status (metadata r) = status) (idb_getAll s).

(** ** OfflineStorageManager *)

Section Storage.
Context (env : Env).

(** [initialize()]. With the handle set there is nothing to do. With an
    opening in flight the call returns [initPromise], so the caller waits
    for that opening: [onsuccess] sets the handle, [onerror] rejects, and
    both reset [initPromise]. Otherwise the call starts an opening and
    assigns its promise to [initPromise], but does not return it: the
    [async] function ends there and its caller goes on at once, the handle
    still [null]. *)
Definition initialize : Async World unit :=
  fun w =>
    if db_open w then (Resolved tt, w)
    else if initPromise w then
      if indexedDB_open_ok env
      then (Resolved tt, set_initPromise false (set_db_open true w))
      else (Rejected (JsError "Erro ao abrir banco de dados offline"),
            set_initPromise false w)
    else (Resolved tt, set_initPromise true w).

(** [this.db!.transaction(...)], first statement of the executor of the
    promise an operation returns: on a handle that is [null] it throws a
    [TypeError], and the promise rejects with it. *)
Definition transaction : Async World unit :=
  fun w =>
    if db_open w then (Resolved tt, w)
    else (Rejected (JsError (TypeError_message env)), w).

(** [!interview.id || !interview.survey_id || !interview.responses?.length] *)
Definition invalid_interview (interview : OfflineInterview) : bool :=
  bool_decide (id interview = "")
  || match survey_id interview with
     | None => true
     | Some n => bool_decide (n = 0)
     end
  || bool_decide (length (responses interview) = 0%nat).

Definition saveOfflineInterview (interview : OfflineInterview) : Async World unit :=
  (initialize ;;;
   if invalid_interview interview
   then throw (JsError "Dados da entrevista inválidos")
   else transaction ;;; modify (idb_put interview))%async.

(** [slice(0, limit)] of the records the status index has under ['pending'] *)
Definition getPendingInterviews (limit : nat) : Async World (list OfflineInterview) :=
  (initialize ;;;
   transaction ;;;
   fun w => (Resolved (take limit (idb_index_getAll pending (interviews w))), w))%async.

(** The record as [getRequest.onsuccess] rewrites it before [store.put]:
    the status is set, [(sync_attempts || 0) + 1] adds one (on a number the
    guard only turns 0 into 0), the instant is stamped, and
    [if (errorMessage)] stores a message that is given and not empty. *)
Definition with_sync_status (status : SyncStatus) (errorMessage : option string)
    (interview : OfflineInterview) : OfflineInterview :=
  let m := metadata interview in
  {| id := id interview;
     survey_id := survey_id interview;
     interviewer_id := interviewer_id interview;
     responses := responses interview;
     location := location interview;
     metadata :=
       {| collected_at := collected_at m;
          device_info := device_info m;
          randomization_seed := randomization_seed m;
          sync_status := status;
          sync_attempts := sync_attempts m + 1;
          last_sync_attempt := Some (Date_now env);
          error_message :=
            match errorMessage with
            | Some msg => if bool_decide (msg = "") then error_message m else Some msg
            | None => error_message m
            end |} |}.

(** [updateSyncStatus(interviewId, status, errorMessage?)]. The promise is
    resolved by the [put] issued inside [if (interview)]; the [get] of an
    absent key succeeds with [undefined], and then neither [resolve] nor
    [reject] is ever called. *)
Definition updateSyncStatus (interviewId : string) (status : SyncStatus)
    (errorMessage : option string) : Async World unit :=
  ((fun w => if db_open w then ret tt w else initialize w) ;;;
   transaction ;;;
   fun w =>
     match interviews w !! interviewId with
     | Some interview =>
         (Resolved tt, idb_put (with_sync_status status errorMessage interview) w)
     | None => (NeverSettles, w)
     end)%async.

End Storage.

Section Sync.
Context (env : Env).

(** [removeSyncedInterview(interviewId)]: deleting an absent key succeeds. *)
Definition removeSyncedInterview (interviewId : string) : Async World unit :=
  ((fun w => if db_open w then ret tt w else initialize env w) ;;;
   transaction env ;;;
   modify (idb_delete interviewId))%async.

(** The three counts of [getOfflineStats] (its [totalStorageUsed], the
    byte length of a JSON rendering, is left out). *)
Record OfflineStats := {
  pendingInterviews : nat;
  syncingInterviews : nat;
  errorInterviews : nat
}.

Definition count_status (status : SyncStatus) (l : list OfflineInterview) : nat :=
  length (filter (fun i => sync_status (metadata i) = status) l).

Definition getOfflineStats : Async World OfflineStats :=
  ((fun w => if db_open w then ret tt w else initialize env w) ;;;
   transaction env ;;;
   fun w =>
     let all := idb_getAll (interviews w) in
     (Resolved {| pendingInterviews := count_status pending all;
                  syncingInterviews := count_status syncing all;
                  errorInterviews := count_status error all |}, w))%async.

(** [cleanOldData()]: deletes the records collected before
    [thirtyDaysAgo] whose status is ['synced']. [thirtyDaysAgo] is computed
    on the local calendar, so how far it lies before [Date_now] depends on
    the time zone and its clock changes. *)
Definition thirtyDaysAgo : Z := Date_thirtyDaysAgo env.

Definition cleanOldData : Async World unit :=
  ((fun w => if db_open w then ret tt w else initialize env w) ;;;
   transaction env ;;;
   fun w =>
     let toDelete :=
       filter (fun interview =>
                 collected_at (metadata interview) < thirtyDaysAgo
                 ∧ sync_status (metadata interview) = synced)
              (idb_getAll (interviews w)) in
     (Resolved tt, foldl (fun w' interview => idb_delete (id interview) w') w toDelete))%async.

(** ** SyncManager *)

(** An entry of [details]. *)
Record Detail := {
  detail_id : option string;
  detail_status : SyncStatus;
  detail_error : option string
}.

Record SyncResult := {
  success : nat;
  errors : nat;
  details : list Detail
}.

(** The state a drain works on: the world and the locals
    [successCount], [errorCount] and [details] that its closures share. *)
Record DrainState := {
  world : World;
  successCount : nat;
  errorCount : nat;
  details_acc : list Detail
}.

Definition liftW {A} (m : Async World A) : Async DrainState A :=
  fun s =>
    let (r, w') := m (world s) in
    (r, {| world := w'; successCount := successCount s; errorCount := errorCount s;
           details_acc := details_acc s |}).

Definition incr_successCount (s : DrainState) : DrainState :=
  {| world := world s; successCount := S (successCount s); errorCount := errorCount s;
     details_acc := details_acc s |}.

Definition incr_errorCount (s : DrainState) : DrainState :=
  {| world := world s; successCount := successCount s; errorCount := S (errorCount s);
     details_acc := details_acc s |}.

Definition push_detail (d : Detail) (s : DrainState) : DrainState :=
  {| world := world s; successCount := successCount s; errorCount := errorCount s;
     details_acc := details_acc s ++ [d] |}.

Definition update_world (f : World -> World) (s : DrainState) : DrainState :=
  {| world := f (world s); successCount := successCount s; errorCount := errorCount s;
     details_acc := details_acc s |}.

(** [uploadInterview(interview)]: create the remote interview, then post
    the responses against the identifier it returned. Every failure,
    thrown or not, ends in [false]. *)
Definition uploadInterview (interview : OfflineInterview) : Async World bool :=
  fun w =>
    let w1 := log (FetchPostInterview interview) w in
    match post_interview env interview with
    | NetworkError => (Resolved false, w1)
    | HttpResponse ok body =>
        if negb ok then (Resolved false, w1)
        else
          match body with
          | None => (Resolved false, w1)
          | Some created =>
              let w2 := log (FetchPostResponses created (responses interview)) w1 in
              match post_responses env created (responses interview) with
              | NetworkError => (Resolved false, w2)
              | HttpResponse ok' _ => (Resolved ok', w2)
              end
          end
    end.

(** [error instanceof Error ? error.message : 'Erro desconhecido'] *)
Definition message_of (e : Thrown) : string :=
  match e with
  | JsError m => m
  | NonError => "Erro desconhecido"
  end.

(** The callback that [batch.map] applies to one interview. *)
Definition syncOne (interview : OfflineInterview) : Async DrainState unit :=
  try_catch
    (liftW (updateSyncStatus env (id interview) syncing None) ;;;
     success <- liftW (uploadInterview interview) ;;
     if success : bool then
       liftW (updateSyncStatus env (id interview) synced None) ;;;
       liftW (removeSyncedInterview (id interview)) ;;;
       modify incr_successCount ;;;
       modify (push_detail {| detail_id := Some (id interview); detail_status := synced;
                              detail_error := None |})
     else throw (JsError "Falha no upload da entrevista"))%async
    (fun e =>
       let errorMessage := message_of e in
       liftW (updateSyncStatus env (id interview) error (Some errorMessage)) ;;;
       modify incr_errorCount ;;;
       modify (push_detail {| detail_id := Some (id interview); detail_status := error;
                              detail_error := Some errorMessage |}))%async.

(** [Promise.all]: the promises of one batch act on records with different
    keys, so they are run here one after the other, each as far as it gets.
    In the browser their steps interleave and they finish in any order:
    what is proved below about the trace and about [details] is about which
    entries occur, not about the order of entries of different records.
    The combined promise rejects if one of them rejects, resolves if all
    resolve, and otherwise never settles. *)
Fixpoint Promise_all {S} (ps : list (Async S unit)) : Async S unit :=
  match ps with
  | [] => ret tt
  | p :: ps' =>
      fun s =>
        let (r, s1) := p s in
        let (rs, s2) := Promise_all ps' s1 in
        (match r, rs with
         | Rejected e, _ => Rejected e
         | _, Rejected e => Rejected e
         | NeverSettles, _ => NeverSettles
         | Resolved _, _ => rs
         end, s2)
  end.

(** [for (let i = 0; i < pendingInterviews.length; i += batchSize)]. The loop
    has at most [length pendingInterviews] rounds when [batchSize] is
    positive; with [batchSize = 0] it never ends, which is what running out
    of [fuel] stands for. *)
Fixpoint for_batches (fuel : nat) (batchSize : nat)
    (pendingInterviews : list OfflineInterview) (i : nat) : Async DrainState unit :=
  if decide (i < length pendingInterviews)%nat then
    match fuel with
    | O => never
    | S fuel' =>
        let batch := take batchSize (drop i pendingInterviews) in
        (Promise_all (map syncOne batch) ;;;
         for_batches fuel' batchSize pendingInterviews (i + batchSize))%async
    end
  else ret tt.

Definition zero_result : SyncResult := {| success := 0; errors := 0; details := [] |}.

Definition general_error : Detail :=
  {| detail_id := None; detail_status := error;
     detail_error := Some "Erro geral no processo de sincronização" |}.

(** [syncPendingData(batchSize = 10)] *)
Definition syncPendingData (batchSize : nat) : Async World SyncResult :=
  fun w =>
    if isSyncing w || negb (navigator_onLine env) then (Resolved zero_result, w)
    else
      let guarded : Async DrainState unit :=
        try_finally
          (try_catch
             (liftW (initialize env) ;;;
              pendingInterviews <- liftW (getPendingInterviews env 50) ;;
              for_batches (length pendingInterviews) batchSize pendingInterviews 0)%async
             (fun _ => modify (push_detail general_error)))
          (update_world (set_isSyncing false)) in
      let (r, s) :=
        guarded {| world := set_isSyncing true w; successCount := 0; errorCount := 0;
                   details_acc := [] |} in
      match r with
      | Resolved _ =>
          let w' :=
            if bool_decide (0 < successCount s)%nat || bool_decide (0 < errorCount s)%nat
            then log (ShowSyncStatus (successCount s) (errorCount s)) (world s)
            else world s in
          (Resolved {| success := successCount s; errors := errorCount s;
                       details := details_acc s |}, w')
      | Rejected e => (Rejected e, world s)
      | NeverSettles => (NeverSettles, world s)
      end.

(** [forcSync()]: resets the flag, then drains with the default batch size. *)
Definition forcSync : Async World SyncResult :=
  (modify (set_isSyncing false) ;;; syncPendingData 10)%async.

(** What [getSyncStatus()] resolves with. *)
Record SyncStatusView := {
  view_pending : nat;
  view_syncing : nat;
  view_errors : nat;
  view_isOnline : bool;
  view_isSyncing : bool
}.

Definition getSyncStatus : Async World SyncStatusView :=
  (stats <- getOfflineStats ;;
   fun w =>
     (Resolved {| view_pending := pendingInterviews stats;
                  view_syncing := syncingInterviews stats;
                  view_errors := errorInterviews stats;
                  view_isOnline := navigator_onLine env;
                  view_isSyncing := isSyncing w |}, w))%async.

(** ** The enqueue path of [useOfflineStorage] *)

(** [Omit<OfflineInterview, 'id' | 'metadata'>] *)
Record InterviewData := {
  data_survey_id : option Z;
  data_interviewer_id : string;
  data_responses : list Response;
  data_location : option Location
}.

(** The record the hook builds. [suffix] stands for the rendering of
    [Date.now()] and of the random part of the identifier, [userAgent] and
    [seed] for [navigator.userAgent] and [Date.now().toString(36)]. *)
Definition new_interview (suffix userAgent seed : string) (d : InterviewData) : OfflineInterview :=
  {| id := "offline_" ++ suffix;
     survey_id := data_survey_id d;
     interviewer_id := data_interviewer_id d;
     responses := data_responses d;
     location := data_location d;
     metadata :=
       {| collected_at := Date_now env;
          device_info := userAgent;
          randomization_seed := seed;
          sync_status := pending;
          sync_attempts := 0;
          last_sync_attempt := None;
          error_message := None |} |}.

(** The hook's [saveOfflineInterview]: it works through a storage manager
    of its own ([new OfflineStorageManager()]), whose handle starts unset
    and which has no opening in flight, on the same database. Its own call
    of [initialize] starts the opening; the one made by the manager's
    [saveOfflineInterview] waits for it. *)
Definition hook_saveOfflineInterview (suffix userAgent seed : string) (d : InterviewData)
    : Async World unit :=
  fun w =>
    let (r, w') :=
      (initialize env ;;;
       saveOfflineInterview env (new_interview suffix userAgent seed d))%async
        (set_initPromise false (set_db_open false w)) in
    (r, set_initPromise (initPromise w) (set_db_open (db_open w) w')).

End Sync.

(** ** Automatic triggers: listeners and timers of the [SyncManager] *)

Module Scheduler.

(** The function bodies that [setupAutoSync] and [stop] hand to the
    browser. *)
Inductive Code :=
| OnlineListener   (** the listener of ['online'] registered by [setupAutoSync] *)
| DebouncedSync    (** [() => this.syncPendingData()] given to [setTimeout] *)
| ScheduleSync     (** [scheduleSync] *)
| IdleCallback     (** the callback given to [requestIdleCallback] *)
| IntervalTick     (** the callback given to [setInterval] *)
| StopArgument.    (** [() => this.syncPendingData()] written in [stop] *)

#[global] Instance Code_eq_dec : EqDecision Code.
Proof. solve_decision. Defined.

(** A function object: evaluating an arrow function makes a new object,
    and listeners are compared by object identity. *)
Record Fn := { ident : nat; code : Code }.

Inductive TimerKind := Timeout | Interval.

Record Timer := { handle : nat; kind : TimerKind; callback : Code; delay : Z }.

Record State := {
  (** ['requestIdleCallback' in window] *)
  has_requestIdleCallback : bool;
  (** listeners of ['online'] on [window], in registration order *)
  online_listeners : list Fn;
  (** live timers of [setTimeout] and [setInterval] *)
  timers : list Timer;
  (** callbacks waiting for an idle period *)
  idle_requests : list Code;
  (** next timer handle (handles are positive) and next object identity *)
  next_handle : nat;
  next_ident : nat;
  (** [SyncManager.syncInterval] and [SyncManager.debounceTimer] *)
  syncInterval : option nat;
  debounceTimer : option nat;
  (** number of calls of [syncPendingData] made by the triggers *)
  sync_calls : nat
}.

Definition set_timer (k : TimerKind) (c : Code) (d : Z) (st : State) : nat * State :=
  (next_handle st,
   {| has_requestIdleCallback := has_requestIdleCallback st;
      online_listeners := online_listeners st;
      timers := timers st ++ [{| handle := next_handle st; kind := k; callback := c; delay := d |}];
      idle_requests := idle_requests st;
      next_handle := S (next_handle st);
      next_ident := next_ident st;
      syncInterval := syncInterval st;
      debounceTimer := debounceTimer st;
      sync_calls := sync_calls st |}).

(** [clearTimeout(h)]; timeouts and intervals share their handles. *)
Definition clearTimeout (h : nat) (st : State) : State :=
  {| has_requestIdleCallback := has_requestIdleCallback st;
     online_listeners := online_listeners st;
     timers := filter (fun t => handle t ≠ h) (timers st);
     idle_requests := idle_requests st;
     next_handle := next_handle st;
     next_ident := next_ident st;
     syncInterval := syncInterval st;
     debounceTimer := debounceTimer st;
     sync_calls := sync_calls st |}.

Definition requestIdleCallback (c : Code) (st : State) : State :=
  {| has_requestIdleCallback := has_requestIdleCallback st;
     online_listeners := online_listeners st;
     timers := timers st;
     idle_requests := idle_requests st ++ [c];
     next_handle := next_handle st;
     next_ident := next_ident st;
     syncInterval := syncInterval st;
     debounceTimer := debounceTimer st;
     sync_calls := sync_calls st |}.

(** Evaluating an arrow function. *)
Definition new_function (c : Code) (st : State) : Fn * State :=
  ({| ident := next_ident st; code := c |},
   {| has_requestIdleCallback := has_requestIdleCallback st;
      online_listeners := online_listeners st;
      timers := timers st;
      idle_requests := idle_requests st;
      next_handle := next_handle st;
      next_ident := S (next_ident st);
      syncInterval := syncInterval st;
      debounceTimer := debounceTimer st;
      sync_calls := sync_calls st |}).

Definition set_listeners (l : list Fn) (st : State) : State :=
  {| has_requestIdleCallback := has_requestIdleCallback st;
     online_listeners := l;
     timers := timers st;
     idle_requests := idle_requests st;
     next_handle := next_handle st;
     next_ident := next_ident st;
     syncInterval := syncInterval st;
     debounceTimer := debounceTimer st;
     sync_calls := sync_calls st |}.

(** [window.addEventListener('online', f)] *)
Definition addEventListener (f : Fn) (st : State) : State :=
  if bool_decide (Exists (fun g => ident g = ident f) (online_listeners st)) then st
  else set_listeners (online_listeners st ++ [f]) st.

(** [window.removeEventListener('online', f)]: removes the listener that
    is the object [f], if it is registered. *)
Definition removeEventListener (f : Fn) (st : State) : State :=
  set_listeners (filter (fun g => ident g ≠ ident f) (online_listeners st)) st.

Definition set_syncInterval (o : option nat) (st : State) : State :=
  {| has_requestIdleCallback := has_requestIdleCallback st;
     online_listeners := online_listeners st;
     timers := timers st;
     idle_requests := idle_requests st;
     next_handle := next_handle st;
     next_ident := next_ident st;
     syncInterval := o;
     debounceTimer := debounceTimer st;
     sync_calls := sync_calls st |}.

Definition set_debounceTimer (o : option nat) (st : State) : State :=
  {| has_requestIdleCallback := has_requestIdleCallback st;
     online_listeners := online_listeners st;
     timers := timers st;
     idle_requests := idle_requests st;
     next_handle := next_handle st;
     next_ident := next_ident st;
     syncInterval := syncInterval st;
     debounceTimer := o;
     sync_calls := sync_calls st |}.

(** A call of [this.syncPendingData()]. *)
Definition call_syncPendingData (st : State) : State :=
  {| has_requestIdleCallback := has_requestIdleCallback st;
     online_listeners := online_listeners st;
     timers := timers st;
     idle_requests := idle_requests st;
     next_handle := next_handle st;
     next_ident := next_ident st;
     syncInterval := syncInterval st;
     debounceTimer := debounceTimer st;
     sync_calls := S (sync_calls st) |}.

(** The body of [scheduleSync]. *)
Definition scheduleSync (st : State) : State :=
  if has_requestIdleCallback st then requestIdleCallback IdleCallback st
  else
    let (h, st') := set_timer Interval IntervalTick (5 * 60 * 1000) st in
    set_syncInterval (Some h) st'.

(** Running a function body; [onLine] and [syncing] are the values of
    [navigator.onLine] and [this.isSyncing] at that moment. *)
Definition run (onLine syncing : bool) (c : Code) (st : State) : State :=
  match c with
  | OnlineListener =>
      let st1 :=
        match debounceTimer st with
        | Some h => if bool_decide (h = 0%nat) then st else clearTimeout h st
        | None => st
        end in
      let (h, st2) := set_timer Timeout DebouncedSync 2000 st1 in
      set_debounceTimer (Some h) st2
  | DebouncedSync => call_syncPendingData st
  | StopArgument => call_syncPendingData st
  | ScheduleSync => scheduleSync st
  | IdleCallback =>
      let st1 := if onLine && negb syncing then call_syncPendingData st else st in
      let (h, st2) := set_timer Timeout ScheduleSync (5 * 60 * 1000) st1 in
      set_syncInterval (Some h) st2
  | IntervalTick =>
      if onLine && negb syncing then call_syncPendingData st else st
  end.

(** [setupAutoSync()]: registers the listener of ['online'], then calls
    [scheduleSync]. *)
Definition setupAutoSync (st : State) : State :=
  let (f, st1) := new_function OnlineListener st in
  scheduleSync (addEventListener f st1).

(** [new SyncManager()] in a fresh page: the fields take their initial
    values and the constructor runs [setupAutoSync]. *)
Definition new_SyncManager (idle : bool) : State :=
  setupAutoSync
    {| has_requestIdleCallback := idle; online_listeners := []; timers := [];
       idle_requests := []; next_handle := 1; next_ident := 0;
       syncInterval := None; debounceTimer := None; sync_calls := 0 |}.

(** [stop()] *)
Definition stop (st : State) : State :=
  let st1 :=
    match syncInterval st with
    | Some h => set_syncInterval None (clearTimeout h st)
    | None => st
    end in
  let st2 :=
    match debounceTimer st1 with
    | Some h =>
        if bool_decide (h = 0%nat) then st1
        else set_debounceTimer None (clearTimeout h st1)
    | None => st1
    end in
  let (f, st3) := new_function StopArgument st2 in
  removeEventListener f st3.

(** What the browser may do next. *)
Inductive Tick :=
| OnlineEvent                (** the ['online'] event is dispatched *)
| TimerFires (h : nat)       (** the timer with handle [h] comes due *)
| IdlePeriod.                (** the oldest idle request is served *)

Definition step (onLine syncing : bool) (t : Tick) (st : State) : State :=
  match t with
  | OnlineEvent =>
      foldl (fun s f => run onLine syncing (code f) s) st (online_listeners st)
  | TimerFires h =>
      match filter (fun t => handle t = h) (timers st) with
      | t :: _ =>
          let st1 := match kind t with Timeout => clearTimeout h st | Interval => st end in
          run onLine syncing (callback t) st1
      | [] => st
      end
  | IdlePeriod =>
      match idle_requests st with
      | c :: rest =>
          run onLine syncing c
            {| has_requestIdleCallback := has_requestIdleCallback st;
               online_listeners := online_listeners st;
               timers := timers st;
               idle_requests := rest;
               next_handle := next_handle st;
               next_ident := next_ident st;
               syncInterval := syncInterval st;
               debounceTimer := debounceTimer st;
               sync_calls := sync_calls st |}
      | [] => st
      end
  end.

End Scheduler.

(** ** Closed forms of one upload attempt

    What the callback [syncOne] does to a queued interview [r] that the
    store holds under its own key, written without the promise plumbing;
    [syncOne_spec] below proves that the code behaves so. *)

Section Outcome.
Context (env : Env).

(** Both remote calls succeed: the creation answers [ok] with a body that
    parses, and posting the responses answers [ok]. *)
Definition upload_ok (r : OfflineInterview) : bool :=
  match post_interview env r with
  | HttpResponse true (Some created) =>
      match post_responses env created (responses r) with
      | HttpResponse ok _ => ok
      | NetworkError => false
      end
  | _ => false
  end.

Definition upload_events (r : OfflineInterview) : list Event :=
  FetchPostInterview r ::
  match post_interview env r with
  | HttpResponse true (Some created) => [FetchPostResponses created (responses r)]
  | _ => []
  end.

Definition marked_syncing (r : OfflineInterview) : OfflineInterview :=
  with_sync_status env syncing None r.

Definition marked_synced (r : OfflineInterview) : OfflineInterview :=
  with_sync_status env synced None (marked_syncing r).

Definition marked_failed (r : OfflineInterview) : OfflineInterview :=
  with_sync_status env error (Some "Falha no upload da entrevista") (marked_syncing r).

Definition settle (st : Store) (r : OfflineInterview) : Store :=
  if upload_ok r then delete (id r) st else <[id r := marked_failed r]> st.

Definition settle_events (r : OfflineInterview) : list Event :=
  IdbPut (marked_syncing r) :: upload_events r ++
  (if upload_ok r then [IdbPut (marked_synced r); IdbDelete (id r)]
   else [IdbPut (marked_failed r)]).

Definition settle_detail (r : OfflineInterview) : Detail :=
  if upload_ok r
  then {| detail_id := Some (id r); detail_status := synced; detail_error := None |}
  else {| detail_id := Some (id r); detail_status := error;
          detail_error := Some "Falha no upload da entrevista" |}.

(** The drain state after the callbacks of [l] have run, in list order. *)
Definition settle_all (l : list OfflineInterview) (s : DrainState) : DrainState :=
  {| world :=
       {| interviews := foldl settle (interviews (world s)) l;
          db_open := db_open (world s);
          initPromise := initPromise (world s);
          isSyncing := isSyncing (world s);
          trace := trace (world s) ++ concat (map settle_events l) |};
     successCount := (successCount s + length (filter (fun r => upload_ok r = true) l))%nat;
     errorCount := (errorCount s + length (filter (fun r => upload_ok r = false) l))%nat;
     details_acc := details_acc s ++ map settle_detail l |}.

(** What a drain that ran the callbacks of [l] resolves with, and the
    notification it shows. *)
Definition drain_result (l : list OfflineInterview) : SyncResult :=
  {| success := length (filter (fun r => upload_ok r = true) l);
     errors := length (filter (fun r => upload_ok r = false) l);
     details := map settle_detail l |}.

Definition drain_notification (l : list OfflineInterview) : list Event :=
  if bool_decide (0 < success (drain_result l))%nat
     || bool_decide (0 < errors (drain_result l))%nat
  then [ShowSyncStatus (success (drain_result l)) (errors (drain_result l))]
  else [].

(** The interviews a drain works on are held by the store under their own
    keys, the keys differ, and the database is open. *)
Definition ready (l : list OfflineInterview) (s : DrainState) : Prop :=
  db_open (world s) = true
  ∧ NoDup (id <$> l)
  ∧ ∀ r, r ∈ l → interviews (world s) !! id r = Some r.

End Outcome.

(** The storage manager once a caller has waited for the database to
    open: the handle is set and no opening is in flight. *)
Definition opened (w : World) : World :=
  if db_open w then w else set_initPromise false (set_db_open true w).

(** Every record is stored under its own [id] (the key path of the
    object store). *)
Definition store_wf (s : Store) : Prop :=
  map_Forall (fun k r => id r = k) s.


(** An opening in flight that nobody waits for completes on its own:
    [onsuccess] sets the handle, [onerror] does not, and both reset
    [initPromise]. *)
Definition opening_settles (env : Env) (w : World) : World :=
  if db_open w then w
  else if initPromise w then
    if indexedDB_open_ok env then set_initPromise false (set_db_open true w)
    else set_initPromise false w
  else w.

(** The operations through which the application changes the queue, and
    the completion of an opening in the background. A history is a sequence
    of them, each run to its end before the next one starts (a forced drain
    started while another drain is running is not such a history). *)
Inductive Action :=
| Enqueue (env : Env) (suffix userAgent seed : string) (d : InterviewData)
| Drain (env : Env) (batchSize : nat)
| ForceSync (env : Env)
| Cleanup (env : Env)
| OpeningSettles (env : Env).

Definition perform (w : World) (a : Action) : World :=
  match a with
  | Enqueue env suffix userAgent seed d =>
      (hook_saveOfflineInterview env suffix userAgent seed d w).2
  | Drain env batchSize => (syncPendingData env batchSize w).2
  | ForceSync env => (forcSync env w).2
  | Cleanup env => (cleanOldData env w).2
  | OpeningSettles env => opening_settles env w
  end.

Definition is_enqueue (a : Action) : bool :=
  match a with
  | Enqueue _ _ _ _ _ => true
  | _ => false
  end.

(** A fresh application: empty queue, handle unset, no opening in flight,
    no drain running. *)
Definition initial_world : World :=
  {| interviews := ∅; db_open := false; initPromise := false; isSyncing := false;
     trace := [] |}.

(** ** Sample data *)

Definition sample_metadata (status : SyncStatus) (attempts : Z) (msg : option string)
    : Metadata :=
  {| collected_at := 1700000000000; device_info := "Mozilla/5.0";
     randomization_seed := "lq3x9"; sync_status := status; sync_attempts := attempts;
     last_sync_attempt := None; error_message := msg |}.

Definition sample_interview (key : string) (survey : option Z) (rs : list Response)
    (status : SyncStatus) (attempts : Z) (msg : option string) : OfflineInterview :=
  {| id := key; survey_id := survey; interviewer_id := "user-1"; responses := rs;
     location := None; metadata := sample_metadata status attempts msg |}.

Definition sample_responses : list Response :=
  [ {| question_id := 1; response_text := "Sim" |};
    {| question_id := 2; response_text := "Candidato A" |};
    {| question_id := 3; response_text := "Não sabe" |} ].

(** A reachable server: both calls answer [ok]. *)
Definition env_ok : Env :=
  {| indexedDB_open_ok := true; navigator_onLine := true; Date_now := 1700000100000;
     Date_thirtyDaysAgo := 1697408100000;
     TypeError_message := "Cannot read properties of null (reading 'transaction')";
     post_interview := fun _ => HttpResponse true (Some 42);
     post_responses := fun _ _ => HttpResponse true (Some tt) |}.

(** The creation succeeds and posting the responses answers 500. *)
Definition env_partial : Env :=
  {| indexedDB_open_ok := true; navigator_onLine := true; Date_now := 1700000100000;
     Date_thirtyDaysAgo := 1697408100000;
     TypeError_message := "Cannot read properties of null (reading 'transaction')";
     post_interview := fun _ => HttpResponse true (Some 42);
     post_responses := fun _ _ => HttpResponse false None |}.

Definition env_offline : Env :=
  {| indexedDB_open_ok := true; navigator_onLine := false; Date_now := 1700000100000;
     Date_thirtyDaysAgo := 1697408100000;
     TypeError_message := "Cannot read properties of null (reading 'transaction')";
     post_interview := fun _ => NetworkError;
     post_responses := fun _ _ => NetworkError |}.

(** The interviews a drain lists: [getPendingInterviews()] with its default
    limit. *)
Definition drain_listing (w : World) : list OfflineInterview :=
  take 50 (idb_index_getAll pending (interviews w)).

Definition world_of (s : Store) : World :=
  {| interviews := s; db_open := true; initPromise := false; isSyncing := false;
     trace := [] |}.

(** ** Histories of a [SyncManager] *)

(** What may happen to a [SyncManager] after its construction: the browser
    dispatches an event or runs a callback (with the values
    [navigator.onLine] and [isSyncing] have then), or [stop()] is called. *)
Inductive SchedulerOp :=
| Browser (onLine busy : bool) (t : Scheduler.Tick)
| Stop.

Definition scheduler_apply (st : Scheduler.State) (op : SchedulerOp) : Scheduler.State :=
  match op with
  | Browser onLine busy t => Scheduler.step onLine busy t st
  | Stop => Scheduler.stop st
  end.

(** The live timers armed by the listener of ['online']. *)
Definition debounce_timers (st : Scheduler.State) : list Scheduler.Timer :=
  filter (fun t => Scheduler.callback t = Scheduler.DebouncedSync) (Scheduler.timers st).

(** Handles are positive, below the next one and not shared; a live
    debounce timer is the one [debounceTimer] names; the only listener of
    ['online'] is the one [setupAutoSync] registered. *)
Definition scheduler_inv (st : Scheduler.State) : Prop :=
  (1 ≤ Scheduler.next_handle st)%nat
  ∧ Forall (fun t => 1 ≤ Scheduler.handle t < Scheduler.next_handle st)%nat
           (Scheduler.timers st)
  ∧ NoDup (Scheduler.handle <$> Scheduler.timers st)
  ∧ Forall (fun t => Scheduler.callback t = Scheduler.DebouncedSync →
                     Scheduler.debounceTimer st = Some (Scheduler.handle t))
           (Scheduler.timers st)
  ∧ Forall (fun f => Scheduler.ident f < Scheduler.next_ident st)%nat
           (Scheduler.online_listeners st)
  ∧ Scheduler.code <$> Scheduler.online_listeners st = [Scheduler.OnlineListener].

(** Without [requestIdleCallback]: no idle request is ever made, and a live
    timer is the periodic one that [syncInterval] names or the debounce
    timer that [debounceTimer] names. *)
Definition plain_timers_inv (st : Scheduler.State) : Prop :=
  Scheduler.has_requestIdleCallback st = false
  ∧ Scheduler.idle_requests st = []
  ∧ Forall (fun t =>
              Scheduler.callback t = Scheduler.IntervalTick
              ∧ Scheduler.syncInterval st = Some (Scheduler.handle t)
              ∨ Scheduler.callback t = Scheduler.DebouncedSync
                ∧ Scheduler.debounceTimer st = Some (Scheduler.handle t))
           (Scheduler.timers st).

(** ** The hook's [forcSync] *)

(** [useOfflineStorage().forcSync]: forces a drain, then shows the sync
    notification for its result, whatever the counts. *)
Definition hook_forcSync (env : Env) : Async World SyncResult :=
  (result <- forcSync env ;;
   fun w => (Resolved result, log (ShowSyncStatus (success result) (errors result)) w))%async.

(** ** The survey cache of the storage manager *)

Module SurveyCache.

(** The cached values are typed [any]; the object stores read their key
    path [id] and, for questions, the indexed path [survey_id]. The rest
    of a value is carried along as it is. *)
Record Survey := { survey_key : Z; survey_data : string }.

Record Question := { question_key : Z; question_survey_id : Z; question_data : string }.

(** The storage manager with the object stores [surveys] and
    [survey_questions] of its database. *)
Record State := {
  manager : World;
  surveys : gmap Z Survey;
  survey_questions : gmap Z Question
}.

Definition liftM {A} (m : Async World A) : Async State A :=
  fun st =>
    let (r, w') := m (manager st) in
    (r, {| manager := w'; surveys := surveys st; survey_questions := survey_questions st |}).

(** [if (!this.db) await this.initialize()] *)
Definition ensure_open (env : Env) : Async State unit :=
  liftM (fun w => if db_open w then ret tt w else initialize env w).

(** [cacheSurvey(survey, questions)]: one [put] for the survey and one for
    each question, in order, in a single transaction; before that,
    [if (!this.db) throw new Error('Database not initialized')]. *)
Definition cacheSurvey (env : Env) (survey : Survey) (questions : list Question)
    : Async State unit :=
  (ensure_open env ;;;
   fun st =>
     if db_open (manager st) then
       (Resolved tt,
        {| manager := manager st;
           surveys := <[survey_key survey := survey]> (surveys st);
           survey_questions :=
             foldl (fun m question => <[question_key question := question]> m)
                   (survey_questions st) questions |})
     else (Rejected (JsError "Database not initialized"), st))%async.

Definition question_le (a b : Z * Question) : Prop := (a.1 ≤ b.1)%Z.

#[global] Instance question_le_dec : RelDecision question_le.
Proof. intros a b. unfold question_le. apply _. Defined.

(** [questionStore.index('survey_id').getAll(surveyId)]: the questions
    indexed under [surveyId], by ascending primary key. *)
Definition questions_of (surveyId : Z) (m : gmap Z Question) : list Question :=
  filter (fun q => question_survey_id q = surveyId)
         (merge_sort question_le (map_to_list m)).*2.

(** [getCachedSurvey(surveyId)]: resolves with
    [survey && questions ? { survey, questions } : null] once both requests
    have succeeded; [survey] is [undefined] for an absent key and
    [questions] is an array. *)
Definition getCachedSurvey (env : Env) (surveyId : Z)
    : Async State (option (Survey * list Question)) :=
  (ensure_open env ;;;
   liftM (transaction env) ;;;
   fun st =>
     let questions := questions_of surveyId (survey_questions st) in
     (Resolved match surveys st !! surveyId with
               | Some survey => Some (survey, questions)
               | None => None
               end, st))%async.

End SurveyCache.

(** ** Sessions of the worker *)

Module Auth.

(** A row of the table [sessions], with the columns the queries name. The
    table is the list of its rows in insertion order; no constraint on it is
    assumed. *)
Record SessionRow := {
  row_token : string;
  row_user_id : string;
  row_email : string;
  row_user_name : string;
  row_expires_at : Z
}.

Record SessionData := {
  userId : string;
  email : string;
  name : string;
  expiresAt : Z
}.

(** [60 * 24 * 60 * 60 * 1000] *)
Definition sixty_days_ms : Z := 60 * 24 * 60 * 60 * 1000.

(** [createSession(d1, userData)]; [uuid] is what [crypto.randomUUID()]
    returns and [now] what [Date.now()] returns. *)
Definition createSession (uuid : string) (now : Z) (user_id user_email user_name : string)
    (sessions : list SessionRow) : string * list SessionRow :=
  (uuid,
   (sessions ++ [{| row_token := uuid; row_user_id := user_id; row_email := user_email;
                    row_user_name := user_name;
                    row_expires_at := now + sixty_days_ms |}])%list).

(** [DELETE FROM sessions WHERE token = ?] *)
Definition deleteSession (sessionToken : string) (sessions : list SessionRow)
    : list SessionRow :=
  filter (fun r => row_token r ≠ sessionToken) sessions.

(** [getSession(d1, sessionToken)]: the first row with the token; a row that
    has expired is deleted and [null] is returned. *)
Definition getSession (now : Z) (sessionToken : string) (sessions : list SessionRow)
    : option SessionData * list SessionRow :=
  match head (filter (fun r => row_token r = sessionToken) sessions) with
  | None => (None, sessions)
  | Some result =>
      if bool_decide (row_expires_at result < now)
      then (None, deleteSession sessionToken sessions)
      else (Some {| userId := row_user_id result; email := row_email result;
                    name := row_user_name result; expiresAt := row_expires_at result |},
            sessions)
  end.

(** What a handler does with a request. *)
Inductive Reply :=
| Json (status : Z) (body : string)   (** [c.json(body, status)] *)
| CallNext                            (** [await next()] *)
| Throws (message : string).          (** an [Error] leaves the handler *)

(** The part of a Hono context that the handlers use: the request cookie
    [session_token], the cookie written on the response (value and
    [maxAge]), the variable [user], and the database. *)
Record Context := {
  cookie : option string;
  set_cookie : option (string * Z);
  user : option (string * string * string);
  DB : list SessionRow
}.

(** [authMiddleware(c, next)] *)
Definition authMiddleware (now : Z) (c : Context) : Reply * Context :=
  match cookie c with
  | None => (Json 401 "Unauthorized", c)
  | Some sessionToken =>
      if bool_decide (sessionToken = "") then (Json 401 "Unauthorized", c)
      else
        match getSession now sessionToken (DB c) with
        | (None, sessions) =>
            (Json 401 "Invalid session",
             {| cookie := cookie c; set_cookie := Some ("", 0); user := user c;
                DB := sessions |})
        | (Some session, sessions) =>
            (CallNext,
             {| cookie := cookie c; set_cookie := set_cookie c;
                user := Some (userId session, email session, name session);
                DB := sessions |})
        end
  end.

(** [exchangeCodeForSessionToken(d1, code)]: the mock code opens a session
    for the mock user; any other code throws. *)
Definition exchangeCodeForSessionToken (uuid : string) (now : Z) (code : string)
    (sessions : list SessionRow) : (string + string) * list SessionRow :=
  if bool_decide (code = "mock_oauth_code_123") then
    let (sessionToken, sessions') :=
      createSession uuid now "mock_user_id_123" "mock.user@example.com" "Mock User"
        sessions in
    (inl sessionToken, sessions')
  else (inr "Invalid OAuth code", sessions).

(** [POST /api/sessions]; [code] is [body.code] ([None] when absent). *)
Definition post_sessions (uuid : string) (now : Z) (code : option string) (c : Context)
    : Reply * Context :=
  match code with
  | None => (Json 400 "No authorization code provided", c)
  | Some code =>
      if bool_decide (code = "") then (Json 400 "No authorization code provided", c)
      else
        match exchangeCodeForSessionToken uuid now code (DB c) with
        | (inl sessionToken, sessions) =>
            (Json 200 "success",
             {| cookie := cookie c; set_cookie := Some (sessionToken, 60 * 24 * 60 * 60);
                user := user c; DB := sessions |})
        | (inr message, sessions) =>
            (Throws message,
             {| cookie := cookie c; set_cookie := set_cookie c; user := user c;
                DB := sessions |})
        end
  end.

(** [GET /api/logout] *)
Definition get_logout (c : Context) : Reply * Context :=
  (Json 200 "success",
   {| cookie := cookie c; set_cookie := Some ("", 0); user := user c;
      DB := match cookie c with
            | Some sessionToken => deleteSession sessionToken (DB c)
            | None => DB c
            end |}).

End Auth.

(** ** JavaScript numbers *)

(** JavaScript numbers are IEEE 754 doubles, which is what [float] is.
    Counts, indices and sample sizes are integers of magnitude at most
    2^53: they convert exactly, and a sum or difference of two of them is
    exact when its own magnitude is at most 2^53 too, so they are kept in
    [Z]; the theorems that add such numbers state these bounds. Divisions
    and products of proportions are done on [float]. *)
Definition float_of_Z (z : Z) : float :=
  if (z <? 0)%Z then PrimFloat.opp (PrimFloat.of_uint63 (Uint63.of_Z (- z)))
  else PrimFloat.of_uint63 (Uint63.of_Z z).

(** [Math.floor] of a finite double, as an integer. *)
Definition Math_floor (x : float) : Z :=
  match Prim2SF x with
  | S754_finite negative m e =>
      let v := if (0 <=? e)%Z then Z.shiftl (Zpos m) e else Z.shiftr (Zpos m) (- e) in
      if negative then
        if (0 <=? e)%Z then (- v)%Z
        else if (Z.shiftl v (- e) =? Zpos m)%Z then (- v)%Z else (- v - 1)%Z
      else v
  | _ => 0%Z
  end.

(** An integral number, or one of the values that are not finite. *)
Inductive Num :=
  | Int (z : Z)
  | NaN
  | Infinity (negative : bool).

(** [a + b], for integers within the bounds above *)
Definition num_add (a b : Num) : Num :=
  match a, b with
  | Int x, Int y => Int (x + y)
  | NaN, _ | _, NaN => NaN
  | Infinity s, Infinity s' => if Bool.eqb s s' then Infinity s else NaN
  | Infinity s, Int _ | Int _, Infinity s => Infinity s
  end.

(** [a - b] *)
Definition num_sub (a b : Num) : Num :=
  num_add a match b with
         | Int y => Int (- y)
         | NaN => NaN
         | Infinity s => Infinity (negb s)
         end.

(** [Math.round]: the nearest integer, a tie going up. *)
Definition Math_round (x : float) : Num :=
  match Prim2SF x with
  | S754_zero _ => Int 0
  | S754_nan => NaN
  | S754_infinity negative => Infinity negative
  | S754_finite negative m e =>
      let m' := if negative then Zneg m else Zpos m in
      if (0 <=? e)%Z then Int (Z.shiftl m' e)
      else Int ((2 * m' + 2 ^ (- e)) / 2 ^ (- e + 1))
  end.

(** [Math.max(a, b)] for an integer [a] *)
Definition Math_max (a : Z) (b : Num) : Num :=
  match b with
  | Int z => Int (Z.max a z)
  | NaN => NaN
  | Infinity true => Int a
  | Infinity false => Infinity false
  end.

(** ** Geographic distribution of the sample *)

Module StatisticalCalculator.

Record Neighborhood := {
  name : string;
  population : Z
}.

(** A thrown exception, or the returned object. *)
Inductive Outcome :=
  | Returns (distribution : gmap string Num)
  | TypeError.

(** [neighborhoods.reduce((sum, n) => sum + n.population, 0)] *)
Definition total_population (neighborhoods : list Neighborhood) : Z :=
  foldl (fun sum n => (sum + population n)%Z) 0%Z neighborhoods.

(** [Math.max(1, Math.round(totalSample * (n.population / totalPopulation)))] *)
Definition allocation (totalSample totalPopulation : Z) (n : Neighborhood) : Num :=
  let proportion := PrimFloat.div (float_of_Z (population n)) (float_of_Z totalPopulation) in
  Math_max 1 (Math_round (PrimFloat.mul (float_of_Z totalSample) proportion)).

(** [distribution[key] = value] on the plain object [distribution], for a
    number [value]. The key ["__proto__"] is the accessor that the object
    inherits from [Object.prototype]; its setter ignores a value that is
    not an object, so nothing is stored under it. Any other key becomes (or
    stays) an own property. *)
Definition set_property (key : string) (value : Num) (distribution : gmap string Num)
    : gmap string Num :=
  if bool_decide (key = "__proto__") then distribution
  else <[key := value]> distribution.

(** The object filled by the [forEach]; a name met again overwrites. *)
Definition allocate (totalSample totalPopulation : Z) (neighborhoods : list Neighborhood)
    : gmap string Num :=
  foldl (fun distribution n =>
           set_property (name n) (allocation totalSample totalPopulation n) distribution)
        ∅ neighborhoods.

(** [Object.values(distribution).reduce((sum, val) => sum + val, 0)] *)
Definition sum_values (distribution : gmap string Num) : Num :=
  map_fold (fun _ val sum => num_add sum val) (Int 0) distribution.

(** [rest.reduce((max, n) => n.population > max.population ? n : max, first)],
    which is what [reduce] without an initial value does on [first :: rest]. *)
Definition largest (first : Neighborhood) (rest : list Neighborhood) : Neighborhood :=
  foldl (fun max n => if (population max <? population n)%Z then n else max) first rest.

(** [calculateGeographicDistribution(totalSample, neighborhoods)] *)
Definition calculateGeographicDistribution (totalSample : Z)
    (neighborhoods : list Neighborhood) : Outcome :=
  let totalPopulation := total_population neighborhoods in
  let distribution := allocate totalSample totalPopulation neighborhoods in
  let currentTotal := sum_values distribution in
  let diff := num_sub (Int totalSample) currentTotal in
  match diff with
  | Int 0 => Returns distribution
  | _ =>
      match neighborhoods with
      | [] => TypeError
      | first :: rest =>
          let largestNeighborhood := largest first rest in
          (* under ["__proto__"] the value read is an object and the
             assignment is ignored, whatever is assigned *)
          Returns (set_property (name largestNeighborhood)
                     (num_add (default NaN (distribution !! name largestNeighborhood)) diff)
                     distribution)
      end
  end.

(** Every value is an integer, at least 1. *)
Definition positive_ints (d : gmap string Num) : Prop :=
  map_Forall (fun _ v => exists z, v = Int z /\ (1 <= z)%Z) d.

(** The inputs on which the integer arithmetic above is the arithmetic of
    doubles: the sample size and the populations are non-negative integers,
    the populations add up to at most 2^53, and so do the allocations that
    the [forEach] stores (they are then all finite). *)
Definition within_exact_range (totalSample : Z) (neighborhoods : list Neighborhood)
    : Prop :=
  (0 <= totalSample <= 2 ^ 53)%Z
  /\ Forall (fun n => 0 <= population n)%Z neighborhoods
  /\ (total_population neighborhoods <= 2 ^ 53)%Z
  /\ exists t,
       sum_values (allocate totalSample (total_population neighborhoods) neighborhoods)
       = Int t
       /\ (t <= 2 ^ 53)%Z.

End StatisticalCalculator.

(** ** Randomised option order *)

Module Randomizer.

(** [ToInt32]: the signed 32-bit integer congruent to [z]. *)
Definition to_int32 (z : Z) : Z := ((z + 2 ^ 31) mod 2 ^ 32 - 2 ^ 31)%Z.

(** [seed.charCodeAt(i)] for each [i]; a seed is made of base-36 digits and
    dots, one byte each. *)
Definition char_codes (seed : string) : list Z :=
  (fun a => Z.of_nat (Ascii.nat_of_ascii a)) <$> list_ascii_of_string seed.

(** [hash = ((hash << 5) - hash) + char; hash = hash & hash] *)
Definition hash_step (hash char : Z) : Z :=
  to_int32 (to_int32 (hash * 2 ^ 5) - hash + char)%Z.

Definition seed_hash (seed : string) : Z := foldl hash_step 0%Z (char_codes seed).

(** The assignment in [rng]: [hash = (hash * 9301 + 49297) % 233280]; the
    remainder of [%] has the sign of the dividend. *)
Definition rng_state (hash : Z) : Z := Z.rem (hash * 9301 + 49297) 233280.

(** [Math.floor(rng() * (i + 1))], [hash] being the state [rng] has just
    assigned: [rng()] is [hash / 233280]. *)
Definition draw (hash : Z) (i : nat) : Z :=
  Math_floor
    (PrimFloat.mul (PrimFloat.div (float_of_Z hash) (float_of_Z 233280))
                   (float_of_Z (Z.of_nat i + 1))).

(** An array: its elements ([None] is [undefined]) and the properties
    written under keys that are not array indices (here: negative
    numbers). *)
Record JsArray (A : Type) := {
  elems : list (option A);
  props : gmap Z (option A)
}.
Arguments elems {A} _.
Arguments props {A} _.

Definition array_of {A} (l : list A) : JsArray A :=
  {| elems := Some <$> l; props := ∅ |}.

(** [a[i]] *)
Definition get_index {A} (a : JsArray A) (i : Z) : option A :=
  if (0 <=? i)%Z then default None (elems a !! Z.to_nat i)
  else default None (props a !! i).

(** [a[i] = v]; writing past the end grows the array. *)
Definition set_index {A} (a : JsArray A) (i : Z) (v : option A) : JsArray A :=
  if (0 <=? i)%Z then
    if decide (Z.to_nat i < length (elems a))%nat
    then {| elems := <[Z.to_nat i := v]> (elems a); props := props a |}
    else {| elems := (elems a ++ replicate (Z.to_nat i - length (elems a)) None ++ [v])%list;
            props := props a |}
  else {| elems := elems a; props := <[i := v]> (props a) |}.

(** [[a[i], a[j]] = [a[j], a[i]]] *)
Definition swap {A} (i j : Z) (a : JsArray A) : JsArray A :=
  let right := (get_index a j, get_index a i) in
  set_index (set_index a i right.1) j right.2.

(** The loop shared by both shuffles,
    [for (let i = n - 1; i > 0; i--) { const j = ...; swap; swap }];
    [next g i] is the index drawn at [i] and the generator afterwards. *)
Fixpoint shuffle_loop {G A B} (next : G -> nat -> Z * G) (i : nat) (g : G)
    (shuffled : JsArray A) (order : JsArray B) : JsArray A * JsArray B :=
  match i with
  | O => (shuffled, order)
  | S i' =>
      let (j, g') := next g i in
      shuffle_loop next i' g' (swap (Z.of_nat i) j shuffled) (swap (Z.of_nat i) j order)
  end.

(** The pairs [(i, j)] the loop goes through, first to last. *)
Fixpoint draws {G} (next : G -> nat -> Z * G) (i : nat) (g : G) : list (nat * Z) :=
  match i with
  | O => []
  | S i' => let (j, g') := next g i in (i, j) :: draws next i' g'
  end.

(** [Math.floor(rng() * (i + 1))] with the closure's [hash] as generator. *)
Definition seeded_next (hash : Z) (i : nat) : Z * Z :=
  let hash' := rng_state hash in (draw hash' i, hash').

(** [shuffleWithSeed(options, seed)] *)
Definition shuffleWithSeed (options : list string) (seed : string)
    : JsArray string * JsArray Z :=
  shuffle_loop seeded_next (length options - 1) (seed_hash seed)
    (array_of options) (array_of (Z.of_nat <$> seq 0 (length options))).

(** [option.includes(fixedOption)] *)
Fixpoint includes (opt fixedOption : string) : bool :=
  String.prefix fixedOption opt
  || match opt with
     | EmptyString => false
     | String _ rest => includes rest fixedOption
     end.

(** [fixedAtEnd.some(fixedOption => option.includes(fixedOption))] *)
Definition is_fixed (fixedAtEnd : list string) (opt : string) : bool :=
  existsb (includes opt) fixedAtEnd.

Definition default_fixedAtEnd : list string :=
  ["Não sabe"; "Não respondeu"; "Não sabe/Não respondeu"; "Branco/Nulo"].

(** [Math.floor(Math.random() * (i + 1))]: [Math_random_index i] is the
    value in the iteration for [i]. [Math.random()] is in [0, 1), so the
    value is one of [0 .. i]; the theorems take that as a hypothesis. *)
Definition random_next (Math_random_index : nat -> Z) (_ : unit) (i : nat) : Z * unit :=
  (Math_random_index i, tt).

(** [shuffleOptions(options, fixedAtEnd)]; the result's arrays are read
    with [elems]. *)
Definition shuffleOptions (Math_random_index : nat -> Z) (options : list string)
    (fixedAtEnd : list string) : list (option string) * list (option Z) :=
  let indexed := zip options (seq 0 (length options)) in
  let fixed := filter (fun o => is_fixed fixedAtEnd o = true) options in
  let free := filter (fun p => is_fixed fixedAtEnd p.1 = false) indexed in
  let toShuffle := free.*1 in
  let originalOrder := Z.of_nat <$> free.*2 in
  let (shuffledOptions, shuffledOrder) :=
    shuffle_loop (random_next Math_random_index) (length toShuffle - 1) tt
                 (array_of toShuffle) (array_of originalOrder) in
  ((elems shuffledOptions ++ (Some <$> fixed))%list,
   (elems shuffledOrder
    ++ (Some <$> imap (fun index _ =>
                         Z.of_nat (length options) - Z.of_nat (length fixed)
                         + Z.of_nat index)%Z fixed))%list).

End Randomizer.

(* ================================================================== *)
(** * Properties *)
(* ================================================================== *)

(** ** The store *)

Lemma initialize_open env w :
  db_open w = true → initialize env w = (Resolved tt, w).
Proof. unfold initialize. by intros ->. Qed.

Lemma transaction_open env w :
  db_open w = true → transaction env w = (Resolved tt, w).
Proof. unfold transaction. by intros ->. Qed.

Lemma db_open_opened w : db_open (opened w) = true.
Proof. unfold opened. by destruct (db_open w) eqn:Ho. Qed.

Lemma interviews_opened w : interviews (opened w) = interviews w.
Proof. unfold opened. by destruct (db_open w). Qed.

Lemma isSyncing_opened w : isSyncing (opened w) = isSyncing w.
Proof. unfold opened. by destruct (db_open w). Qed.

Lemma trace_opened w : trace (opened w) = trace w.
Proof. unfold opened. by destruct (db_open w). Qed.

Lemma opened_open w : db_open w = true → opened w = w.
Proof. unfold opened. by intros ->. Qed.

(** The two calls of [initialize] that a drain and the hook make in a row:
    whatever the first one does, the second one ends with the database
    open when it is open already or opens. *)
Lemma initialize_twice_ok env w :
  db_open w || indexedDB_open_ok env = true →
  ∃ w1, initialize env w = (Resolved tt, w1)
        ∧ initialize env w1 = (Resolved tt, opened w).
Proof.
  unfold initialize, opened. destruct w as [s o ip g t]; simpl.
  destruct o; simpl; [by eexists|]. intros ->.
  destruct ip; simpl; by eexists.
Qed.

(** When the database is closed and does not open, the first or the second
    call rejects with the opening error. *)
Lemma initialize_twice_fail env w :
  db_open w || indexedDB_open_ok env = false →
  initialize env w
  = (Rejected (JsError "Erro ao abrir banco de dados offline"), set_initPromise false w)
  ∨ ∃ w1, initialize env w = (Resolved tt, w1)
          ∧ initialize env w1
            = (Rejected (JsError "Erro ao abrir banco de dados offline"),
               set_initPromise false w).
Proof.
  unfold initialize. destruct w as [s o ip g t]; simpl.
  intros [-> ->]%orb_false_iff. destruct ip; simpl; [by left|right; by eexists].
Qed.

Lemma elem_of_idb_getAll (s : Store) r :
  r ∈ idb_getAll s ↔ ∃ k, s !! k = Some r.
Proof.
  unfold idb_getAll. rewrite merge_sort_Permutation. rewrite list_elem_of_fmap. split.
  - intros [[k r'] [-> H%elem_of_map_to_list]]. by exists k.
  - intros [k H]. exists (k, r). split; [done|]. by apply elem_of_map_to_list.
Qed.

Lemma elem_of_idb_index_getAll status (s : Store) r :
  r ∈ idb_index_getAll status s ↔
  (∃ k, s !! k = Some r) ∧ sync_status (metadata r) = status.
Proof.
  unfold idb_index_getAll. rewrite list_elem_of_filter, elem_of_idb_getAll. tauto.
Qed.

Lemma idb_getAll_ids (s : Store) :
  store_wf s → id <$> idb_getAll s ≡ₚ (map_to_list s).*1.
Proof.
  intros Hwf. unfold idb_getAll. rewrite merge_sort_Permutation.
  rewrite <- list_fmap_compose.
  assert (id ∘ snd <$> map_to_list s = (map_to_list s).*1) as ->; [|done].
  apply Forall_fmap_ext, Forall_forall.
  intros [k r] H%elem_of_map_to_list. simpl. by apply Hwf.
Qed.

Lemma idb_getAll_NoDup (s : Store) :
  store_wf s → NoDup (id <$> idb_getAll s).
Proof.
  intros Hwf. rewrite (idb_getAll_ids s Hwf). apply NoDup_fst_map_to_list.
Qed.

Lemma pending_listing_NoDup (s : Store) limit :
  store_wf s → NoDup (id <$> take limit (idb_index_getAll pending s)).
Proof.
  intros Hwf. eapply sublist_NoDup; [by apply idb_getAll_NoDup|].
  apply fmap_sublist. etrans; [apply sublist_take|]. apply sublist_filter.
Qed.

Lemma pending_listing_stored (s : Store) limit r :
  store_wf s → r ∈ take limit (idb_index_getAll pending s) →
  s !! id r = Some r ∧ sync_status (metadata r) = pending.
Proof.
  intros Hwf Hin. apply subseteq_take in Hin.
  apply elem_of_idb_index_getAll in Hin as [[k Hk] Hst].
  split; [|done]. by rewrite (Hwf _ _ Hk).
Qed.

(** ** One interview of a drain *)

Section DrainFacts.
Context (env : Env).

Lemma updateSyncStatus_found w key r status msg :
  db_open w = true → interviews w !! key = Some r →
  updateSyncStatus env key status msg w
  = (Resolved tt, idb_put (with_sync_status env status msg r) w).
Proof.
  intros Ho Hr. unfold updateSyncStatus, bind, ret, transaction. by rewrite !Ho, Hr.
Qed.

Lemma removeSyncedInterview_open w key :
  db_open w = true →
  removeSyncedInterview env key w = (Resolved tt, idb_delete key w).
Proof.
  intros Ho. unfold removeSyncedInterview, bind, ret, modify, transaction. by rewrite !Ho.
Qed.

Lemma uploadInterview_spec r w :
  uploadInterview env r w
  = (Resolved (upload_ok env r),
     {| interviews := interviews w; db_open := db_open w; initPromise := initPromise w;
        isSyncing := isSyncing w; trace := trace w ++ upload_events env r |}).
Proof.
  unfold uploadInterview, upload_ok, upload_events, log.
  destruct (post_interview env r) as [|[] [created|]]; simpl; try done.
  destruct (post_responses env created (responses r)) as [|ok' b]; simpl;
    by rewrite <- app_assoc.
Qed.

Lemma syncOne_spec r s :
  db_open (world s) = true →
  interviews (world s) !! id r = Some r →
  syncOne env r s = (Resolved tt, settle_all env [r] s).
Proof.
  intros Ho Hr. destruct s as [[st o ip g t] sc ec ds]. simpl in Ho, Hr. subst o.
  unfold settle_all, settle_events, settle_detail.
  rewrite !filter_cons, !filter_nil. cbn [foldl map concat world interviews db_open
    initPromise isSyncing trace successCount errorCount details_acc settle].
  unfold syncOne, try_catch, bind, liftW.
  cbn [world interviews db_open initPromise isSyncing trace successCount errorCount details_acc].
  rewrite (updateSyncStatus_found _ _ r) by done.
  rewrite uploadInterview_spec.
  unfold settle, idb_put, log, set_interviews.
  cbn [world interviews db_open initPromise isSyncing trace successCount errorCount details_acc].
  destruct (upload_ok env r) eqn:Hok.
  - rewrite (updateSyncStatus_found _ _ (marked_syncing env r));
      [|done|by apply lookup_insert_eq].
    rewrite removeSyncedInterview_open by done.
    unfold modify, idb_delete, idb_put, log, set_interviews, incr_successCount,
      push_detail.
    cbn [world interviews db_open initPromise isSyncing trace successCount errorCount details_acc id
         with_sync_status].
    rewrite insert_insert_eq, !delete_insert_eq.
    rewrite decide_True, decide_False by done.
    rewrite app_nil_r, <- !app_assoc. cbn [app length].
    repeat f_equal; lia.
  - unfold throw, message_of.
    rewrite (updateSyncStatus_found _ _ (marked_syncing env r));
      [|done|by apply lookup_insert_eq].
    unfold modify, idb_put, log, set_interviews, incr_errorCount, push_detail.
    cbn [world interviews db_open initPromise isSyncing trace successCount errorCount details_acc id
         with_sync_status].
    rewrite insert_insert_eq.
    rewrite decide_False, decide_True by done.
    rewrite app_nil_r, <- !app_assoc. cbn [app length].
    repeat f_equal; lia.
Qed.

Lemma settle_all_nil s : settle_all env [] s = s.
Proof.
  destruct s as [[st o ip g t] sc ec ds]. unfold settle_all; simpl.
  rewrite !app_nil_r. repeat f_equal; lia.
Qed.

Lemma settle_all_app l1 l2 s :
  settle_all env (l1 ++ l2) s = settle_all env l2 (settle_all env l1 s).
Proof.
  unfold settle_all.
  cbn [world interviews db_open initPromise isSyncing trace successCount errorCount details_acc].
  rewrite foldl_app, !map_app, concat_app, !filter_app, !length_app.
  f_equal; [f_equal| | |]; rewrite <- ?app_assoc; try done; lia.
Qed.

Lemma foldl_settle_frame l (st : Store) k :
  k ∉ id <$> l → foldl (settle env) st l !! k = st !! k.
Proof.
  revert st. induction l as [|r l IH]; intros st Hk; [done|].
  simpl in *. apply not_elem_of_cons in Hk as [Hne Hk].
  rewrite IH by done. unfold settle.
  destruct (upload_ok env r); [by rewrite lookup_delete_ne|by rewrite lookup_insert_ne].
Qed.

Lemma foldl_settle_member l (st : Store) r :
  NoDup (id <$> l) → r ∈ l →
  foldl (settle env) st l !! id r
  = if upload_ok env r then None else Some (marked_failed env r).
Proof.
  revert st. induction l as [|r0 l IH]; intros st Hnd Hin; [by apply elem_of_nil in Hin|].
  simpl in *. apply NoDup_cons in Hnd as [Hnotin Hnd].
  apply elem_of_cons in Hin as [->|Hin].
  - rewrite foldl_settle_frame by done. unfold settle.
    destruct (upload_ok env r0); [by rewrite lookup_delete_eq|by rewrite lookup_insert_eq].
  - by apply IH.
Qed.

Lemma ready_prefix l1 l2 s : ready (l1 ++ l2) s → ready l1 s.
Proof.
  intros (Ho & Hnd & Hst). split_and!; [done| |].
  - rewrite fmap_app in Hnd. by apply NoDup_app in Hnd as (? & _ & _).
  - intros r Hr. apply Hst. apply elem_of_app. by left.
Qed.

Lemma ready_suffix l1 l2 s : ready (l1 ++ l2) s → ready l2 (settle_all env l1 s).
Proof.
  intros (Ho & Hnd & Hst). rewrite fmap_app in Hnd.
  apply NoDup_app in Hnd as (_ & Hdisj & Hnd2). split_and!; [done|done|].
  intros r Hr. simpl. rewrite foldl_settle_frame.
  - apply Hst. apply elem_of_app. by right.
  - intros Hin. apply (Hdisj _ Hin). by apply list_elem_of_fmap_2.
Qed.

Lemma Promise_all_spec l s :
  ready l s → Promise_all (map (syncOne env) l) s = (Resolved tt, settle_all env l s).
Proof.
  revert s. induction l as [|r l IH]; intros s Hready.
  - simpl. by rewrite settle_all_nil.
  - change (r :: l) with ([r] ++ l)%list in Hready.
    pose proof (ready_suffix _ _ _ Hready) as Hrest.
    destruct Hready as (Ho & _ & Hst). simpl.
    rewrite syncOne_spec; [|done|apply Hst; set_solver].
    rewrite (IH _ Hrest).
    change (r :: l) with ([r] ++ l)%list. by rewrite settle_all_app.
Qed.

(** The loop runs the callbacks of a prefix of the listing, all of it when
    [batchSize] is positive; it resolves or hangs, and never rejects. *)
Lemma for_batches_spec batchSize l fuel :
  ∀ i s, ready (drop i l) s →
    ∃ l1 l2 p,
      drop i l = (l1 ++ l2)%list
      ∧ for_batches env fuel batchSize l i s = (p, settle_all env l1 s)
      ∧ (p = Resolved tt ∧ l2 = [] ∨ p = NeverSettles)
      ∧ ((0 < batchSize)%nat → (length l - i ≤ fuel)%nat → p = Resolved tt).
Proof.
  induction fuel as [|fuel IH]; intros i s Hready; simpl.
  - case_decide as Hi.
    + exists [], (drop i l), NeverSettles. rewrite settle_all_nil.
      split_and!; [done|done|by right|lia].
    + exists [], [], (Resolved tt). rewrite settle_all_nil.
      split_and!; [apply drop_ge; lia|done|by left|done].
  - case_decide as Hi.
    + assert (drop i l = (take batchSize (drop i l) ++ drop (i + batchSize) l)%list)
        as Hsplit.
      { by rewrite <- drop_drop, take_drop. }
      rewrite Hsplit in Hready.
      pose proof (ready_prefix _ _ _ Hready) as Hbatch.
      pose proof (ready_suffix _ _ _ Hready) as Hrest.
      destruct (IH _ _ Hrest) as (l1 & l2 & p & Hl & Hrun & Hp & Hfull).
      exists (take batchSize (drop i l) ++ l1)%list, l2, p.
      unfold bind. rewrite (Promise_all_spec _ _ Hbatch), Hrun, settle_all_app.
      split_and!; [|done|done|].
      * rewrite Hsplit at 1. rewrite Hl. by rewrite app_assoc.
      * intros Hb Hf. apply Hfull; [done|lia].
    + exists [], [], (Resolved tt). rewrite settle_all_nil.
      split_and!; [apply drop_ge; lia|done|by left|done].
Qed.

End DrainFacts.

(** ** A whole drain *)

Section DrainRuns.
Context (env : Env).

Lemma syncPendingData_refused batchSize w :
  isSyncing w || negb (navigator_onLine env) = true →
  syncPendingData env batchSize w = (Resolved zero_result, w).
Proof. intros H. unfold syncPendingData. by rewrite H. Qed.

Lemma syncPendingData_unavailable batchSize w :
  isSyncing w || negb (navigator_onLine env) = false →
  db_open w || indexedDB_open_ok env = false →
  syncPendingData env batchSize w
  = (Resolved {| success := 0; errors := 0; details := [general_error] |},
     set_initPromise false w).
Proof.
  intros Hg Ho. unfold syncPendingData. rewrite Hg.
  apply orb_false_iff in Hg as [Hs _].
  unfold try_finally, try_catch, bind, liftW, getPendingInterviews.
  cbn [world].
  destruct (initialize_twice_fail env (set_isSyncing true w) Ho) as [->|(w1 & -> & Hw1)].
  - destruct w as [st o ip g t]. simpl in *. by subst g.
  - unfold bind. cbn [world]. rewrite Hw1.
    destruct w as [st o ip g t]. simpl in *. by subst g.
Qed.

Lemma drain_listing_ready w s :
  store_wf (interviews w) →
  db_open (world s) = true → interviews (world s) = interviews w →
  ready (drop 0 (drain_listing w)) s.
Proof.
  intros Hwf Ho Hst. rewrite drop_0. split_and!; [done| |].
  - by apply pending_listing_NoDup.
  - intros r Hr. rewrite Hst. by apply pending_listing_stored in Hr as [? _].
Qed.

(** A drain that passes its guard on an available store runs the callbacks
    of a prefix of its listing. It then hangs, or the prefix is the whole
    listing and it resolves; with a positive batch size it resolves. *)
Lemma syncPendingData_runs batchSize w :
  isSyncing w || negb (navigator_onLine env) = false →
  db_open w || indexedDB_open_ok env = true →
  store_wf (interviews w) →
  ∃ l1 l2 p w',
    drain_listing w = (l1 ++ l2)%list
    ∧ syncPendingData env batchSize w = (p, w')
    ∧ interviews w' = foldl (settle env) (interviews w) l1
    ∧ db_open w' = true
    ∧ (p = Resolved (drain_result env l1) ∧ l2 = [] ∧ isSyncing w' = false
       ∧ trace w' = (trace w ++ concat (map (settle_events env) l1)
                     ++ drain_notification env l1)%list
       ∨ p = NeverSettles ∧ isSyncing w' = true
         ∧ trace w' = (trace w ++ concat (map (settle_events env) l1))%list)
    ∧ ((0 < batchSize)%nat → p = Resolved (drain_result env l1)).
Proof.
  intros Hg Ho Hwf.
  pose (s0 := {| world := opened (set_isSyncing true w); successCount := 0;
                 errorCount := 0; details_acc := [] |}).
  assert (ready (drop 0 (drain_listing w)) s0) as Hready.
  { apply drain_listing_ready; [done|apply db_open_opened|].
    cbn [s0 world]. by rewrite interviews_opened. }
  destruct (for_batches_spec env batchSize (drain_listing w)
              (length (drain_listing w)) 0 s0 Hready)
    as (l1 & l2 & p & Hl & Hrun & Hp & Hfull).
  rewrite drop_0 in Hl.
  unfold syncPendingData. rewrite Hg.
  unfold try_finally, try_catch, bind, liftW, getPendingInterviews.
  cbn [world successCount errorCount details_acc].
  destruct (initialize_twice_ok env (set_isSyncing true w) Ho) as (w1 & -> & Hw1).
  unfold bind. cbn [world]. rewrite Hw1, transaction_open by apply db_open_opened.
  rewrite interviews_opened. cbn [interviews set_isSyncing].
  match goal with
  | |- context [for_batches ?e ?f ?b ?l ?i ?s] =>
      change (for_batches e f b l i s)
        with (for_batches env (length (drain_listing w)) batchSize (drain_listing w) 0 s0)
  end.
  rewrite Hrun.
  destruct Hp as [[-> ->] | ->].
  - exists l1, [], (Resolved (drain_result env l1)).
    eexists. split_and!; [done|reflexivity| | | |done].
    + unfold drain_result, settle_all, update_world, log; simpl.
      case_match; simpl; by rewrite interviews_opened.
    + unfold settle_all, update_world, log; simpl.
      case_match; simpl; by rewrite db_open_opened.
    + left. split_and!; [done|done| |].
      * unfold settle_all, update_world, log; simpl. by case_match.
      * unfold drain_notification, drain_result, settle_all, update_world, log; simpl.
        rewrite trace_opened.
        case_match; simpl; by rewrite ?app_nil_r, <- ?app_assoc.
  - exists l1, l2, NeverSettles. eexists.
    split_and!; [done|reflexivity| | | |].
    + simpl. by rewrite interviews_opened.
    + simpl. by rewrite db_open_opened.
    + right. simpl. by rewrite isSyncing_opened, trace_opened.
    + intros Hb. specialize (Hfull Hb). discriminate Hfull. lia.
Qed.

End DrainRuns.

Lemma elem_of_concat_map {A B} (f : A → list B) (l : list A) (e : B) :
  e ∈ concat (map f l) ↔ ∃ y, y ∈ l ∧ e ∈ f y.
Proof.
  induction l as [|a l IH]; simpl.
  - split; [intros H; by apply elem_of_nil in H|].
    intros (y & Hy & _). by apply elem_of_nil in Hy.
  - rewrite elem_of_app, IH. split.
    + intros [H|(y & Hy & He)]; [exists a|exists y]; split; try done; by constructor.
    + intros (y & [->|Hy]%elem_of_cons & He); [by left|right; by exists y].
Qed.

(** ** What a drain leaves in the store *)

Section DrainEffect.
Context (env : Env).

Lemma upload_ok_iff r :
  upload_ok env r = true ↔
  ∃ created b, post_interview env r = HttpResponse true (Some created)
               ∧ post_responses env created (responses r) = HttpResponse true b.
Proof.
  unfold upload_ok. split.
  - destruct (post_interview env r) as [|[] [created|]]; try done.
    destruct (post_responses env created (responses r)) as [|[] b] eqn:Hpost; try done.
    intros _. by exists created, b.
  - intros (created & b & -> & ->). done.
Qed.

Lemma foldl_settle_Forall (P : string → OfflineInterview → Prop) l (st : Store) :
  (∀ r, P (id r) (marked_failed env r)) →
  map_Forall P st → map_Forall P (foldl (settle env) st l).
Proof.
  intros HP. revert st. induction l as [|r l IH]; intros st Hst; [done|].
  simpl. apply IH. unfold settle. destruct (upload_ok env r).
  - by apply map_Forall_delete.
  - apply map_Forall_insert_2; [apply HP|done].
Qed.

Lemma foldl_settle_wf l (st : Store) :
  store_wf st → store_wf (foldl (settle env) st l).
Proof. apply foldl_settle_Forall. done. Qed.

(** Whatever its guard, its batch size and the state of the database, a
    drain runs the callbacks of a prefix of its listing and nothing else
    (apart from the notification it may show). *)
Lemma drain_effect batchSize w :
  store_wf (interviews w) →
  ∃ l1 l2 p w' shown,
    drain_listing w = (l1 ++ l2)%list
    ∧ syncPendingData env batchSize w = (p, w')
    ∧ interviews w' = foldl (settle env) (interviews w) l1
    ∧ trace w' = (trace w ++ concat (map (settle_events env) l1) ++ shown)%list
    ∧ shown = (if p is Resolved _ then drain_notification env l1 else []).
Proof.
  intros Hwf.
  destruct (isSyncing w || negb (navigator_onLine env)) eqn:Hg.
  - exists [], (drain_listing w), (Resolved zero_result), w, [].
    rewrite syncPendingData_refused by done. simpl. by rewrite app_nil_r.
  - destruct (db_open w || indexedDB_open_ok env) eqn:Ho.
    + destruct (syncPendingData_runs env batchSize w Hg Ho Hwf)
        as (l1 & l2 & p & w' & Hl & Hrun & Hst & _ & Hp & _).
      destruct Hp as [(-> & -> & _ & Htr) | (-> & _ & Htr)].
      * exists l1, [], (Resolved (drain_result env l1)), w', (drain_notification env l1).
        done.
      * exists l1, l2, NeverSettles, w', []. by rewrite app_nil_r.
    + eexists [], (drain_listing w), _, _, [].
      rewrite syncPendingData_unavailable by done. simpl. by rewrite app_nil_r.
Qed.

Lemma drain_preserves_wf batchSize w :
  store_wf (interviews w) → store_wf (interviews (syncPendingData env batchSize w).2).
Proof.
  intros Hwf.
  destruct (drain_effect batchSize w Hwf) as (l1 & l2 & p & w' & sh & _ & -> & Hst & _).
  simpl. rewrite Hst. by apply foldl_settle_wf.
Qed.


(** A record whose status is not ['pending'] is outside every listing. *)
Lemma not_pending_not_listed w key r limit x :
  store_wf (interviews w) → interviews w !! key = Some r →
  sync_status (metadata r) ≠ pending →
  x ∈ take limit (idb_index_getAll pending (interviews w)) → id x ≠ key.
Proof.
  intros Hwf Hr Hst Hx Heq.
  apply pending_listing_stored in Hx as [Hx Hpend]; [|done].
  rewrite Heq, Hr in Hx. by simplify_eq.
Qed.

(** A drain leaves such a record as it is and sends nothing for it. *)
Lemma drain_skips_not_pending batchSize w key r :
  store_wf (interviews w) → interviews w !! key = Some r →
  sync_status (metadata r) ≠ pending →
  ∃ p w' events,
    syncPendingData env batchSize w = (p, w')
    ∧ interviews w' !! key = Some r
    ∧ trace w' = (trace w ++ events)%list
    ∧ (∀ x, FetchPostInterview x ∈ events → id x ≠ key)
    ∧ (∀ x, IdbPut x ∈ events → id x ≠ key)
    ∧ IdbDelete key ∉ events.
Proof.
  intros Hwf Hr Hst.
  destruct (drain_effect batchSize w Hwf)
    as (l1 & l2 & p & w' & sh & Hl & Hrun & Hstore & Htr & Hsh).
  assert (∀ x, x ∈ l1 → id x ≠ key) as Hout.
  { intros x Hx. apply (not_pending_not_listed w key r 50 x Hwf Hr Hst).
    change (x ∈ drain_listing w). rewrite Hl. set_solver. }
  assert (∀ e, e ∈ (concat (map (settle_events env) l1) ++ sh)%list →
               match e with
               | FetchPostInterview x | IdbPut x => id x ≠ key
               | IdbDelete k => k ≠ key
               | _ => True
               end) as Hev.
  { intros e [He|He]%elem_of_app.
    - apply elem_of_concat_map in He as (y & Hy & He). specialize (Hout y Hy).
      unfold settle_events, upload_events in He.
      repeat (apply elem_of_cons in He as [->|He] || apply elem_of_app in He as [He|He]
              || case_match); try done; try (by apply elem_of_nil in He).
    - subst sh. destruct p; try by apply elem_of_nil in He.
      unfold drain_notification in He. case_match; [|by apply elem_of_nil in He].
      apply list_elem_of_singleton in He as ->. done. }
  exists p, w', (concat (map (settle_events env) l1) ++ sh)%list.
  split_and!; [done| |done|..].
  - rewrite Hstore, foldl_settle_frame; [done|].
    intros (y & Hy & Hin)%list_elem_of_fmap. by apply (Hout y Hin).
  - intros x Hx. by apply (Hev _ Hx).
  - intros x Hx. by apply (Hev _ Hx).
  - intros Hx. by apply (Hev _ Hx).
Qed.

End DrainEffect.

(** ** The other operations on the queue *)

Lemma forcSync_unfold env w :
  forcSync env w = syncPendingData env 10 (set_isSyncing false w).
Proof. done. Qed.

Lemma saveOfflineInterview_valid env r w :
  db_open w = true →
  invalid_interview r = false →
  saveOfflineInterview env r w = (Resolved tt, idb_put r w).
Proof.
  intros Ho Hv. unfold saveOfflineInterview, bind.
  rewrite initialize_open by done. rewrite Hv.
  by rewrite transaction_open by done.
Qed.


(** The hook's enqueue, whatever the state of the [SyncManager]'s own
    storage manager: its new manager opens the database, and the record is
    validated and stored. *)
Lemma hook_save_unfold env suffix userAgent seed d w :
  let x := new_interview env suffix userAgent seed d in
  hook_saveOfflineInterview env suffix userAgent seed d w
  = if indexedDB_open_ok env then
      if invalid_interview x
      then (Rejected (JsError "Dados da entrevista inválidos"), w)
      else (Resolved tt, idb_put x w)
    else (Rejected (JsError "Erro ao abrir banco de dados offline"), w).
Proof.
  intros x. unfold hook_saveOfflineInterview, saveOfflineInterview, bind, initialize,
    transaction, throw, modify.
  destruct w as [st o ip g t]. cbn [db_open initPromise set_db_open set_initPromise].
  destruct (indexedDB_open_ok env); [|done].
  cbn [db_open initPromise set_db_open set_initPromise].
  fold x. by destruct (invalid_interview x).
Qed.

Lemma hook_save_store env suffix userAgent seed d w :
  let x := new_interview env suffix userAgent seed d in
  interviews (hook_saveOfflineInterview env suffix userAgent seed d w).2 = interviews w
  ∨ interviews (hook_saveOfflineInterview env suffix userAgent seed d w).2
    = <[id x := x]> (interviews w).
Proof.
  intros x. rewrite hook_save_unfold. fold x.
  destruct (indexedDB_open_ok env); [|by left].
  destruct (invalid_interview x); [by left|by right].
Qed.

Lemma foldl_idb_delete_store (l : list OfflineInterview) w :
  interviews (foldl (fun w' i => idb_delete (id i) w') w l)
  = foldl (fun st i => delete (id i) st) (interviews w) l.
Proof. revert w. induction l as [|x l IH]; intros w; [done|]. simpl. by rewrite IH. Qed.

Lemma foldl_delete_Forall {V} (P : string → V → Prop) (l : list OfflineInterview)
    (st : gmap string V) :
  map_Forall P st → map_Forall P (foldl (fun st i => delete (id i) st) st l).
Proof.
  revert st. induction l as [|x l IH]; intros st Hst; [done|].
  simpl. apply IH. by apply map_Forall_delete.
Qed.

Lemma foldl_delete_frame {V} (l : list OfflineInterview) (st : gmap string V) k :
  k ∉ id <$> l → foldl (fun st i => delete (id i) st) st l !! k = st !! k.
Proof.
  revert st. induction l as [|x l IH]; intros st Hk; [done|].
  simpl in *. apply not_elem_of_cons in Hk as [Hne Hk].
  rewrite IH by done. by rewrite lookup_delete_ne.
Qed.

(** [cleanOldData] deletes ['synced'] records only. *)
Lemma cleanOldData_store env w :
  ∃ l, interviews (cleanOldData env w).2
       = foldl (fun st i => delete (id i) st) (interviews w) l
       ∧ ∀ x, x ∈ l → (∃ k, interviews w !! k = Some x) ∧ sync_status (metadata x) = synced.
Proof.
  unfold cleanOldData, bind, ret.
  assert (∀ w0 : World, interviews w0 = interviews w →
    ∃ l, interviews
           (foldl (fun w' i => idb_delete (id i) w') w0
              (filter (fun i => collected_at (metadata i) < thirtyDaysAgo env
                                ∧ sync_status (metadata i) = synced)
                      (idb_getAll (interviews w0))))
         = foldl (fun st i => delete (id i) st) (interviews w) l
       ∧ ∀ x, x ∈ l → (∃ k, interviews w !! k = Some x)
                       ∧ sync_status (metadata x) = synced) as Hgen.
  { intros w0 Hw0. eexists. rewrite foldl_idb_delete_store, Hw0. split; [done|].
    intros x [[_ Hs] Hx%elem_of_idb_getAll]%list_elem_of_filter. done. }
  assert (∃ l : list OfflineInterview,
            interviews w = foldl (fun st i => delete (id i) st) (interviews w) l
            ∧ ∀ x, x ∈ l → (∃ k, interviews w !! k = Some x)
                            ∧ sync_status (metadata x) = synced) as Hnone.
  { exists []. split; [done|]. intros x Hx. by apply elem_of_nil in Hx. }
  unfold transaction. destruct (db_open w) eqn:Hopen.
  - rewrite Hopen. by apply Hgen.
  - unfold initialize. rewrite Hopen.
    destruct (initPromise w); [destruct (indexedDB_open_ok env)|]; simpl;
      rewrite ?Hopen; simpl;
      first [exact (Hgen (set_initPromise false (set_db_open true w)) eq_refl)
            |exact Hnone].
Qed.

Lemma opening_settles_queue env w :
  interviews (opening_settles env w) = interviews w
  ∧ trace (opening_settles env w) = trace w.
Proof.
  unfold opening_settles.
  by destruct (db_open w), (initPromise w), (indexedDB_open_ok env).
Qed.

Lemma perform_Forall (P : string → OfflineInterview → Prop) w a :
  (∀ env r, P (id r) (marked_failed env r)) →
  (∀ env suffix userAgent seed d,
     let x := new_interview env suffix userAgent seed d in P (id x) x) →
  store_wf (interviews w) →
  map_Forall P (interviews w) → map_Forall P (interviews (perform w a)).
Proof.
  intros Hfail Hnew Hwf HP. destruct a as [env sx ua seed d|env bs|env|env|env]; simpl.
  - destruct (hook_save_store env sx ua seed d w) as [-> | ->]; [done|].
    apply map_Forall_insert_2; [apply Hnew|done].
  - destruct (drain_effect env bs w Hwf) as (l1 & l2 & p & w' & sh & _ & -> & Hst & _).
    simpl. rewrite Hst. by apply foldl_settle_Forall.
  - rewrite forcSync_unfold.
    destruct (drain_effect env 10 (set_isSyncing false w) Hwf)
      as (l1 & l2 & p & w' & sh & _ & -> & Hst & _).
    simpl. rewrite Hst. by apply foldl_settle_Forall.
  - destruct (cleanOldData_store env w) as (l & -> & _). by apply foldl_delete_Forall.
  - by rewrite (proj1 (opening_settles_queue env w)).
Qed.

Lemma perform_wf w a :
  store_wf (interviews w) → store_wf (interviews (perform w a)).
Proof. intros Hwf. by apply perform_Forall. Qed.






(** An operation other than an enqueue leaves a record that is not
    ['pending'] nor ['synced'] as it is. *)
Lemma perform_keeps w a key r :
  is_enqueue a = false →
  store_wf (interviews w) → interviews w !! key = Some r →
  sync_status (metadata r) ≠ pending → sync_status (metadata r) ≠ synced →
  interviews (perform w a) !! key = Some r.
Proof.
  intros Ha Hwf Hr Hnp Hns. destruct a as [env sx ua seed d|env bs|env|env|env]; simpl.
  - done.
  - destruct (drain_skips_not_pending env bs w key r Hwf Hr Hnp)
      as (p & w' & ev & -> & Hk & _). done.
  - rewrite forcSync_unfold.
    destruct (drain_skips_not_pending env 10 (set_isSyncing false w) key r Hwf Hr Hnp)
      as (p & w' & ev & -> & Hk & _). done.
  - destruct (cleanOldData_store env w) as (l & -> & Hl).
    rewrite foldl_delete_frame; [done|].
    intros (x & -> & Hx)%list_elem_of_fmap.
    destruct (Hl x Hx) as [[k Hk] Hs]. rewrite (Hwf _ _ Hk) in Hr.
    rewrite Hk in Hr. by simplify_eq.
  - by rewrite (proj1 (opening_settles_queue env w)).
Qed.

Lemma getPendingInterviews_resolved env limit w l w' :
  getPendingInterviews env limit w = (Resolved l, w') →
  l = take limit (idb_index_getAll pending (interviews w))
  ∧ interviews w' = interviews w.
Proof.
  unfold getPendingInterviews, bind, initialize, transaction.
  destruct w as [st o ip g t]. simpl.
  destruct o, ip, (indexedDB_open_ok env); simpl; intros H; by simplify_eq.
Qed.

Lemma store_wf_empty : store_wf ∅.
Proof. apply map_Forall_empty. Qed.

Lemma store_wf_insert (s : Store) r :
  store_wf s → store_wf (<[id r := r]> s).
Proof. intros Hwf. by apply map_Forall_insert_2. Qed.

Lemma store_wf_singleton r : store_wf {[ id r := r ]}.
Proof. rewrite <- insert_empty. apply store_wf_insert, store_wf_empty. Qed.

(** ** Records that no drain picks up *)

(** C1: the code does not retry a record marked ['error']. An interview
    is enqueued, and a drain whose second remote call fails leaves it with
    status ['error']. The next listing of [getPendingInterviews], which
    asks the status index for ['pending'] only, is empty; the next drain and
    a forced drain, against a healthy server, report nothing, send nothing
    and leave the record as it was. *)
Theorem error_record_is_not_retried :
  let d := {| data_survey_id := Some 7; data_interviewer_id := "user-1";
              data_responses := sample_responses; data_location := None |} in
  let w1 := foldl perform initial_world
              [Enqueue env_ok "1700000100000_k3j9x2m1a" "Mozilla/5.0" "lq3x9" d;
               Drain env_partial 10] in
  let key := "offline_1700000100000_k3j9x2m1a" in
  (sync_status ∘ metadata) <$> interviews w1 !! key = Some error
  ∧ (getPendingInterviews env_ok 50 w1).1 = Resolved []
  ∧ (syncPendingData env_ok 10 w1).1 = Resolved zero_result
  ∧ trace (syncPendingData env_ok 10 w1).2 = trace w1
  ∧ interviews (syncPendingData env_ok 10 w1).2 !! key = interviews w1 !! key
  ∧ (forcSync env_ok w1).1 = Resolved zero_result
  ∧ trace (forcSync env_ok w1).2 = trace w1
  ∧ interviews (forcSync env_ok w1).2 !! key = interviews w1 !! key.
Proof. vm_compute. repeat split. Qed.

(** C9: a record whose status is ['syncing'] is in no listing of
    [getPendingInterviews], and drains, forced drains and clean-ups, however
    many, leave it in the store as it is. *)
Theorem syncing_records_are_stranded w key r (actions : list Action) :
  store_wf (interviews w) →
  interviews w !! key = Some r →
  sync_status (metadata r) = syncing →
  Forall (fun a => is_enqueue a = false) actions →
  interviews (foldl perform w actions) !! key = Some r
  ∧ ∀ env limit l w1,
      getPendingInterviews env limit (foldl perform w actions) = (Resolved l, w1) →
      ∀ x, x ∈ l → id x ≠ key.
Proof.
  intros Hwf Hr Hst Hacts.
  assert (store_wf (interviews (foldl perform w actions))
          ∧ interviews (foldl perform w actions) !! key = Some r) as [Hwf' Hr'].
  { induction actions as [|a actions IH] using rev_ind; [done|].
    apply Forall_app in Hacts as [Hacts [Ha _]%Forall_cons].
    rewrite foldl_app. simpl. destruct (IH Hacts) as [Hwf' Hr']. split.
    - by apply perform_wf.
    - apply perform_keeps; try done; by rewrite Hst. }
  split; [done|].
  intros env limit l w1 [-> _]%getPendingInterviews_resolved x Hx.
  eapply not_pending_not_listed; [done..| |done]. by rewrite Hst.
Qed.

Lemma syncing_records_are_stranded_witness :
  let r := sample_interview "offline_1" (Some 7) sample_responses syncing 1 None in
  let w := world_of {[ "offline_1" := r ]} in
  let actions := [Drain env_ok 10; ForceSync env_ok; Cleanup env_ok; Drain env_partial 3] in
  interviews (foldl perform w actions) !! "offline_1" = Some r
  ∧ ∀ env limit l w1,
      getPendingInterviews env limit (foldl perform w actions) = (Resolved l, w1) →
      ∀ x, x ∈ l → id x ≠ "offline_1".
Proof.
  intros r w actions. apply (syncing_records_are_stranded w "offline_1" r actions).
  - apply (store_wf_singleton r).
  - vm_compute. reflexivity.
  - reflexivity.
  - repeat constructor.
Defined.

(** ** Status updates on a missing record *)

Lemma updateSyncStatus_absent env w key status msg :
  db_open w = true →
  interviews w !! key = None →
  updateSyncStatus env key status msg w = (NeverSettles, w).
Proof.
  intros Ho Hk. unfold updateSyncStatus, bind, ret, transaction. by rewrite !Ho, Hk.
Qed.

(** C2: on an open, empty store, [updateSyncStatus] for an absent id returns
    a promise that never settles; it does not reject, and the store and the
    trace stay as they were. *)
Theorem updateSyncStatus_absent_never_settles :
  updateSyncStatus env_ok "offline_404" syncing None (world_of ∅)
  = (NeverSettles, world_of ∅)
  ∧ updateSyncStatus env_ok "offline_404" error (Some "Falha no upload da entrevista")
      (world_of ∅)
    = (NeverSettles, world_of ∅).
Proof. split; by rewrite updateSyncStatus_absent. Qed.

(** ** The single-flight guard *)

(** C5: a drain called while another is in progress, or while offline,
    resolves at once with the zero result and leaves the world (store,
    trace, flag) untouched; a drain that passes the guard and settles, by
    resolving or by rejecting, leaves [isSyncing] cleared; and with a
    positive batch size such a drain does resolve. *)
Theorem drain_single_flight env batchSize w :
  (isSyncing w = true ∨ navigator_onLine env = false →
   syncPendingData env batchSize w = (Resolved zero_result, w))
  ∧ (isSyncing w = false → navigator_onLine env = true →
     ∀ p w', syncPendingData env batchSize w = (p, w') → p ≠ NeverSettles →
             isSyncing w' = false)
  ∧ (isSyncing w = false → navigator_onLine env = true →
     (0 < batchSize)%nat → store_wf (interviews w) →
     ∃ res w', syncPendingData env batchSize w = (Resolved res, w')
               ∧ isSyncing w' = false).
Proof.
  split_and!.
  - intros H. apply syncPendingData_refused.
    destruct H as [-> | ->]; [done|]. by rewrite orb_true_r.
  - intros Hs Hon p w'. unfold syncPendingData. rewrite Hs, Hon. simpl.
    unfold try_finally.
    destruct (try_catch _ _ _) as [[[]|e|] s]; intros H Hp; simplify_eq; simpl.
    + by case_match.
    + done.
  - intros Hs Hon Hb Hwf.
    assert (isSyncing w || negb (navigator_onLine env) = false) as Hg
      by (by rewrite Hs, Hon).
    destruct (db_open w || indexedDB_open_ok env) eqn:Ho.
    + destruct (syncPendingData_runs env batchSize w Hg Ho Hwf)
        as (l1 & l2 & p & w' & _ & Hrun & _ & _ & Hp & Hfull).
      rewrite (Hfull Hb) in *. exists (drain_result env l1), w'. split; [done|].
      destruct Hp as [(_ & _ & ? & _) | (? & _)]; [done|discriminate].
    + rewrite syncPendingData_unavailable by done. eauto.
Qed.

Lemma drain_single_flight_witness :
  let r := sample_interview "offline_1" (Some 7) sample_responses pending 0 None in
  let busy := set_isSyncing true (world_of {[ "offline_1" := r ]}) in
  let idle := world_of {[ "offline_1" := r ]} in
  syncPendingData env_ok 10 busy = (Resolved zero_result, busy)
  ∧ syncPendingData env_offline 10 idle = (Resolved zero_result, idle)
  ∧ (∀ p w', syncPendingData env_ok 10 idle = (p, w') → p ≠ NeverSettles →
             isSyncing w' = false)
  ∧ (∃ res w', syncPendingData env_ok 10 idle = (Resolved res, w')
               ∧ isSyncing w' = false).
Proof.
  intros r busy idle. split_and!.
  - apply (drain_single_flight env_ok 10 busy). left. reflexivity.
  - apply (drain_single_flight env_offline 10 idle). right. reflexivity.
  - apply (drain_single_flight env_ok 10 idle); reflexivity.
  - apply (drain_single_flight env_ok 10 idle); [reflexivity|reflexivity|lia|].
    apply (store_wf_singleton r).
Defined.

(** ** Drains that run to completion *)

Lemma syncPendingData_completes env batchSize w :
  isSyncing w = false → navigator_onLine env = true →
  db_open w || indexedDB_open_ok env = true →
  store_wf (interviews w) → (0 < batchSize)%nat →
  ∃ w',
    syncPendingData env batchSize w = (Resolved (drain_result env (drain_listing w)), w')
    ∧ interviews w' = foldl (settle env) (interviews w) (drain_listing w)
    ∧ isSyncing w' = false
    ∧ trace w' = (trace w ++ concat (map (settle_events env) (drain_listing w))
                  ++ drain_notification env (drain_listing w))%list.
Proof.
  intros Hs Hon Ho Hwf Hb.
  assert (isSyncing w || negb (navigator_onLine env) = false) as Hg
    by (by rewrite Hs, Hon).
  destruct (syncPendingData_runs env batchSize w Hg Ho Hwf)
    as (l1 & l2 & p & w' & Hl & Hrun & Hst & _ & Hp & Hfull).
  rewrite (Hfull Hb) in *.
  destruct Hp as [(_ & -> & Hflag & Htr) | (? & _)]; [|discriminate].
  rewrite app_nil_r in Hl. rewrite Hl. by exists w'.
Qed.

Lemma settle_events_synced env r :
  upload_ok env r = true →
  IdbPut (marked_synced env r) ∈ settle_events env r
  ∧ IdbDelete (id r) ∈ settle_events env r.
Proof.
  intros Hok. unfold settle_events. rewrite Hok.
  split; apply elem_of_cons; right; apply elem_of_app; right.
  - by left.
  - right. by left.
Qed.

(** C3, as the code has it: when the creation succeeds and posting the
    responses fails, the drain leaves the record with status ['error'], the
    message of the failed upload, and a [sync_attempts] counter two above
    what it was: one for the update to ['syncing'], one for the update to
    ['error']. *)
Theorem partial_failure_counts_two_updates env batchSize w r created :
  isSyncing w = false → navigator_onLine env = true →
  db_open w || indexedDB_open_ok env = true →
  store_wf (interviews w) → (0 < batchSize)%nat →
  r ∈ drain_listing w →
  post_interview env r = HttpResponse true (Some created) →
  (∀ b, post_responses env created (responses r) ≠ HttpResponse true b) →
  ∃ res w' r',
    syncPendingData env batchSize w = (Resolved res, w')
    ∧ interviews w' !! id r = Some r'
    ∧ sync_status (metadata r') = error
    ∧ error_message (metadata r') = Some "Falha no upload da entrevista"
    ∧ sync_attempts (metadata r') = sync_attempts (metadata r) + 2.
Proof.
  intros Hs Hon Ho Hwf Hb Hin Hcreate Hpost.
  destruct (syncPendingData_completes env batchSize w Hs Hon Ho Hwf Hb)
    as (w' & Hrun & Hst & _).
  assert (upload_ok env r = false) as Hfail.
  { apply not_true_is_false. intros (c & b & Hc & Hr)%upload_ok_iff.
    rewrite Hcreate in Hc. simplify_eq. by apply (Hpost b). }
  exists (drain_result env (drain_listing w)), w', (marked_failed env r).
  split_and!; [done| |done|done|simpl; lia].
  rewrite Hst, foldl_settle_member; [by rewrite Hfail| |done].
  by apply pending_listing_NoDup.
Qed.

Lemma partial_failure_counts_two_updates_witness :
  let r := sample_interview "offline_1" (Some 7) sample_responses pending 0 None in
  let w := world_of {[ "offline_1" := r ]} in
  ∃ res w' r',
    syncPendingData env_partial 10 w = (Resolved res, w')
    ∧ interviews w' !! "offline_1" = Some r'
    ∧ sync_status (metadata r') = error
    ∧ error_message (metadata r') = Some "Falha no upload da entrevista"
    ∧ sync_attempts (metadata r') = 0 + 2.
Proof.
  intros r w.
  apply (partial_failure_counts_two_updates env_partial 10 w r 42);
    try reflexivity; try lia.
  - apply (store_wf_singleton r).
  - vm_compute. left.
  - intros b. discriminate.
Defined.

(** C3, as stated, fails: after the first drain of a freshly enqueued
    interview, with the creation answered and the responses refused, the
    record has status ['error'], an error message, and [sync_attempts = 2]. *)
Lemma partial_failure_attempts_is_two :
  let d := {| data_survey_id := Some 7; data_interviewer_id := "user-1";
              data_responses := sample_responses; data_location := None |} in
  let w1 := foldl perform initial_world
              [Enqueue env_ok "1700000100000_k3j9x2m1a" "Mozilla/5.0" "lq3x9" d;
               Drain env_partial 10] in
  let stored := interviews w1 !! "offline_1700000100000_k3j9x2m1a" in
  (sync_status ∘ metadata) <$> stored = Some error
  ∧ (error_message ∘ metadata) <$> stored = Some (Some "Falha no upload da entrevista")
  ∧ (sync_attempts ∘ metadata) <$> stored = Some 2
  ∧ (sync_attempts ∘ metadata) <$> stored ≠ Some 1.
Proof. vm_compute. repeat split. discriminate. Qed.

(** C4: in a drain that runs, a listed interview is marked ['synced'] (a
    [put] of the record with that status) exactly when the creation
    answers [ok] with the created interview and posting the responses
    answers [ok]; when that happens the record is deleted, the store no
    longer holds its key, and no later listing returns it. *)
Theorem synced_iff_both_calls_succeed env batchSize w r :
  isSyncing w = false → navigator_onLine env = true →
  db_open w || indexedDB_open_ok env = true →
  store_wf (interviews w) → (0 < batchSize)%nat →
  r ∈ drain_listing w →
  ∃ res w' events,
    syncPendingData env batchSize w = (Resolved res, w')
    ∧ trace w' = (trace w ++ events)%list
    ∧ ((∃ x, IdbPut x ∈ events ∧ id x = id r ∧ sync_status (metadata x) = synced)
       ↔ (∃ created b,
            post_interview env r = HttpResponse true (Some created)
            ∧ post_responses env created (responses r) = HttpResponse true b))
    ∧ ((∃ x, IdbPut x ∈ events ∧ id x = id r ∧ sync_status (metadata x) = synced) →
       IdbDelete (id r) ∈ events
       ∧ interviews w' !! id r = None
       ∧ ∀ env' limit l w1,
           getPendingInterviews env' limit w' = (Resolved l, w1) →
           ∀ x, x ∈ l → id x ≠ id r).
Proof.
  intros Hs Hon Ho Hwf Hb Hin.
  destruct (syncPendingData_completes env batchSize w Hs Hon Ho Hwf Hb)
    as (w' & Hrun & Hst & _ & Htr).
  pose proof (pending_listing_NoDup (interviews w) 50 Hwf) as Hnd.
  fold (drain_listing w) in Hnd.
  assert ((∃ x, IdbPut x ∈ (concat (map (settle_events env) (drain_listing w))
                             ++ drain_notification env (drain_listing w))%list
                ∧ id x = id r ∧ sync_status (metadata x) = synced)
          ↔ upload_ok env r = true) as Hmark.
  { split.
    - intros (x & [Hx|Hx]%elem_of_app & Hid & Hsynced).
      + apply elem_of_concat_map in Hx as (y & Hy & Hx).
        assert (y = r) as ->.
        { apply pending_listing_stored in Hy as [Hy _]; [|done].
          apply pending_listing_stored in Hin as [Hr _]; [|done].
          assert (id y = id r) as Heq.
          { unfold settle_events, upload_events in Hx.
            repeat (apply elem_of_cons in Hx as [Hx|Hx]
                    || apply elem_of_app in Hx as [Hx|Hx] || case_match);
              simplify_eq; try done; by apply elem_of_nil in Hx. }
          rewrite Heq, Hr in Hy. by simplify_eq. }
        unfold settle_events, upload_events in Hx.
        destruct (upload_ok env r); [done|].
        repeat (apply elem_of_cons in Hx as [Hx|Hx]
                || apply elem_of_app in Hx as [Hx|Hx] || case_match);
          simplify_eq; try done; by apply elem_of_nil in Hx.
      + unfold drain_notification in Hx. case_match; [|by apply elem_of_nil in Hx].
        by apply list_elem_of_singleton in Hx.
    - intros Hok. exists (marked_synced env r). split_and!; [|done|done].
      apply elem_of_app. left. apply elem_of_concat_map. exists r. split; [done|].
      by apply settle_events_synced. }
  exists (drain_result env (drain_listing w)), w'. eexists.
  split_and!; [done|exact Htr| |].
  - rewrite Hmark. apply upload_ok_iff.
  - intros Hok%Hmark. split_and!.
    + apply elem_of_app. left. apply elem_of_concat_map. exists r. split; [done|].
      by apply settle_events_synced.
    + rewrite Hst, foldl_settle_member by done. by rewrite Hok.
    + intros env' limit l w1 [-> Hsame]%getPendingInterviews_resolved x Hx Heq.
      apply subseteq_take, elem_of_idb_index_getAll in Hx as [[k Hk] _].
      pose proof (foldl_settle_wf env (drain_listing w) _ Hwf) as Hwf'.
      rewrite <- Hst in Hwf'. rewrite <- (Hwf' _ _ Hk), Heq in Hk.
      rewrite Hst, foldl_settle_member in Hk by done. by rewrite Hok in Hk.
Qed.

Lemma synced_iff_both_calls_succeed_witness :
  let r := sample_interview "offline_1" (Some 7) sample_responses pending 0 None in
  let w := world_of {[ "offline_1" := r ]} in
  ∃ res w' events,
    syncPendingData env_ok 10 w = (Resolved res, w')
    ∧ trace w' = (trace w ++ events)%list
    ∧ ((∃ x, IdbPut x ∈ events ∧ id x = "offline_1" ∧ sync_status (metadata x) = synced)
       ↔ (∃ created b,
            post_interview env_ok r = HttpResponse true (Some created)
            ∧ post_responses env_ok created (responses r) = HttpResponse true b))
    ∧ ((∃ x, IdbPut x ∈ events ∧ id x = "offline_1" ∧ sync_status (metadata x) = synced) →
       IdbDelete "offline_1" ∈ events
       ∧ interviews w' !! "offline_1" = None
       ∧ ∀ env' limit l w1,
           getPendingInterviews env' limit w' = (Resolved l, w1) →
           ∀ x, x ∈ l → id x ≠ "offline_1").
Proof.
  intros r w.
  apply (synced_iff_both_calls_succeed env_ok 10 w r); try reflexivity; try lia.
  - apply (store_wf_singleton r).
  - vm_compute. left.
Defined.

(** ** Enqueueing *)

Lemma invalid_interview_iff r :
  invalid_interview r = true ↔
  id r = "" ∨ survey_id r = None ∨ survey_id r = Some 0 ∨ responses r = [].
Proof.
  unfold invalid_interview. rewrite !orb_true_iff, !bool_decide_eq_true.
  destruct (survey_id r) as [n|]; rewrite ?bool_decide_eq_true.
  - split.
    + intros [[? | ->] | ?%nil_length_inv]; auto.
    + intros [? | [? | [? | ->]]]; simplify_eq; auto.
  - split; [auto|]. intros _. auto.
Qed.








(** ** Error messages *)




(** ** Stopping the automatic triggers *)

Lemma filter_older_idents (l : list Scheduler.Fn) (n : nat) :
  Forall (fun f => Scheduler.ident f < n)%nat l →
  filter (fun g => Scheduler.ident g ≠ n) l = l.
Proof.
  induction 1 as [|f l Hf _ IH]; [done|].
  rewrite filter_cons_True by lia. by rewrite IH.
Qed.

(** The function object that [stop] hands to [removeEventListener] is new,
    so no registered listener is that object. *)
Lemma stop_keeps_listeners st :
  Forall (fun f => Scheduler.ident f < Scheduler.next_ident st)%nat
         (Scheduler.online_listeners st) →
  Scheduler.online_listeners (Scheduler.stop st) = Scheduler.online_listeners st.
Proof.
  intros Hold. unfold Scheduler.stop.
  set (st1 := match Scheduler.syncInterval st with
              | Some h => _ | None => _ end).
  set (st2 := match Scheduler.debounceTimer st1 with
              | Some h => _ | None => _ end).
  assert (Scheduler.online_listeners st2 = Scheduler.online_listeners st
          ∧ Scheduler.next_ident st2 = Scheduler.next_ident st) as [Hl Hn].
  { subst st2 st1. destruct (Scheduler.syncInterval st); simpl;
      repeat (case_match; simpl); done. }
  simpl. rewrite Hl, Hn. by apply filter_older_idents.
Qed.

(** C10: after [new SyncManager()] and [stop()], with or without
    [requestIdleCallback], the listener of ['online'] is still registered;
    the next ['online'] event arms the debounce timer and, when that timer
    fires, [syncPendingData] is called. Where [requestIdleCallback] exists,
    the idle request made by the constructor also survives [stop()] and
    calls [syncPendingData] when it is served. *)
Theorem stop_leaves_triggers_armed :
  (∀ idle : bool,
     let stopped := Scheduler.stop (Scheduler.new_SyncManager idle) in
     Scheduler.sync_calls stopped = 0%nat
     ∧ Scheduler.code <$> Scheduler.online_listeners stopped = [Scheduler.OnlineListener]
     ∧ ∃ h,
         Scheduler.debounceTimer (Scheduler.step true false Scheduler.OnlineEvent stopped)
         = Some h
         ∧ Scheduler.sync_calls
             (Scheduler.step true false (Scheduler.TimerFires h)
                (Scheduler.step true false Scheduler.OnlineEvent stopped)) = 1%nat)
  ∧ Scheduler.sync_calls
      (Scheduler.step true false Scheduler.IdlePeriod
         (Scheduler.stop (Scheduler.new_SyncManager true))) = 1%nat.
Proof.
  split; [|reflexivity].
  intros [|]; simpl; (split_and!; [reflexivity|reflexivity|]);
    eexists; split; reflexivity.
Qed.

(* ================================================================== *)
(** * Further properties of the offline queue *)
(* ================================================================== *)

(** ** Counting records *)

Lemma idb_getAll_length (s : Store) : length (idb_getAll s) = size s.
Proof.
  unfold idb_getAll. rewrite length_fmap, merge_sort_Permutation.
  apply length_map_to_list.
Qed.

Lemma idb_getAll_insert_fresh (s : Store) k r :
  s !! k = None → idb_getAll (<[k := r]> s) ≡ₚ r :: idb_getAll s.
Proof.
  intros Hk. unfold idb_getAll. rewrite !merge_sort_Permutation.
  by rewrite map_to_list_insert.
Qed.

Lemma idb_getAll_delete (s : Store) k r :
  s !! k = Some r → idb_getAll s ≡ₚ r :: idb_getAll (delete k s).
Proof.
  intros Hk. rewrite <- (idb_getAll_insert_fresh (delete k s) k r)
    by apply lookup_delete_eq.
  by rewrite insert_delete_id.
Qed.

Lemma count_status_Permutation status (l1 l2 : list OfflineInterview) :
  l1 ≡ₚ l2 → count_status status l1 = count_status status l2.
Proof. intros H. unfold count_status. by rewrite H. Qed.

Lemma count_status_cons status r l :
  count_status status (r :: l)
  = ((if decide (sync_status (metadata r) = status) then 1 else 0)
     + count_status status l)%nat.
Proof. unfold count_status. rewrite filter_cons. by case_decide. Qed.

Lemma count_status_partition (l : list OfflineInterview) :
  (count_status pending l + count_status syncing l + count_status error l
   + count_status synced l = length l)%nat.
Proof.
  induction l as [|r l IH]; [done|].
  rewrite !count_status_cons. simpl.
  destruct (sync_status (metadata r)); repeat case_decide; try done; lia.
Qed.

Lemma getOfflineStats_resolved env w :
  db_open w = true →
  getOfflineStats env w
  = (Resolved {| pendingInterviews := count_status pending (idb_getAll (interviews w));
                 syncingInterviews := count_status syncing (idb_getAll (interviews w));
                 errorInterviews := count_status error (idb_getAll (interviews w)) |},
     w).
Proof.
  intros Ho. unfold getOfflineStats, bind, ret, transaction. by rewrite !Ho.
Qed.

(** X1: on a storage manager whose database handle is set, [getSyncStatus]
    reads without writing, and the three counts it reports leave out the
    ['synced'] records: together with those they add up to the number of
    stored records. *)
Theorem getSyncStatus_counts_partition env w :
  db_open w = true →
  ∃ v w',
    getSyncStatus env w = (Resolved v, w')
    ∧ interviews w' = interviews w
    ∧ trace w' = trace w
    ∧ isSyncing w' = isSyncing w
    ∧ (view_pending v + view_syncing v + view_errors v
       + count_status synced (idb_getAll (interviews w)) = size (interviews w))%nat
    ∧ view_isOnline v = navigator_onLine env
    ∧ view_isSyncing v = isSyncing w.
Proof.
  intros Ho. unfold getSyncStatus, bind. rewrite getOfflineStats_resolved by done.
  eexists. eexists. split; [done|]. simpl. split_and!; try done.
  rewrite count_status_partition. apply idb_getAll_length.
Qed.

Lemma getSyncStatus_counts_partition_witness :
  let w := world_of {[ "offline_1" := sample_interview "offline_1" (Some 7)
                                        sample_responses synced 2 None ]} in
  ∃ v w',
    getSyncStatus env_ok w = (Resolved v, w')
    ∧ interviews w' = interviews w
    ∧ trace w' = trace w
    ∧ isSyncing w' = isSyncing w
    ∧ (view_pending v + view_syncing v + view_errors v
       + count_status synced (idb_getAll (interviews w)) = size (interviews w))%nat
    ∧ view_isOnline v = navigator_onLine env_ok
    ∧ view_isSyncing v = isSyncing w.
Proof. intros w. apply (getSyncStatus_counts_partition env_ok w). reflexivity. Defined.

Lemma hook_save_valid env suffix userAgent seed d w n :
  indexedDB_open_ok env = true →
  data_survey_id d = Some n → n ≠ 0 → data_responses d ≠ [] →
  hook_saveOfflineInterview env suffix userAgent seed d w
  = (Resolved tt, idb_put (new_interview env suffix userAgent seed d) w).
Proof.
  intros Ho Hn Hn0 Hrs. rewrite hook_save_unfold, Ho.
  destruct (invalid_interview _) eqn:Hbad; [|done].
  apply invalid_interview_iff in Hbad. simpl in Hbad.
  destruct Hbad as [?|[?|[?|?]]]; simplify_eq.
Qed.

(** X2: a valid enqueue through the hook under an identifier the store
    does not hold yet raises the pending count of [getSyncStatus] by exactly
    one and leaves the syncing and error counts as they were; the counts
    are read through the [SyncManager]'s storage manager, its database
    handle set. *)
Theorem enqueue_adds_one_pending env suffix userAgent seed d w n :
  db_open w = true →
  indexedDB_open_ok env = true →
  data_survey_id d = Some n → n ≠ 0 → data_responses d ≠ [] →
  interviews w !! ("offline_" ++ suffix) = None →
  ∃ v w0 w1 v' w2,
    getSyncStatus env w = (Resolved v, w0)
    ∧ hook_saveOfflineInterview env suffix userAgent seed d w = (Resolved tt, w1)
    ∧ getSyncStatus env w1 = (Resolved v', w2)
    ∧ view_pending v' = S (view_pending v)
    ∧ view_syncing v' = view_syncing v
    ∧ view_errors v' = view_errors v.
Proof.
  intros Hopen Ho Hn Hn0 Hrs Hfresh.
  rewrite (hook_save_valid env suffix userAgent seed d w n) by done.
  assert (∀ w0, db_open w0 = true →
                getSyncStatus env w0
                = (Resolved
                     {| view_pending := count_status pending (idb_getAll (interviews w0));
                        view_syncing := count_status syncing (idb_getAll (interviews w0));
                        view_errors := count_status error (idb_getAll (interviews w0));
                        view_isOnline := navigator_onLine env;
                        view_isSyncing := isSyncing w0 |}, w0)) as Hview.
  { intros w0 Hw0. unfold getSyncStatus, bind.
    by rewrite getOfflineStats_resolved by done. }
  set (x := new_interview env suffix userAgent seed d).
  eexists _, w, (idb_put x w), _, (idb_put x w).
  rewrite (Hview w) by done.
  rewrite (Hview (idb_put x w)) by exact Hopen.
  split_and!; try done; simpl.
  all: rewrite (count_status_Permutation _ _ _ (idb_getAll_insert_fresh _ _ _ Hfresh)).
  all: by rewrite count_status_cons.
Qed.

Lemma enqueue_adds_one_pending_witness :
  let d := {| data_survey_id := Some 7; data_interviewer_id := "user-1";
              data_responses := sample_responses; data_location := None |} in
  let w := world_of {[ "offline_1" := sample_interview "offline_1" (Some 7)
                                        sample_responses error 2 (Some "x") ]} in
  ∃ v w0 w1 v' w2,
    getSyncStatus env_ok w = (Resolved v, w0)
    ∧ hook_saveOfflineInterview env_ok "2" "Mozilla/5.0" "lq3x9" d w = (Resolved tt, w1)
    ∧ getSyncStatus env_ok w1 = (Resolved v', w2)
    ∧ view_pending v' = S (view_pending v)
    ∧ view_syncing v' = view_syncing v
    ∧ view_errors v' = view_errors v.
Proof.
  intros d w.
  apply (enqueue_adds_one_pending env_ok "2" "Mozilla/5.0" "lq3x9" d w 7);
    try reflexivity; discriminate.
Defined.




(** ** Drains at the edges *)

Lemma for_batches_zero env l fuel s :
  l ≠ [] → for_batches env fuel 0 l 0 s = (NeverSettles, s).
Proof.
  intros Hl. induction fuel as [|fuel IH]; simpl.
  - rewrite decide_True; [done|]. destruct l; [done|simpl; lia].
  - rewrite decide_True by (destruct l; [done|simpl; lia]).
    unfold bind. simpl. exact IH.
Qed.

(** X4: with [batchSize = 0] and at least one pending interview, a drain
    that passes its guard never settles: it changes no record, sends
    nothing, and leaves [isSyncing] set, so every later call of
    [syncPendingData] is refused with the zero result. *)
Theorem zero_batch_size_wedges_the_engine env w :
  isSyncing w = false → navigator_onLine env = true →
  db_open w || indexedDB_open_ok env = true →
  drain_listing w ≠ [] →
  ∃ w',
    syncPendingData env 0 w = (NeverSettles, w')
    ∧ interviews w' = interviews w
    ∧ trace w' = trace w
    ∧ isSyncing w' = true
    ∧ ∀ env' batchSize, syncPendingData env' batchSize w' = (Resolved zero_result, w').
Proof.
  intros Hs Hon Ho Hl.
  unfold syncPendingData at 1. rewrite Hs, Hon. simpl orb. cbv iota.
  unfold try_finally, try_catch, bind, liftW, getPendingInterviews.
  cbn [world successCount errorCount details_acc].
  destruct (initialize_twice_ok env (set_isSyncing true w) Ho) as (w1 & -> & Hw1).
  unfold bind. cbn [world]. rewrite Hw1, transaction_open by apply db_open_opened.
  rewrite interviews_opened. cbn [interviews set_isSyncing].
  match goal with
  | |- context [for_batches ?e ?f ?b ?l ?i ?s] =>
      change (for_batches e f b l i s)
        with (for_batches env (length (drain_listing w)) 0 (drain_listing w) 0 s)
  end.
  rewrite for_batches_zero by done.
  eexists. split; [done|]. simpl.
  rewrite interviews_opened, trace_opened, isSyncing_opened. split_and!; try done.
  intros env' batchSize. apply syncPendingData_refused. simpl.
  by rewrite isSyncing_opened.
Qed.

Lemma zero_batch_size_wedges_the_engine_witness :
  let w := world_of {[ "offline_1" := sample_interview "offline_1" (Some 7)
                                        sample_responses pending 0 None ]} in
  ∃ w',
    syncPendingData env_ok 0 w = (NeverSettles, w')
    ∧ interviews w' = interviews w
    ∧ trace w' = trace w
    ∧ isSyncing w' = true
    ∧ ∀ env' batchSize, syncPendingData env' batchSize w' = (Resolved zero_result, w').
Proof.
  intros w. apply (zero_batch_size_wedges_the_engine env_ok w).
  - reflexivity.
  - reflexivity.
  - reflexivity.
  - vm_compute. discriminate.
Defined.

(** X5: when the database is not open and cannot be opened, a drain does
    not reject: it resolves with no success, no error and the one general
    detail, sends nothing and changes no record; it leaves [isSyncing]
    cleared, the handle unset and no opening in flight, so that a later
    drain tries to open the database again. *)
Theorem drain_swallows_unavailable_store env batchSize w :
  isSyncing w = false → navigator_onLine env = true →
  db_open w = false → indexedDB_open_ok env = false →
  ∃ w',
    syncPendingData env batchSize w
    = (Resolved {| success := 0; errors := 0; details := [general_error] |}, w')
    ∧ interviews w' = interviews w
    ∧ trace w' = trace w
    ∧ isSyncing w' = false
    ∧ db_open w' = false
    ∧ initPromise w' = false.
Proof.
  intros Hs Hon Hopen Ho.
  rewrite syncPendingData_unavailable by (by rewrite ?Hs, ?Hon, ?Hopen, ?Ho).
  eexists. split; [done|]. simpl. by rewrite Hs, Hopen.
Qed.

Lemma drain_swallows_unavailable_store_witness :
  let env := {| indexedDB_open_ok := false; navigator_onLine := true; Date_now := 0;
                Date_thirtyDaysAgo := 0; TypeError_message := "";
                post_interview := fun _ => NetworkError;
                post_responses := fun _ _ => NetworkError |} in
  ∃ w',
    syncPendingData env 10 initial_world
    = (Resolved {| success := 0; errors := 0; details := [general_error] |}, w')
    ∧ interviews w' = interviews initial_world
    ∧ trace w' = trace initial_world
    ∧ isSyncing w' = false
    ∧ db_open w' = false
    ∧ initPromise w' = false.
Proof.
  intros env. apply (drain_swallows_unavailable_store env 10 initial_world); reflexivity.
Defined.

Lemma filter_upload_partition env (l : list OfflineInterview) :
  (length (filter (fun r => upload_ok env r = true) l)
   + length (filter (fun r => upload_ok env r = false) l) = length l)%nat.
Proof.
  induction l as [|r l IH]; [done|].
  rewrite !filter_cons. destruct (upload_ok env r); repeat case_decide; try done;
    simpl; lia.
Qed.

(** X6: a drain that runs accounts for every interview it lists, and lists
    at most fifty: [success + errors] is the smaller of 50 and the number of
    pending records, [details] has one entry per listed interview, under
    its [id] (in the order in which the uploads finish), and [success]
    counts the interviews for which both remote calls answered [ok]. *)
Theorem drain_accounts_for_each_listed_interview env batchSize w :
  isSyncing w = false → navigator_onLine env = true →
  db_open w || indexedDB_open_ok env = true →
  store_wf (interviews w) → (0 < batchSize)%nat →
  ∃ res w',
    syncPendingData env batchSize w = (Resolved res, w')
    ∧ (success res + errors res
       = min 50 (count_status pending (idb_getAll (interviews w))))%nat
    ∧ map detail_id (details res) ≡ₚ map (fun r => Some (id r)) (drain_listing w)
    ∧ success res
      = length (filter (fun r => upload_ok env r = true) (drain_listing w)).
Proof.
  intros Hs Hon Ho Hwf Hb.
  destruct (syncPendingData_completes env batchSize w Hs Hon Ho Hwf Hb)
    as (w' & Hrun & _).
  exists (drain_result env (drain_listing w)), w'. split; [done|].
  unfold drain_result. cbn [success errors details]. split_and!.
  - rewrite filter_upload_partition. unfold drain_listing. by rewrite length_take.
  - rewrite map_map. erewrite map_ext; [reflexivity|]. intros r.
    unfold settle_detail. by destruct (upload_ok env r).
  - done.
Qed.

Lemma drain_accounts_for_each_listed_interview_witness :
  let w := world_of {[ "offline_1" := sample_interview "offline_1" (Some 7)
                                        sample_responses pending 0 None ]} in
  ∃ res w',
    syncPendingData env_partial 10 w = (Resolved res, w')
    ∧ (success res + errors res
       = min 50 (count_status pending (idb_getAll (interviews w))))%nat
    ∧ map detail_id (details res) ≡ₚ map (fun r => Some (id r)) (drain_listing w)
    ∧ success res
      = length (filter (fun r => upload_ok env_partial r = true) (drain_listing w)).
Proof.
  intros w. apply (drain_accounts_for_each_listed_interview env_partial 10 w).
  - reflexivity.
  - reflexivity.
  - reflexivity.
  - apply (store_wf_singleton
             (sample_interview "offline_1" (Some 7) sample_responses pending 0 None)).
  - lia.
Defined.

(** X7: when at most fifty interviews are pending, a drain that runs leaves
    none pending: each has been deleted or marked ['error'], and the next
    listing is empty whatever its limit. *)
Theorem drain_leaves_no_pending env batchSize w :
  isSyncing w = false → navigator_onLine env = true →
  db_open w || indexedDB_open_ok env = true →
  store_wf (interviews w) → (0 < batchSize)%nat →
  (count_status pending (idb_getAll (interviews w)) ≤ 50)%nat →
  ∃ res w',
    syncPendingData env batchSize w = (Resolved res, w')
    ∧ count_status pending (idb_getAll (interviews w')) = 0%nat
    ∧ ∀ env' limit, getPendingInterviews env' limit w' = (Resolved [], w').
Proof.
  intros Hs Hon Ho Hwf Hb Hshort.
  destruct (syncPendingData_runs env batchSize w) as
    (l1 & l2 & p & w' & Hl & Hrun & Hst & Hopen & Hp & Hfull);
    [by rewrite Hs, Hon|done|done|].
  rewrite (Hfull Hb) in *.
  destruct Hp as [(_ & -> & _) | (? & _)]; [|discriminate].
  rewrite app_nil_r in Hl. subst l1.
  assert (drain_listing w = idb_index_getAll pending (interviews w)) as Hall.
  { unfold drain_listing. apply take_ge. exact Hshort. }
  assert (idb_index_getAll pending (interviews w') = []) as Hnone.
  { destruct (idb_index_getAll pending (interviews w')) as [|x rest] eqn:Hlist; [done|].
    exfalso.
    assert (x ∈ idb_index_getAll pending (interviews w')) as Hx
      by (rewrite Hlist; by left).
    apply elem_of_idb_index_getAll in Hx as [[k Hk] Hpend].
    pose proof (foldl_settle_wf env (drain_listing w) _ Hwf) as Hwf'.
    rewrite <- Hst in Hwf'. pose proof (Hwf' _ _ Hk) as Hid. simpl in Hid. subst k.
    pose proof (pending_listing_NoDup (interviews w) 50 Hwf) as Hnd.
    fold (drain_listing w) in Hnd.
    destruct (decide (id x ∈ id <$> drain_listing w)) as [Hin|Hout].
    - apply list_elem_of_fmap in Hin as (r & Heq & Hr).
      rewrite Hst, Heq, foldl_settle_member in Hk by done.
      destruct (upload_ok env r); [done|]. by simplify_eq.
    - rewrite Hst, foldl_settle_frame in Hk by done.
      apply Hout. apply list_elem_of_fmap. exists x. split; [done|].
      rewrite Hall. apply elem_of_idb_index_getAll. eauto. }
  exists (drain_result env (drain_listing w)), w'. split_and!; [done| |].
  - unfold count_status. fold (idb_index_getAll pending (interviews w')).
    by rewrite Hnone.
  - intros env' limit. unfold getPendingInterviews, bind.
    rewrite initialize_open, transaction_open by done. by rewrite Hnone, take_nil.
Qed.

Lemma drain_leaves_no_pending_witness :
  let w := world_of {[ "offline_1" := sample_interview "offline_1" (Some 7)
                                        sample_responses pending 0 None ]} in
  ∃ res w',
    syncPendingData env_partial 10 w = (Resolved res, w')
    ∧ count_status pending (idb_getAll (interviews w')) = 0%nat
    ∧ ∀ env' limit, getPendingInterviews env' limit w' = (Resolved [], w').
Proof.
  intros w. apply (drain_leaves_no_pending env_partial 10 w).
  - reflexivity.
  - reflexivity.
  - reflexivity.
  - apply (store_wf_singleton
             (sample_interview "offline_1" (Some 7) sample_responses pending 0 None)).
  - lia.
  - vm_compute. lia.
Defined.

(** X8: [uploadInterview] never rejects: a network error, an answer that
    is not [ok] and a body that does not parse are all turned into [false].
    It resolves with [true] exactly when the creation answers [ok] with a
    body that parses and posting the responses answers [ok]; it changes no
    record; it sends the creation request first, and then the responses of
    the queued interview exactly when the creation has answered so. *)
Theorem uploadInterview_never_rejects env r w p w' :
  uploadInterview env r w = (p, w') →
  (∀ e, p ≠ Rejected e)
  ∧ (p = Resolved true ↔
     ∃ created b, post_interview env r = HttpResponse true (Some created)
                  ∧ post_responses env created (responses r) = HttpResponse true b)
  ∧ interviews w' = interviews w
  ∧ ∃ sent,
      trace w' = (trace w ++ FetchPostInterview r :: sent)%list
      ∧ (sent = [] ∨ ∃ c, sent = [FetchPostResponses c (responses r)])
      ∧ (sent ≠ [] ↔ ∃ created, post_interview env r = HttpResponse true (Some created)).
Proof.
  rewrite uploadInterview_spec. intros [= <- <-]. split_and!; [done| |done|].
  - rewrite <- upload_ok_iff. split; [by intros [= ->]|by intros ->].
  - eexists. split; [done|].
    destruct (post_interview env r) as [|[] [created|]]; simpl.
    2: { split; [right; by eexists|]. split; [by eexists|done]. }
    all: split; [by left|]; split; [done|]; by intros [c ?].
Qed.

Lemma uploadInterview_never_rejects_witness :
  let r := sample_interview "offline_1" (Some 7) sample_responses syncing 1 None in
  let w := world_of {[ "offline_1" := r ]} in
  let out := uploadInterview env_partial r w in
  (∀ e, out.1 ≠ Rejected e)
  ∧ (out.1 = Resolved true ↔
     ∃ created b, post_interview env_partial r = HttpResponse true (Some created)
                  ∧ post_responses env_partial created (responses r) = HttpResponse true b)
  ∧ interviews out.2 = interviews w
  ∧ ∃ sent,
      trace out.2 = (trace w ++ FetchPostInterview r :: sent)%list
      ∧ (sent = [] ∨ ∃ c, sent = [FetchPostResponses c (responses r)])
      ∧ (sent ≠ []
         ↔ ∃ created, post_interview env_partial r = HttpResponse true (Some created)).
Proof.
  intros r w out.
  apply (uploadInterview_never_rejects env_partial r w out.1 out.2).
  reflexivity.
Defined.

(** ** Forced drains *)

(** X9: [forcSync] does not respect the single-flight guard. While
    [isSyncing] is set a plain drain is refused, but a forced one, when
    online, runs over the whole listing and resolves with the flag
    cleared; when offline it drains nothing and still clears the flag. *)
Theorem forcSync_overrides_the_guard env w :
  isSyncing w = true →
  db_open w || indexedDB_open_ok env = true →
  store_wf (interviews w) →
  syncPendingData env 10 w = (Resolved zero_result, w)
  ∧ (navigator_onLine env = true →
     ∃ res w',
       forcSync env w = (Resolved res, w')
       ∧ isSyncing w' = false
       ∧ (success res + errors res = length (drain_listing w))%nat
       ∧ ∀ r, r ∈ drain_listing w → upload_ok env r = true → interviews w' !! id r = None)
  ∧ (navigator_onLine env = false →
     forcSync env w = (Resolved zero_result, set_isSyncing false w)).
Proof.
  intros Hs Ho Hwf. split_and!.
  - apply syncPendingData_refused. by rewrite Hs.
  - intros Hon. rewrite forcSync_unfold.
    destruct (syncPendingData_completes env 10 (set_isSyncing false w))
      as (w' & Hrun & Hst & Hflag & _); [done..|lia|].
    change (drain_listing (set_isSyncing false w)) with (drain_listing w) in *.
    exists (drain_result env (drain_listing w)), w'. split_and!; [done|done| |].
    + apply filter_upload_partition.
    + intros r Hr Hok. rewrite Hst. simpl.
      rewrite foldl_settle_member; [by rewrite Hok| |done].
      by apply pending_listing_NoDup.
  - intros Hoff. rewrite forcSync_unfold. apply syncPendingData_refused.
    simpl. by rewrite Hoff.
Qed.

Lemma forcSync_overrides_the_guard_witness :
  let r := sample_interview "offline_1" (Some 7) sample_responses pending 0 None in
  let w := set_isSyncing true (world_of {[ "offline_1" := r ]}) in
  syncPendingData env_ok 10 w = (Resolved zero_result, w)
  ∧ (∃ res w',
       forcSync env_ok w = (Resolved res, w')
       ∧ isSyncing w' = false
       ∧ (success res + errors res = length (drain_listing w))%nat
       ∧ ∀ r, r ∈ drain_listing w → upload_ok env_ok r = true →
              interviews w' !! id r = None)
  ∧ forcSync env_offline w = (Resolved zero_result, set_isSyncing false w).
Proof.
  intros r w. split_and!.
  - apply (forcSync_overrides_the_guard env_ok w);
      [reflexivity|reflexivity|apply (store_wf_singleton r)].
  - apply (forcSync_overrides_the_guard env_ok w);
      [reflexivity|reflexivity|apply (store_wf_singleton r)|reflexivity].
  - apply (forcSync_overrides_the_guard env_offline w);
      [reflexivity|reflexivity|apply (store_wf_singleton r)|reflexivity].
Defined.

(** X10: the hook's [forcSync] ends by showing the sync notification for
    the result, whatever the counts: offline, or with nothing pending, one
    notification with counts 0 and 0 is shown; when interviews were
    processed the drain has already shown the same notification, so it is
    shown twice. *)
Theorem hook_forcSync_always_notifies env w :
  db_open w || indexedDB_open_ok env = true →
  store_wf (interviews w) →
  (navigator_onLine env = false →
   ∃ w', hook_forcSync env w = (Resolved zero_result, w')
         ∧ trace w' = (trace w ++ [ShowSyncStatus 0 0])%list)
  ∧ (navigator_onLine env = true →
     ∃ res w' events,
       hook_forcSync env w = (Resolved res, w')
       ∧ trace w' = (trace w ++ events
                     ++ [ShowSyncStatus (success res) (errors res)])%list
       ∧ (drain_listing w = [] →
          events = [] ∧ success res = 0%nat ∧ errors res = 0%nat)
       ∧ (drain_listing w ≠ [] →
          ∃ events', events
                     = (events' ++ [ShowSyncStatus (success res) (errors res)])%list)).
Proof.
  intros Ho Hwf. split.
  - intros Hoff. unfold hook_forcSync, bind. rewrite forcSync_unfold.
    rewrite syncPendingData_refused by (simpl; by rewrite Hoff).
    eexists. split; done.
  - intros Hon. unfold hook_forcSync, bind. rewrite forcSync_unfold.
    destruct (syncPendingData_completes env 10 (set_isSyncing false w))
      as (w' & Hrun & _ & _ & Htr); [done..|lia|].
    change (drain_listing (set_isSyncing false w)) with (drain_listing w) in *.
    rewrite Hrun. eexists. eexists.
    exists (concat (map (settle_events env) (drain_listing w))
            ++ drain_notification env (drain_listing w))%list.
    split; [done|]. split_and!.
    + unfold log. simpl. rewrite Htr. simpl. by rewrite <- !app_assoc.
    + intros Hnil. rewrite Hnil. done.
    + intros Hne. eexists. f_equal. unfold drain_notification.
      destruct (bool_decide _ || bool_decide _) eqn:Hshown; [done|exfalso].
      apply orb_false_iff in Hshown as [H1%bool_decide_eq_false H2%bool_decide_eq_false].
      pose proof (filter_upload_partition env (drain_listing w)) as Hsum.
      unfold drain_result in H1, H2. cbn [success errors] in H1, H2.
      assert (0 < length (drain_listing w))%nat
        by (destruct (drain_listing w); [done|simpl; lia]).
      lia.
Qed.

Lemma hook_forcSync_always_notifies_witness :
  let r := sample_interview "offline_1" (Some 7) sample_responses pending 0 None in
  let w := world_of {[ "offline_1" := r ]} in
  (∃ w', hook_forcSync env_offline w = (Resolved zero_result, w')
         ∧ trace w' = (trace w ++ [ShowSyncStatus 0 0])%list)
  ∧ (∃ res w' events,
       hook_forcSync env_ok w = (Resolved res, w')
       ∧ trace w' = (trace w ++ events
                     ++ [ShowSyncStatus (success res) (errors res)])%list
       ∧ (drain_listing w = [] →
          events = [] ∧ success res = 0%nat ∧ errors res = 0%nat)
       ∧ (drain_listing w ≠ [] →
          ∃ events', events
                     = (events' ++ [ShowSyncStatus (success res) (errors res)])%list)).
Proof.
  intros r w. split.
  - apply (hook_forcSync_always_notifies env_offline w);
      [reflexivity|apply (store_wf_singleton r)|reflexivity].
  - apply (hook_forcSync_always_notifies env_ok w);
      [reflexivity|apply (store_wf_singleton r)|reflexivity].
Defined.

(** ** Enqueue, then drain *)

Lemma count_status_insert_le status (s : Store) k r :
  (count_status status (idb_getAll (<[k := r]> s))
   ≤ S (count_status status (idb_getAll s)))%nat.
Proof.
  destruct (s !! k) as [old|] eqn:Hk.
  - rewrite <- (insert_delete_eq s k r).
    rewrite (count_status_Permutation _ _ _
               (idb_getAll_insert_fresh (delete k s) k r (lookup_delete_eq _ _))).
    rewrite (count_status_Permutation _ _ _ (idb_getAll_delete s k old Hk)).
    rewrite !count_status_cons. repeat case_decide; lia.
  - rewrite (count_status_Permutation _ _ _ (idb_getAll_insert_fresh s k r Hk)).
    rewrite count_status_cons. case_decide; lia.
Qed.

(** X11: offline capture followed by a drain. With fewer than fifty
    interviews pending, an interview enqueued through the hook is picked up
    by the next drain that runs; if both remote calls answer [ok] for it,
    the drain reports it as ['synced'] and the store no longer holds it. *)
Theorem enqueue_then_drain_delivers env env' batchSize suffix userAgent seed d w n created b :
  indexedDB_open_ok env = true →
  data_survey_id d = Some n → n ≠ 0 → data_responses d ≠ [] →
  store_wf (interviews w) → isSyncing w = false →
  (count_status pending (idb_getAll (interviews w)) < 50)%nat →
  navigator_onLine env' = true → db_open w || indexedDB_open_ok env' = true →
  (0 < batchSize)%nat →
  let x := new_interview env suffix userAgent seed d in
  post_interview env' x = HttpResponse true (Some created) →
  post_responses env' created (responses x) = HttpResponse true b →
  ∃ w1 res w2,
    hook_saveOfflineInterview env suffix userAgent seed d w = (Resolved tt, w1)
    ∧ syncPendingData env' batchSize w1 = (Resolved res, w2)
    ∧ {| detail_id := Some (id x); detail_status := synced; detail_error := None |}
      ∈ details res
    ∧ interviews w2 !! id x = None.
Proof.
  intros Ho Hn Hn0 Hrs Hwf Hs Hshort Hon Ho' Hb x Hcreate Hpost.
  rewrite (hook_save_valid env suffix userAgent seed d w n) by done.
  set (w1 := idb_put x w).
  assert (store_wf (interviews w1)) as Hwf1 by (by apply store_wf_insert).
  destruct (syncPendingData_completes env' batchSize w1) as (w2 & Hrun & Hst & _);
    [done..|].
  assert (x ∈ drain_listing w1) as Hx.
  { unfold drain_listing. rewrite take_ge.
    - apply elem_of_idb_index_getAll. split; [|done].
      exists (id x). apply lookup_insert_eq.
    - change (count_status pending (idb_getAll (<[id x := x]> (interviews w))) ≤ 50)%nat.
      pose proof (count_status_insert_le pending (interviews w) (id x) x). lia. }
  assert (upload_ok env' x = true) as Hok by (apply upload_ok_iff; eauto).
  exists w1, (drain_result env' (drain_listing w1)), w2. split_and!; [done|done| |].
  - unfold drain_result. cbn [details]. apply list_elem_of_fmap.
    exists x. split; [|done]. unfold settle_detail. by rewrite Hok.
  - rewrite Hst, foldl_settle_member; [by rewrite Hok| |done].
    by apply pending_listing_NoDup.
Qed.

Lemma enqueue_then_drain_delivers_witness :
  let d := {| data_survey_id := Some 7; data_interviewer_id := "user-1";
              data_responses := sample_responses; data_location := None |} in
  let x := new_interview env_offline "1700000100000_k3j9x2m1a" "Mozilla/5.0" "lq3x9" d in
  ∃ w1 res w2,
    hook_saveOfflineInterview env_offline "1700000100000_k3j9x2m1a" "Mozilla/5.0" "lq3x9" d
      initial_world = (Resolved tt, w1)
    ∧ syncPendingData env_ok 10 w1 = (Resolved res, w2)
    ∧ {| detail_id := Some (id x); detail_status := synced; detail_error := None |}
      ∈ details res
    ∧ interviews w2 !! id x = None.
Proof.
  intros d x.
  apply (enqueue_then_drain_delivers env_offline env_ok 10 "1700000100000_k3j9x2m1a"
           "Mozilla/5.0" "lq3x9" d initial_world 7 42 (Some tt)).
  - reflexivity.
  - reflexivity.
  - discriminate.
  - discriminate.
  - apply store_wf_empty.
  - reflexivity.
  - vm_compute. lia.
  - reflexivity.
  - reflexivity.
  - lia.
  - reflexivity.
  - reflexivity.
Defined.

(** X12: on a storage manager whose database handle is set,
    [removeSyncedInterview] undoes a save under a new identifier: the store
    is back to what it was; and removing an identifier that the store does
    not hold resolves and changes no record. *)
Theorem remove_undoes_save env r w :
  db_open w = true →
  invalid_interview r = false →
  interviews w !! id r = None →
  (∃ w1 w2,
     saveOfflineInterview env r w = (Resolved tt, w1)
     ∧ removeSyncedInterview env (id r) w1 = (Resolved tt, w2)
     ∧ interviews w2 = interviews w)
  ∧ ∃ w', removeSyncedInterview env (id r) w = (Resolved tt, w')
          ∧ interviews w' = interviews w.
Proof.
  intros Ho Hv Hfresh. split.
  - rewrite saveOfflineInterview_valid by done.
    eexists. eexists. split; [done|].
    rewrite removeSyncedInterview_open by done. split; [done|]. simpl.
    rewrite delete_insert_eq. by apply delete_id.
  - rewrite removeSyncedInterview_open by done.
    eexists. split; [done|]. simpl. by apply delete_id.
Qed.

Lemma remove_undoes_save_witness :
  let r := sample_interview "offline_1" (Some 7) sample_responses pending 0 None in
  let w := world_of ∅ in
  (∃ w1 w2,
     saveOfflineInterview env_ok r w = (Resolved tt, w1)
     ∧ removeSyncedInterview env_ok (id r) w1 = (Resolved tt, w2)
     ∧ interviews w2 = interviews w)
  ∧ ∃ w', removeSyncedInterview env_ok (id r) w = (Resolved tt, w')
          ∧ interviews w' = interviews w.
Proof.
  intros r w. apply (remove_undoes_save env_ok r w); reflexivity.
Defined.

(** ** The first call on a new storage manager *)

(** X29: [initialize] starts the opening of the database but does not
    return its promise. On a storage manager whose handle is unset and that
    has no opening in flight (a new [OfflineStorageManager]), the first call
    of [getPendingInterviews], [getOfflineStats] (so of [getSyncStatus]),
    [updateSyncStatus], [removeSyncedInterview], [cleanOldData], or of
    [saveOfflineInterview] with a valid record, rejects with the
    [TypeError] of reading the [null] handle, whatever IndexedDB would
    answer; it changes no record and leaves the opening in flight. The same
    listing asked again waits for that opening and, when the database
    opens, resolves. *)
Theorem first_call_on_a_new_manager_rejects env w :
  db_open w = false → initPromise w = false →
  let e := JsError (TypeError_message env) in
  let w1 := set_initPromise true w in
  (∀ limit, getPendingInterviews env limit w = (Rejected e, w1))
  ∧ getOfflineStats env w = (Rejected e, w1)
  ∧ getSyncStatus env w = (Rejected e, w1)
  ∧ (∀ key status msg, updateSyncStatus env key status msg w = (Rejected e, w1))
  ∧ (∀ key, removeSyncedInterview env key w = (Rejected e, w1))
  ∧ cleanOldData env w = (Rejected e, w1)
  ∧ (∀ r, invalid_interview r = false → saveOfflineInterview env r w = (Rejected e, w1))
  ∧ (indexedDB_open_ok env = true →
     ∀ limit, getPendingInterviews env limit w1
              = (Resolved (take limit (idb_index_getAll pending (interviews w))),
                 opened w)).
Proof.
  intros Ho Hp.
  unfold getSyncStatus, getPendingInterviews, getOfflineStats, updateSyncStatus,
    removeSyncedInterview, cleanOldData, saveOfflineInterview, bind, initialize,
    transaction, opened.
  destruct w as [st o ip g t]. simpl in Ho, Hp. subst o ip. simpl.
  split_and!; try done.
  - intros r ->. done.
  - intros ->. done.
Qed.

Lemma first_call_on_a_new_manager_rejects_witness :
  let e := JsError (TypeError_message env_ok) in
  let w1 := set_initPromise true initial_world in
  (∀ limit, getPendingInterviews env_ok limit initial_world = (Rejected e, w1))
  ∧ getOfflineStats env_ok initial_world = (Rejected e, w1)
  ∧ getSyncStatus env_ok initial_world = (Rejected e, w1)
  ∧ (∀ key status msg, updateSyncStatus env_ok key status msg initial_world = (Rejected e, w1))
  ∧ (∀ key, removeSyncedInterview env_ok key initial_world = (Rejected e, w1))
  ∧ cleanOldData env_ok initial_world = (Rejected e, w1)
  ∧ (∀ r, invalid_interview r = false →
          saveOfflineInterview env_ok r initial_world = (Rejected e, w1))
  ∧ (indexedDB_open_ok env_ok = true →
     ∀ limit, getPendingInterviews env_ok limit w1
              = (Resolved (take limit (idb_index_getAll pending (interviews initial_world))),
                 opened initial_world)).
Proof.
  apply (first_call_on_a_new_manager_rejects env_ok initial_world); reflexivity.
Defined.

(** ** Timers of the [SyncManager] *)

Lemma filter_key_singleton {A K} `{EqDecision K} (f : A → K) (l : list A) (x : A) :
  NoDup (f <$> l) → x ∈ l → filter (fun y => f y = f x) l = [x].
Proof.
  induction l as [|y l IH]; intros Hnd Hin; [by apply elem_of_nil in Hin|].
  simpl in Hnd. apply NoDup_cons in Hnd as [Hy Hnd].
  apply elem_of_cons in Hin as [->|Hin].
  - rewrite filter_cons_True by done. f_equal.
    clear IH Hnd. induction l as [|z l IH]; [done|].
    simpl in Hy. apply not_elem_of_cons in Hy as [Hne Hy].
    rewrite filter_cons_False by done. by apply IH.
  - rewrite filter_cons_False; [by apply IH|].
    intros Heq. apply Hy. rewrite Heq. by apply list_elem_of_fmap_2.
Qed.

Section SchedulerFacts.
Import Scheduler.

Lemma inv_clearTimeout h st : scheduler_inv st → scheduler_inv (clearTimeout h st).
Proof.
  intros (Hn & Hh & Hnd & Hd & Hi & Hl). unfold scheduler_inv. simpl.
  split_and!; try done.
  - apply Forall_forall. intros t [_ Ht]%list_elem_of_filter.
    by apply (proj1 (Forall_forall _ _) Hh).
  - eapply sublist_NoDup; [exact Hnd|]. apply fmap_sublist, sublist_filter.
  - apply Forall_forall. intros t [_ Ht]%list_elem_of_filter.
    by apply (proj1 (Forall_forall _ _) Hd).
Qed.

Lemma inv_call st : scheduler_inv st → scheduler_inv (call_syncPendingData st).
Proof. done. Qed.

Lemma inv_set_syncInterval o st : scheduler_inv st → scheduler_inv (set_syncInterval o st).
Proof. done. Qed.

Lemma inv_requestIdleCallback c st :
  scheduler_inv st → scheduler_inv (requestIdleCallback c st).
Proof. done. Qed.

Lemma inv_set_timer k c d st :
  c ≠ DebouncedSync → scheduler_inv st → scheduler_inv (set_timer k c d st).2.
Proof.
  intros Hc (Hn & Hh & Hnd & Hd & Hi & Hl). unfold scheduler_inv. simpl.
  split_and!; try done.
  - lia.
  - apply Forall_app. split.
    + eapply Forall_impl; [exact Hh|]. simpl. intros t ?. lia.
    + apply Forall_singleton. simpl. lia.
  - rewrite fmap_app. apply NoDup_app. split_and!; [done| |apply NoDup_singleton].
    intros h (t & -> & Ht)%list_elem_of_fmap Hin. simpl in Hin.
    apply list_elem_of_singleton in Hin.
    pose proof (proj1 (Forall_forall _ _) Hh t Ht) as Hb. simpl in Hb. lia.
  - apply Forall_app. split; [done|]. by apply Forall_singleton.
Qed.

(** The listener of ['online'] leaves exactly one debounce timer, the one
    it has just set, and calls nothing. *)
Lemma run_OnlineListener onLine busy st :
  scheduler_inv st →
  scheduler_inv (run onLine busy OnlineListener st)
  ∧ sync_calls (run onLine busy OnlineListener st) = sync_calls st
  ∧ ∃ t, debounce_timers (run onLine busy OnlineListener st) = [t]
         ∧ debounceTimer (run onLine busy OnlineListener st) = Some (handle t)
         ∧ kind t = Timeout ∧ callback t = DebouncedSync ∧ delay t = 2000
         ∧ t ∈ timers (run onLine busy OnlineListener st).
Proof.
  intros Hinv. unfold run.
  set (st1 := match debounceTimer st with
              | Some h => if bool_decide (h = 0%nat) then st else clearTimeout h st
              | None => st
              end).
  assert (scheduler_inv st1 ∧ sync_calls st1 = sync_calls st
          ∧ debounce_timers st1 = []) as (Hinv1 & Hcalls & Hnone).
  { pose proof Hinv as (Hn & Hh & Hnd & Hd & Hi & Hl). subst st1.
    assert (∀ (P : Timer → Prop) `{∀ t, Decision (P t)} (l : list Timer),
              (∀ t, t ∈ l → ¬ P t) → filter P l = []) as Hempty.
    { intros P ? l. induction l as [|t l IH]; intros HP; [done|].
      rewrite filter_cons_False by (apply HP; by left).
      apply IH. intros t' Ht'. apply HP. by right. }
    destruct (debounceTimer st) as [h|] eqn:Hdeb.
    - case_bool_decide as Hz.
      + split_and!; [done|done|]. apply Hempty. intros t Ht Hcb.
        pose proof (proj1 (Forall_forall _ _) Hd t Ht Hcb) as Heq.
        pose proof (proj1 (Forall_forall _ _) Hh t Ht) as Hb. simpl in Hb, Heq.
        simplify_eq. lia.
      + split_and!; [by apply inv_clearTimeout|done|].
        unfold debounce_timers. simpl. apply Hempty.
        intros t [Hne Ht]%list_elem_of_filter Hcb.
        pose proof (proj1 (Forall_forall _ _) Hd t Ht Hcb) as Heq. by simplify_eq.
    - split_and!; [done|done|]. apply Hempty. intros t Ht Hcb.
      by pose proof (proj1 (Forall_forall _ _) Hd t Ht Hcb). }
  destruct Hinv1 as (Hn & Hh & Hnd & Hd & Hi & Hl).
  assert (∀ t, t ∈ timers st1 → callback t ≠ DebouncedSync) as Hnot.
  { intros t Ht Hcb. unfold debounce_timers in Hnone.
    eapply (filter_nil_not_elem_of _ _ t Hnone); done. }
  simpl. split_and!.
  - unfold scheduler_inv. simpl. split_and!; try done.
    + lia.
    + apply Forall_app. split.
      * eapply Forall_impl; [exact Hh|]. simpl. intros t ?. lia.
      * apply Forall_singleton. simpl. lia.
    + rewrite fmap_app. apply NoDup_app. split_and!; [done| |apply NoDup_singleton].
      intros h (t & -> & Ht)%list_elem_of_fmap Hin. simpl in Hin.
      apply list_elem_of_singleton in Hin.
      pose proof (proj1 (Forall_forall _ _) Hh t Ht) as Hb. simpl in Hb. lia.
    + apply Forall_app. split; [|by apply Forall_singleton].
      apply Forall_forall. intros t Ht Hcb. by destruct (Hnot t Ht).
  - done.
  - eexists. unfold debounce_timers. simpl. rewrite filter_app.
    unfold debounce_timers in Hnone. rewrite Hnone. simpl.
    rewrite filter_cons_True by done. rewrite filter_nil.
    split_and!; try done. apply elem_of_app. right. by left.
Qed.

Lemma inv_scheduleSync st : scheduler_inv st → scheduler_inv (scheduleSync st).
Proof.
  intros Hinv. unfold scheduleSync. destruct (has_requestIdleCallback st).
  - by apply inv_requestIdleCallback.
  - apply inv_set_syncInterval. by apply (inv_set_timer Interval IntervalTick).
Qed.

Lemma inv_run onLine busy c st : scheduler_inv st → scheduler_inv (run onLine busy c st).
Proof.
  intros Hinv. destruct c.
  - by apply run_OnlineListener.
  - by apply inv_call.
  - by apply inv_scheduleSync.
  - unfold run. apply inv_set_syncInterval.
    apply (inv_set_timer Timeout ScheduleSync); [done|].
    destruct (onLine && negb busy); [by apply inv_call|done].
  - unfold run. destruct (onLine && negb busy); [by apply inv_call|done].
  - by apply inv_call.
Qed.

Lemma online_listener_alone st :
  scheduler_inv st → ∃ f, online_listeners st = [f] ∧ code f = OnlineListener.
Proof.
  intros (_ & _ & _ & _ & _ & Hl).
  destruct (online_listeners st) as [|f [|g l]]; simpl in Hl; simplify_eq.
  by exists f.
Qed.

Lemma step_OnlineEvent onLine busy st :
  scheduler_inv st →
  step onLine busy OnlineEvent st = run onLine busy OnlineListener st.
Proof.
  intros (f & Hf & Hc)%online_listener_alone. simpl. rewrite Hf. simpl. by rewrite Hc.
Qed.

Lemma inv_step onLine busy t st :
  scheduler_inv st → scheduler_inv (step onLine busy t st).
Proof.
  intros Hinv. destruct t as [|h|].
  - rewrite step_OnlineEvent by done. by apply inv_run.
  - simpl. destruct (filter _ _) as [|t l]; [done|].
    apply inv_run. destruct (kind t); [by apply inv_clearTimeout|done].
  - simpl. destruct (idle_requests st) as [|c rest]; [done|]. by apply inv_run.
Qed.

Lemma inv_stop st : scheduler_inv st → scheduler_inv (stop st).
Proof.
  intros Hinv. unfold stop.
  set (st1 := match syncInterval st with
              | Some h => set_syncInterval None (clearTimeout h st)
              | None => st
              end).
  assert (scheduler_inv st1) as Hinv1.
  { subst st1. destruct (syncInterval st); [|done].
    by apply inv_set_syncInterval, inv_clearTimeout. }
  set (st2 := match debounceTimer st1 with
              | Some h => if bool_decide (h = 0%nat) then st1
                          else set_debounceTimer None (clearTimeout h st1)
              | None => st1
              end).
  assert (scheduler_inv st2) as (Hn & Hh & Hnd & Hd & Hi & Hl).
  { subst st2. destruct (debounceTimer st1) as [h|] eqn:Hdeb; [|done].
    case_bool_decide; [done|].
    destruct Hinv1 as (Hn & Hh & Hnd & Hd & Hi & Hl).
    unfold scheduler_inv. simpl. split_and!; try done.
    - apply Forall_forall. intros t [_ Ht]%list_elem_of_filter.
      by apply (proj1 (Forall_forall _ _) Hh).
    - eapply sublist_NoDup; [exact Hnd|]. apply fmap_sublist, sublist_filter.
    - apply Forall_forall. intros t [Hne Ht]%list_elem_of_filter Hcb.
      pose proof (proj1 (Forall_forall _ _) Hd t Ht Hcb). by simplify_eq. }
  unfold scheduler_inv. simpl. rewrite (filter_older_idents _ _ Hi).
  split_and!; try done.
  eapply Forall_impl; [exact Hi|]. simpl. intros f ?. lia.
Qed.

Lemma inv_new idle : scheduler_inv (new_SyncManager idle).
Proof.
  destruct idle; unfold scheduler_inv; simpl; split_and!;
    repeat constructor; simpl; try lia; try done.
  all: by apply not_elem_of_nil.
Qed.

Lemma inv_history idle (ops : list SchedulerOp) :
  scheduler_inv (foldl scheduler_apply (new_SyncManager idle) ops).
Proof.
  induction ops as [|op ops IH] using rev_ind; [apply inv_new|].
  rewrite foldl_app. simpl. destruct op; [by apply inv_step|by apply inv_stop].
Qed.

End SchedulerFacts.

(** X13: debouncing. Whatever happened to a [SyncManager] since its
    construction (events, timers, idle periods, calls of [stop]), an
    ['online'] event calls nothing by itself and leaves exactly one debounce
    timer armed, of 2000 ms, cancelling the one a previous event had armed;
    when that timer comes due, [syncPendingData] is called once. *)
Theorem online_events_collapse_into_one_timer
    (idle : bool) (ops : list SchedulerOp) (onLine busy onLine' busy' : bool) :
  let st := foldl scheduler_apply (Scheduler.new_SyncManager idle) ops in
  let st' := Scheduler.step onLine busy Scheduler.OnlineEvent st in
  Scheduler.sync_calls st' = Scheduler.sync_calls st
  ∧ ∃ t,
      debounce_timers st' = [t]
      ∧ Scheduler.debounceTimer st' = Some (Scheduler.handle t)
      ∧ Scheduler.delay t = 2000
      ∧ Scheduler.sync_calls
          (Scheduler.step onLine' busy' (Scheduler.TimerFires (Scheduler.handle t)) st')
        = S (Scheduler.sync_calls st)
      ∧ debounce_timers
          (Scheduler.step onLine' busy' (Scheduler.TimerFires (Scheduler.handle t)) st')
        = [].
Proof.
  intros st st'. pose proof (inv_history idle ops) as Hinv. fold st in Hinv.
  subst st'. rewrite step_OnlineEvent by done.
  destruct (run_OnlineListener onLine busy st Hinv)
    as (Hinv' & Hcalls & t & Hdeb & Hptr & Hkind & Hcb & Hdelay & Ht).
  split; [done|]. exists t.
  remember (Scheduler.run onLine busy Scheduler.OnlineListener st) as st' eqn:Hst'.
  clear Hst'. destruct Hinv' as (_ & _ & Hnd & _).
  split_and!; [done|done|done| |].
  - simpl. rewrite (filter_key_singleton Scheduler.handle _ t Hnd Ht).
    rewrite Hkind, Hcb. simpl. by rewrite Hcalls.
  - simpl. rewrite (filter_key_singleton Scheduler.handle _ t Hnd Ht).
    rewrite Hkind, Hcb. unfold debounce_timers in *. simpl.
    match goal with |- ?lhs = [] => destruct lhs as [|t' l] eqn:Hleft end;
      [done|exfalso].
    assert (t' ∈ t' :: l) as Hin by (by left).
    rewrite <- Hleft in Hin.
    apply list_elem_of_filter in Hin as [Hcb' [Hne Hin]%list_elem_of_filter].
    assert (t' ∈ [t]) as Hsame
      by (rewrite <- Hdeb; apply list_elem_of_filter; by split).
    apply list_elem_of_singleton in Hsame. by subst t'.
Qed.

Section PlainTimers.
Import Scheduler.

Lemma plain_clearTimeout h st :
  plain_timers_inv st → plain_timers_inv (clearTimeout h st).
Proof.
  intros (Hidle & Hreq & Ht). unfold plain_timers_inv. simpl. split_and!; try done.
  apply Forall_forall. intros t [_ Hin]%list_elem_of_filter.
  by apply (proj1 (Forall_forall _ _) Ht).
Qed.

Lemma plain_run onLine busy c st :
  c = OnlineListener ∨ c = DebouncedSync ∨ c = IntervalTick →
  scheduler_inv st → plain_timers_inv st →
  plain_timers_inv (run onLine busy c st).
Proof.
  intros Hc Hinv Hplain. destruct Hc as [-> | [-> | ->]].
  - pose proof Hplain as (Hidle & Hreq & Ht).
    pose proof Hinv as (_ & Hh & _).
    unfold run.
    set (st1 := match debounceTimer st with
                | Some h => if bool_decide (h = 0%nat) then st else clearTimeout h st
                | None => st
                end).
    assert (has_requestIdleCallback st1 = false ∧ idle_requests st1 = []
            ∧ Forall (fun t => callback t = IntervalTick
                               ∧ syncInterval st1 = Some (handle t)) (timers st1))
      as (Hidle1 & Hreq1 & Ht1).
    { subst st1. destruct (debounceTimer st) as [h|] eqn:Hdeb.
      - case_bool_decide as Hz.
        + split_and!; [done|done|]. apply Forall_forall. intros t Hin.
          destruct (proj1 (Forall_forall _ _) Ht t Hin) as [?|[_ Heq]]; [done|].
          pose proof (proj1 (Forall_forall _ _) Hh t Hin) as Hb. simpl in Hb.
          simplify_eq. lia.
        + split_and!; [done|done|]. simpl. apply Forall_forall.
          intros t [Hne Hin]%list_elem_of_filter.
          destruct (proj1 (Forall_forall _ _) Ht t Hin) as [?|[_ Heq]]; [done|].
          by simplify_eq.
      - split_and!; [done|done|]. apply Forall_forall. intros t Hin.
        by destruct (proj1 (Forall_forall _ _) Ht t Hin) as [?|[_ ?]]. }
    unfold plain_timers_inv. simpl. split_and!; try done.
    apply Forall_app. split.
    + eapply Forall_impl; [exact Ht1|]. simpl. intros t ?. by left.
    + apply Forall_singleton. by right.
  - done.
  - unfold run. by destruct (onLine && negb busy).
Qed.

Lemma plain_step onLine busy t st :
  scheduler_inv st → plain_timers_inv st →
  plain_timers_inv (step onLine busy t st).
Proof.
  intros Hinv Hplain. destruct t as [|h|].
  - rewrite step_OnlineEvent by done. apply plain_run; auto.
  - simpl. destruct (filter _ _) as [|t l] eqn:Hf; [done|].
    assert (t ∈ timers st) as Hin.
    { assert (t ∈ filter (fun t0 => handle t0 = h) (timers st)) as Hin
        by (rewrite Hf; by left).
      by apply list_elem_of_filter in Hin as [_ ?]. }
    destruct Hplain as (Hidle & Hreq & Ht).
    pose proof (proj1 (Forall_forall _ _) Ht t Hin) as Hcb.
    apply plain_run.
    + destruct Hcb as [[-> _]|[-> _]]; auto.
    + destruct (kind t); [by apply inv_clearTimeout|done].
    + destruct (kind t); [by apply plain_clearTimeout|done].
  - simpl. destruct Hplain as (Hidle & Hreq & Ht). by rewrite Hreq.
Qed.

Lemma stop_clears_plain_timers st :
  scheduler_inv st → plain_timers_inv st →
  timers (stop st) = [] ∧ idle_requests (stop st) = [].
Proof.
  intros Hinv (Hidle & Hreq & Ht). pose proof Hinv as (_ & Hh & _).
  assert (∀ (P : Timer → Prop) `{∀ t, Decision (P t)} (l : list Timer),
            (∀ t, t ∈ l → ¬ P t) → filter P l = []) as Hempty.
  { intros P ? l. induction l as [|t l IH]; intros HP; [done|].
    rewrite filter_cons_False by (apply HP; by left).
    apply IH. intros t' Ht'. apply HP. by right. }
  unfold stop.
  set (st1 := match syncInterval st with
              | Some h => set_syncInterval None (clearTimeout h st)
              | None => st
              end).
  assert (debounceTimer st1 = debounceTimer st ∧ idle_requests st1 = []
          ∧ Forall (fun t => debounceTimer st = Some (handle t) ∧ (1 ≤ handle t)%nat)
                   (timers st1))
    as (Hdeb & Hreq1 & Ht1).
  { subst st1. destruct (syncInterval st) as [h|] eqn:Hsi; simpl.
    - split_and!; try done. apply Forall_forall.
      intros t [Hne Hin]%list_elem_of_filter.
      pose proof (proj1 (Forall_forall _ _) Hh t Hin) as Hb. simpl in Hb.
      destruct (proj1 (Forall_forall _ _) Ht t Hin) as [[_ Heq]|[? ?]].
      + by simplify_eq.
      + split; [done|lia].
    - split_and!; try done. apply Forall_forall. intros t Hin.
      pose proof (proj1 (Forall_forall _ _) Hh t Hin) as Hb. simpl in Hb.
      destruct (proj1 (Forall_forall _ _) Ht t Hin) as [[_ Heq]|[? ?]].
      + by simplify_eq.
      + split; [done|lia]. }
  set (st2 := match debounceTimer st1 with
              | Some h => if bool_decide (h = 0%nat) then st1
                          else set_debounceTimer None (clearTimeout h st1)
              | None => st1
              end).
  assert (timers st2 = [] ∧ idle_requests st2 = []) as (Htim & Hreq2).
  { subst st2. rewrite Hdeb. destruct (debounceTimer st) as [h|] eqn:Hd.
    - case_bool_decide as Hz.
      + split; [|done]. destruct (timers st1) as [|t l] eqn:Hl; [done|].
        apply Forall_cons in Ht1 as [(Heq & Hpos) _]. simplify_eq. lia.
      + simpl. split; [|done]. apply Hempty. intros t Hin Hne.
        destruct (proj1 (Forall_forall _ _) Ht1 t Hin) as (Heq & _).
        by simplify_eq.
    - split; [|done].
      destruct (timers st1) as [|t l] eqn:Hl; [done|].
      by apply Forall_cons in Ht1 as [(? & _) _]. }
  simpl. by rewrite Htim, Hreq2.
Qed.

Lemma plain_stop st :
  scheduler_inv st → plain_timers_inv st → plain_timers_inv (stop st).
Proof.
  intros Hinv Hplain.
  destruct (stop_clears_plain_timers st Hinv Hplain) as [Htim Hreq].
  unfold plain_timers_inv. rewrite Htim, Hreq. split_and!; [|done|done].
  destruct Hplain as (Hidle & _). unfold stop.
  destruct (syncInterval st); simpl; repeat case_match; simpl; done.
Qed.

Lemma plain_new : plain_timers_inv (new_SyncManager false).
Proof.
  unfold plain_timers_inv. simpl. split_and!; [done|done|].
  apply Forall_singleton. by left.
Qed.

Lemma plain_history (ops : list SchedulerOp) :
  plain_timers_inv (foldl scheduler_apply (new_SyncManager false) ops).
Proof.
  induction ops as [|op ops IH] using rev_ind; [apply plain_new|].
  rewrite foldl_app. simpl. pose proof (inv_history false ops) as Hinv.
  destruct op; [by apply plain_step|by apply plain_stop].
Qed.

End PlainTimers.

(** X14: in a browser without [requestIdleCallback], [stop()] cancels
    every live timer, whatever happened before: afterwards no timer and no
    idle period runs anything, until an ['online'] event arms the debounce
    timer again. *)
Theorem stop_cancels_timers_without_idle_callback
    (ops : list SchedulerOp) (onLine busy : bool) :
  let stopped :=
    Scheduler.stop (foldl scheduler_apply (Scheduler.new_SyncManager false) ops) in
  Scheduler.timers stopped = []
  ∧ (∀ h, Scheduler.step onLine busy (Scheduler.TimerFires h) stopped = stopped)
  ∧ Scheduler.step onLine busy Scheduler.IdlePeriod stopped = stopped.
Proof.
  intros stopped.
  destruct (stop_clears_plain_timers _ (inv_history false ops) (plain_history ops))
    as [Htim Hreq].
  fold stopped in Htim, Hreq. clearbody stopped. split_and!; [done| |].
  - intros h. simpl. by rewrite Htim.
  - simpl. by rewrite Hreq.
Qed.

(** ** The survey cache *)

Section CacheFacts.
Import SurveyCache.

Lemma foldl_put_question_lookup (l : list Question) (m : gmap Z Question) k q :
  NoDup (question_key <$> l) →
  foldl (fun m question => <[question_key question := question]> m) m l !! k = Some q
  ↔ q ∈ l ∧ question_key q = k
    ∨ (k ∉ question_key <$> l) ∧ m !! k = Some q.
Proof.
  revert m. induction l as [|x l IH]; intros m Hnd.
  - simpl. split; [intros ?; right; split; [apply not_elem_of_nil|done]|].
    intros [[H _]|[_ ?]]; [by apply elem_of_nil in H|done].
  - simpl in Hnd. apply NoDup_cons in Hnd as [Hx Hnd]. simpl.
    rewrite (IH _ Hnd). split.
    + intros [[Hq Hk]|[Hk Hm]]; [left; split; [by right|done]|].
      destruct (decide (question_key x = k)) as [<-|Hne].
      * rewrite lookup_insert_eq in Hm. simplify_eq. left. split; [by left|done].
      * rewrite lookup_insert_ne in Hm by done. right. split; [|done].
        by apply not_elem_of_cons.
    + intros [[[->|Hq]%elem_of_cons Hk]|[Hk Hm]].
      * right. subst k. split; [done|]. by rewrite lookup_insert_eq.
      * by left.
      * apply not_elem_of_cons in Hk as [Hne Hk]. right. split; [done|].
        by rewrite lookup_insert_ne.
Qed.

Lemma elem_of_questions_of surveyId (m : gmap Z Question) q :
  q ∈ questions_of surveyId m
  ↔ question_survey_id q = surveyId ∧ ∃ k, m !! k = Some q.
Proof.
  unfold questions_of. rewrite list_elem_of_filter, merge_sort_Permutation.
  rewrite list_elem_of_fmap. split.
  - intros [Hs [[k q'] [-> Hin%elem_of_map_to_list]]]. split; [done|]. by exists k.
  - intros [Hs [k Hk]]. split; [done|]. exists (k, q). split; [done|].
    by apply elem_of_map_to_list.
Qed.

(** X15: on a storage manager whose database handle is set, caching a
    survey with its questions and reading it back gives that survey, with
    every question the store has under its identifier: the questions just
    cached for it and, besides, those an earlier call had cached for it
    under other keys, which [cacheSurvey] never removes. A survey that is
    not cached reads as [null]. *)
Theorem cached_survey_round_trip env survey questions st :
  db_open (manager st) = true →
  NoDup (question_key <$> questions) →
  ∃ st1 st2 qs,
    cacheSurvey env survey questions st = (Resolved tt, st1)
    ∧ getCachedSurvey env (survey_key survey) st1 = (Resolved (Some (survey, qs)), st2)
    ∧ (∀ q, q ∈ qs ↔
            question_survey_id q = survey_key survey
            ∧ (q ∈ questions
               ∨ ∃ k, (k ∉ question_key <$> questions)
                      ∧ survey_questions st !! k = Some q))
    ∧ (∀ other, other ≠ survey_key survey → surveys st !! other = None →
                (getCachedSurvey env other st1).1 = Resolved None).
Proof.
  intros Ho Hnd.
  assert (∀ st0, db_open (manager st0) = true →
                 ensure_open env st0 = (Resolved tt, st0)
                 ∧ liftM (transaction env) st0 = (Resolved tt, st0)) as Hopened.
  { intros [w s q] Hdb. unfold ensure_open, liftM, ret, transaction. simpl in *.
    by rewrite Hdb. }
  unfold cacheSurvey, bind. rewrite (proj1 (Hopened st Ho)), Ho.
  set (st1 := {| manager := manager st;
                 surveys := <[survey_key survey := survey]> (surveys st);
                 survey_questions :=
                   foldl (fun m question => <[question_key question := question]> m)
                         (survey_questions st) questions |}).
  destruct (Hopened st1 Ho) as [Hensure Htrans].
  exists st1. eexists. eexists. split; [done|].
  unfold getCachedSurvey, bind. rewrite Hensure, Htrans. simpl.
  rewrite lookup_insert_eq. split; [done|]. split.
  - intros q. rewrite elem_of_questions_of. split.
    + intros [Hs [k Hk]]. split; [done|].
      apply foldl_put_question_lookup in Hk as [[? _]|[? ?]]; [by left|right|done].
      by exists k.
    + intros [Hs [Hq|(k & Hk & Hm)]]; (split; [done|]).
      * exists (question_key q). apply foldl_put_question_lookup; [done|]. by left.
      * exists k. apply foldl_put_question_lookup; [done|]. by right.
  - intros other Hne Hnone. by rewrite lookup_insert_ne, Hnone.
Qed.

Lemma cached_survey_round_trip_witness :
  let survey := {| survey_key := 7; survey_data := "Pesquisa Presidencial" |} in
  let q1 := {| question_key := 1; question_survey_id := 7; question_data := "Voto" |} in
  let q2 := {| question_key := 2; question_survey_id := 7; question_data := "Idade" |} in
  let st := {| manager := world_of ∅; surveys := ∅; survey_questions := {[ 2 := q2 ]} |} in
  ∃ st1 st2 qs,
    cacheSurvey env_ok survey [q1] st = (Resolved tt, st1)
    ∧ getCachedSurvey env_ok 7 st1 = (Resolved (Some (survey, qs)), st2)
    ∧ (∀ q, q ∈ qs ↔
            question_survey_id q = 7
            ∧ (q ∈ [q1]
               ∨ ∃ k, (k ∉ question_key <$> [q1])
                      ∧ survey_questions st !! k = Some q))
    ∧ (∀ other, other ≠ 7 → surveys st !! other = None →
                (getCachedSurvey env_ok other st1).1 = Resolved None).
Proof.
  intros survey q1 q2 st.
  apply (cached_survey_round_trip env_ok survey [q1] st); [reflexivity|].
  repeat constructor. apply not_elem_of_nil.
Defined.

End CacheFacts.

(** ** Sessions *)

Section AuthFacts.
Import Auth.

Lemma filter_token_absent tok (sessions : list SessionRow) :
  tok ∉ row_token <$> sessions → filter (fun r => row_token r = tok) sessions = [].
Proof.
  induction sessions as [|r l IH]; intros Hk; [done|].
  simpl in Hk. apply not_elem_of_cons in Hk as [Hne Hk].
  rewrite filter_cons_False by done. by apply IH.
Qed.

Lemma deleteSession_no_row tok (sessions : list SessionRow) :
  tok ∉ row_token <$> deleteSession tok sessions.
Proof.
  intros (r & -> & [Hne _]%list_elem_of_filter)%list_elem_of_fmap. done.
Qed.

Lemma getSession_no_row now tok (sessions : list SessionRow) :
  tok ∉ row_token <$> sessions → getSession now tok sessions = (None, sessions).
Proof. intros H. unfold getSession. by rewrite filter_token_absent. Qed.

Lemma deleteSession_other tok tok' (sessions : list SessionRow) :
  tok' ≠ tok →
  filter (fun r => row_token r = tok') (deleteSession tok sessions)
  = filter (fun r => row_token r = tok') sessions.
Proof.
  intros Hne. unfold deleteSession. induction sessions as [|r l IH]; [done|].
  rewrite !filter_cons. repeat case_decide; simplify_eq; try done.
  - by rewrite filter_cons_True, IH by done.
  - by rewrite filter_cons_False by done.
Qed.

(** X16: a session just created under a new token is found by
    [getSession] up to and including the instant it expires, sixty days
    (5,184,000,000 ms) after its creation, with the user's data; the lookup
    changes no row. *)
Theorem created_session_is_found uuid now now' user_id user_email user_name sessions :
  uuid ∉ row_token <$> sessions →
  (now' ≤ now + 5184000000)%Z →
  ∃ sessions',
    createSession uuid now user_id user_email user_name sessions = (uuid, sessions')
    ∧ getSession now' uuid sessions'
      = (Some {| userId := user_id; email := user_email; name := user_name;
                 expiresAt := now + 5184000000 |}, sessions').
Proof.
  intros Hfresh Hlive. eexists. split; [done|].
  unfold getSession. rewrite filter_app, filter_token_absent by done.
  rewrite filter_cons_True by done. simpl.
  rewrite bool_decide_eq_false_2; [done|]. unfold sixty_days_ms. lia.
Qed.

Lemma created_session_is_found_witness :
  ∃ sessions',
    createSession "0b9f" 1000 "u1" "ana@example.com" "Ana" [] = ("0b9f", sessions')
    ∧ getSession (1000 + 5184000000) "0b9f" sessions'
      = (Some {| userId := "u1"; email := "ana@example.com"; name := "Ana";
                 expiresAt := 1000 + 5184000000 |}, sessions').
Proof.
  apply (created_session_is_found "0b9f" 1000 (1000 + 5184000000) "u1"
           "ana@example.com" "Ana" []).
  - apply not_elem_of_nil.
  - lia.
Defined.

(** X17: looking up a session whose row has expired answers [null] and
    deletes every row of that token, so the token is dead from then on,
    whatever the clock; the sessions of other tokens are found as before. *)
Theorem expired_session_is_purged now tok sessions row :
  NoDup (row_token <$> sessions) →
  row ∈ sessions → row_token row = tok →
  row_expires_at row < now →
  ∃ sessions',
    getSession now tok sessions = (None, sessions')
    ∧ (tok ∉ row_token <$> sessions')
    ∧ (∀ now', getSession now' tok sessions' = (None, sessions'))
    ∧ (∀ now' tok', tok' ≠ tok →
         (getSession now' tok' sessions').1 = (getSession now' tok' sessions).1).
Proof.
  intros Hnd Hin Htok Hexp. exists (deleteSession tok sessions).
  unfold getSession at 1. subst tok.
  rewrite (filter_key_singleton row_token sessions row Hnd Hin). simpl.
  rewrite bool_decide_eq_true_2 by done. split_and!; [done| | |].
  - apply deleteSession_no_row.
  - intros now'. apply getSession_no_row, deleteSession_no_row.
  - intros now' tok' Hne. unfold getSession.
    rewrite deleteSession_other by done.
    destruct (head _) as [r|]; [|done]. by case_bool_decide.
Qed.

Lemma expired_session_is_purged_witness :
  let row := {| row_token := "0b9f"; row_user_id := "u1"; row_email := "ana@example.com";
                row_user_name := "Ana"; row_expires_at := 5000 |} in
  ∃ sessions',
    getSession 5001 "0b9f" [row] = (None, sessions')
    ∧ ("0b9f" ∉ row_token <$> sessions')
    ∧ (∀ now', getSession now' "0b9f" sessions' = (None, sessions'))
    ∧ (∀ now' tok', tok' ≠ "0b9f" →
         (getSession now' tok' sessions').1 = (getSession now' tok' [row]).1).
Proof.
  intros row. apply (expired_session_is_purged 5001 "0b9f" [row] row).
  - repeat constructor. apply not_elem_of_nil.
  - by left.
  - reflexivity.
  - simpl. lia.
Defined.

(** X18: [authMiddleware] lets a request through only when its cookie names
    a row of the table that has not expired; it then sets [user] from that
    row and writes nothing. Every other request is answered 401, without
    [user] being set: ['Unauthorized'] when the cookie is missing or empty,
    ['Invalid session'] (and the cookie cleared with [maxAge] 0) when the
    token has no row or an expired one. *)
Theorem authMiddleware_lets_only_live_sessions_through now c :
  match authMiddleware now c with
  | (CallNext, c') =>
      ∃ tok row,
        cookie c = Some tok ∧ tok ≠ ""
        ∧ row ∈ DB c ∧ row_token row = tok ∧ (now ≤ row_expires_at row)%Z
        ∧ user c' = Some (row_user_id row, row_email row, row_user_name row)
        ∧ DB c' = DB c ∧ set_cookie c' = set_cookie c
  | (Json status body, c') =>
      status = 401 ∧ user c' = user c
      ∧ (body = "Unauthorized" ∧ (cookie c = None ∨ cookie c = Some "") ∧ c' = c
         ∨ body = "Invalid session" ∧ set_cookie c' = Some ("", 0)
           ∧ ∃ tok, cookie c = Some tok ∧ tok ∉ row_token <$> DB c')
  | (Throws _, _) => False
  end.
Proof.
  unfold authMiddleware. destruct (cookie c) as [tok|] eqn:Hcookie.
  - case_bool_decide as Hempty.
    + subst. split_and!; try done. left. auto.
    + unfold getSession.
      destruct (head (filter (fun r => row_token r = tok) (DB c))) as [row|] eqn:Hhead.
      * apply head_Some_elem_of in Hhead as Hin.
        apply list_elem_of_filter in Hin as [Htok Hin].
        case_bool_decide as Hexp.
        -- split_and!; try done. right. split_and!; try done.
           exists tok. split; [done|]. simpl. apply deleteSession_no_row.
        -- exists tok, row. simpl. split_and!; try done. lia.
      * split_and!; try done. right. split_and!; try done.
        exists tok. split; [done|]. simpl.
        intros (r & Hr & Hin)%list_elem_of_fmap.
        assert (r ∈ filter (fun r => row_token r = tok) (DB c)) as Hf
          by (apply list_elem_of_filter; by split).
        destruct (filter _ _); [by apply elem_of_nil in Hf|done].
  - split_and!; try done. left. auto.
Qed.

(** X19: the login flow. [POST /api/sessions] with the mock code opens a
    session under the new token and writes it in the cookie for sixty days
    (5,184,000 s); a request with that cookie passes [authMiddleware] as the
    mock user while the session lasts; after [GET /api/logout] with that
    cookie, the cookie is cleared and the token is refused for good. *)
Theorem login_then_logout uuid now now' now'' c :
  uuid ∉ row_token <$> DB c → uuid ≠ "" →
  (now' ≤ now + 5184000000)%Z →
  ∃ c1 c2 c3,
    post_sessions uuid now (Some "mock_oauth_code_123") c = (Json 200 "success", c1)
    ∧ set_cookie c1 = Some (uuid, 5184000)
    ∧ authMiddleware now'
        {| cookie := Some uuid; set_cookie := None; user := None; DB := DB c1 |}
      = (CallNext, c2)
    ∧ user c2 = Some ("mock_user_id_123", "mock.user@example.com", "Mock User")
    ∧ get_logout {| cookie := Some uuid; set_cookie := None; user := None; DB := DB c2 |}
      = (Json 200 "success", c3)
    ∧ set_cookie c3 = Some ("", 0)
    ∧ (authMiddleware now''
         {| cookie := Some uuid; set_cookie := None; user := None; DB := DB c3 |}).1
      = Json 401 "Invalid session".
Proof.
  intros Hfresh Hne Hlive.
  destruct (created_session_is_found uuid now now' "mock_user_id_123"
              "mock.user@example.com" "Mock User" (DB c) Hfresh Hlive)
    as (sessions' & Hcreate & Hget).
  unfold createSession in Hcreate. injection Hcreate as <-.
  eexists. eexists. eexists. split.
  { unfold post_sessions, exchangeCodeForSessionToken, createSession. simpl.
    reflexivity. }
  cbn [set_cookie DB]. split; [done|]. split.
  { unfold authMiddleware. cbn [cookie DB set_cookie user].
    rewrite bool_decide_eq_false_2 by done. rewrite Hget. reflexivity. }
  cbn [user userId email name DB]. split; [done|]. split.
  { unfold get_logout. cbn [cookie DB set_cookie user]. reflexivity. }
  cbn [set_cookie DB]. split; [done|].
  unfold authMiddleware. cbn [cookie DB set_cookie user].
  rewrite bool_decide_eq_false_2 by done.
  by rewrite getSession_no_row by apply deleteSession_no_row.
Qed.

Lemma login_then_logout_witness :
  let c := {| cookie := None; set_cookie := None; user := None; DB := [] |} in
  ∃ c1 c2 c3,
    post_sessions "0b9f" 1000 (Some "mock_oauth_code_123") c = (Json 200 "success", c1)
    ∧ set_cookie c1 = Some ("0b9f", 5184000)
    ∧ authMiddleware 2000
        {| cookie := Some "0b9f"; set_cookie := None; user := None; DB := DB c1 |}
      = (CallNext, c2)
    ∧ user c2 = Some ("mock_user_id_123", "mock.user@example.com", "Mock User")
    ∧ get_logout {| cookie := Some "0b9f"; set_cookie := None; user := None;
                    DB := DB c2 |}
      = (Json 200 "success", c3)
    ∧ set_cookie c3 = Some ("", 0)
    ∧ (authMiddleware 3000
         {| cookie := Some "0b9f"; set_cookie := None; user := None; DB := DB c3 |}).1
      = Json 401 "Invalid session".
Proof.
  intros c. apply (login_then_logout "0b9f" 1000 2000 3000 c).
  - apply not_elem_of_nil.
  - discriminate.
  - lia.
Defined.

(** X20: [POST /api/sessions] opens a session for the mock code only: with
    no code, or an empty one, it answers 400, and with any other code the
    exchange throws; in both cases no row is added and no cookie written. *)
Theorem only_the_mock_code_opens_a_session uuid now code c :
  code ≠ Some "mock_oauth_code_123" →
  ∃ reply c',
    post_sessions uuid now code c = (reply, c')
    ∧ DB c' = DB c ∧ set_cookie c' = set_cookie c
    ∧ (reply = Json 400 "No authorization code provided"
       ∧ (code = None ∨ code = Some "")
       ∨ reply = Throws "Invalid OAuth code").
Proof.
  intros Hcode. unfold post_sessions, exchangeCodeForSessionToken.
  destruct code as [code|]; [|eexists; eexists; split_and!; eauto].
  case_bool_decide as Hempty; [subst; eexists; eexists; split_and!; eauto|].
  rewrite bool_decide_eq_false_2 by congruence.
  eexists. eexists. split_and!; eauto.
Qed.

Lemma only_the_mock_code_opens_a_session_witness :
  let c := {| cookie := None; set_cookie := None; user := None; DB := [] |} in
  ∃ reply c',
    post_sessions "0b9f" 1000 (Some "stolen_code") c = (reply, c')
    ∧ DB c' = DB c ∧ set_cookie c' = set_cookie c
    ∧ (reply = Json 400 "No authorization code provided"
       ∧ (Some "stolen_code" = None ∨ Some "stolen_code" = Some "")
       ∨ reply = Throws "Invalid OAuth code").
Proof.
  intros c. apply (only_the_mock_code_opens_a_session "0b9f" 1000 (Some "stolen_code") c).
  discriminate.
Defined.

End AuthFacts.

(* ------------------------------------------------------------------ *)
(** ** Randomised option order *)

Section RandomizerFacts.
Import Randomizer.
Local Open Scope list_scope.

Lemma get_set_index {A} (a : JsArray A) (i k : Z) (v : option A) :
  get_index (set_index a i v) k = if decide (k = i) then v else get_index a k.
Proof.
  unfold get_index, set_index.
  destruct (Z.leb_spec 0 i) as [Hi|Hi].
  - destruct (Z.leb_spec 0 k) as [Hk|Hk].
    + destruct (decide (Z.to_nat i < length (elems a))%nat) as [Hlt|Hge]; simpl.
      * destruct (decide (k = i)) as [->|Hne].
        -- by rewrite list_lookup_insert_eq.
        -- rewrite list_lookup_insert_ne by lia. done.
      * destruct (decide (k = i)) as [->|Hne].
        -- rewrite lookup_app_r by lia.
           rewrite lookup_app_r by (rewrite length_replicate; lia).
           rewrite length_replicate.
           replace (Z.to_nat i - length (elems a) - (Z.to_nat i - length (elems a)))%nat
             with 0%nat by lia. done.
        -- destruct (decide (Z.to_nat k < length (elems a))%nat).
           ++ by rewrite lookup_app_l.
           ++ rewrite (lookup_ge_None_2 (elems a)) by lia.
              rewrite lookup_app_r by lia.
              destruct (decide (Z.to_nat k < Z.to_nat i)%nat).
              ** rewrite lookup_app_l by (rewrite length_replicate; lia).
                 rewrite lookup_replicate_2 by lia. done.
              ** rewrite lookup_app_r by (rewrite length_replicate; lia).
                 rewrite length_replicate.
                 rewrite lookup_ge_None_2; [done|]. simpl. lia.
    + destruct (decide (k = i)) as [->|Hne]; [lia|].
      by destruct (decide (Z.to_nat i < length (elems a))%nat).
  - simpl. destruct (Z.leb_spec 0 k) as [Hk|Hk].
    + destruct (decide (k = i)) as [->|Hne]; [lia|done].
    + destruct (decide (k = i)) as [->|Hne].
      * by rewrite lookup_insert_eq.
      * by rewrite lookup_insert_ne.
Qed.

Lemma get_swap {A} (a : JsArray A) (i j k : Z) :
  get_index (swap i j a) k =
  if decide (k = j) then get_index a i
  else if decide (k = i) then get_index a j else get_index a k.
Proof. unfold swap. simpl. by rewrite !get_set_index. Qed.

Lemma get_array_of {A} (l : list A) (i : nat) :
  get_index (array_of l) (Z.of_nat i) = l !! i.
Proof.
  unfold get_index, array_of. simpl.
  destruct (Z.leb_spec 0 (Z.of_nat i)); [|lia].
  rewrite Nat2Z.id, list_lookup_fmap. by destruct (l !! i).
Qed.

Lemma set_array_of {A} (l : list A) (i : nat) (x : A) :
  (i < length l)%nat →
  set_index (array_of l) (Z.of_nat i) (Some x) = array_of (<[i := x]> l).
Proof.
  intros Hi. unfold set_index, array_of. simpl.
  destruct (Z.leb_spec 0 (Z.of_nat i)); [|lia].
  rewrite Nat2Z.id, length_fmap.
  destruct (decide (i < length l)%nat); [|lia].
  by rewrite list_fmap_insert.
Qed.

Lemma swap_array_of {A} (l : list A) (i j : nat) (x y : A) :
  l !! i = Some x → l !! j = Some y →
  swap (Z.of_nat i) (Z.of_nat j) (array_of l) = array_of (<[j := x]> (<[i := y]> l)).
Proof.
  intros Hi Hj. unfold swap. rewrite !get_array_of, Hi, Hj. simpl.
  rewrite set_array_of by (by eapply lookup_lt_Some).
  rewrite set_array_of; [done|].
  rewrite length_insert. by eapply lookup_lt_Some.
Qed.

Lemma shuffle_loop_lists {G A B} (next : G → nat → Z * G) (i : nat) (g : G)
    (la : list A) (lb : list B) :
  length la = length lb →
  (i ≤ length la - 1)%nat →
  Forall (λ p, (0 ≤ p.2 ≤ Z.of_nat p.1)%Z) (draws next i g) →
  ∃ la' lb',
    shuffle_loop next i g (array_of la) (array_of lb) = (array_of la', array_of lb')
    ∧ length la' = length lb'
    ∧ zip la' lb' ≡ₚ zip la lb.
Proof.
  revert g la lb. induction i as [|i IH]; intros g la lb Hlen Hi Hdraws.
  { exists la, lb. done. }
  simpl in *. destruct (next g (S i)) as [j g'] eqn:Hnext.
  apply Forall_cons in Hdraws as [[Hj0 Hji] Hdraws]. simpl in Hj0, Hji.
  destruct (lookup_lt_is_Some_2 la (S i)) as [x Hx]; [lia|].
  destruct (lookup_lt_is_Some_2 lb (S i)) as [x' Hx']; [lia|].
  destruct (lookup_lt_is_Some_2 la (Z.to_nat j)) as [y Hy]; [lia|].
  destruct (lookup_lt_is_Some_2 lb (Z.to_nat j)) as [y' Hy']; [lia|].
  replace j with (Z.of_nat (Z.to_nat j)) by lia.
  rewrite (swap_array_of la _ _ x y), (swap_array_of lb _ _ x' y') by done.
  destruct (IH g' (<[Z.to_nat j:=x]> (<[S i:=y]> la))
               (<[Z.to_nat j:=x']> (<[S i:=y']> lb)))
    as (la' & lb' & Hrun & Hlen' & Hperm).
  - by rewrite !length_insert.
  - rewrite !length_insert. lia.
  - done.
  - exists la', lb'. split_and!; [done..|].
    rewrite Hperm.
    rewrite <- !insert_zip_with.
    apply Permutation_insert_swap.
    + rewrite lookup_zip_with, Hx. simpl. by rewrite Hx'.
    + rewrite lookup_zip_with, Hy. simpl. by rewrite Hy'.
Qed.

Lemma elem_of_zip_seq {A} (l : list A) (x : A) (o s : nat) :
  (x, o) ∈ zip l (seq s (length l)) → (s ≤ o)%nat ∧ l !! (o - s)%nat = Some x.
Proof.
  intros Hin. apply list_elem_of_lookup in Hin as [k Hk].
  apply lookup_zip_with_Some in Hk as (a & b & Heq & Ha & Hb).
  simplify_eq. apply lookup_seq in Hb as [-> Hlt].
  split; [lia|]. by replace (s + k - s)%nat with k by lia.
Qed.

Lemma shuffle_loop_indexed {G} (next : G → nat → Z * G) (i : nat) (g : G)
    (pairs : list (string * nat)) (options : list string) :
  (∀ x k, (x, k) ∈ pairs → options !! k = Some x) →
  (i ≤ length pairs - 1)%nat →
  Forall (λ p, (0 ≤ p.2 ≤ Z.of_nat p.1)%Z) (draws next i g) →
  ∃ shuffled order,
    shuffle_loop next i g (array_of pairs.*1) (array_of (Z.of_nat <$> pairs.*2))
      = (array_of shuffled, array_of order)
    ∧ shuffled ≡ₚ pairs.*1
    ∧ order ≡ₚ Z.of_nat <$> pairs.*2
    ∧ Forall2 (λ s o, (0 ≤ o)%Z ∧ options !! Z.to_nat o = Some s) shuffled order.
Proof.
  intros Hpairs Hi Hdraws.
  destruct (shuffle_loop_lists next i g pairs.*1 (Z.of_nat <$> pairs.*2))
    as (sh & ord & Hrun & Hlen & Hperm); [by rewrite !length_fmap|by rewrite length_fmap|done|].
  exists sh, ord. split; [done|].
  assert (Hlens : length pairs.*1 = length (Z.of_nat <$> pairs.*2))
    by (by rewrite !length_fmap).
  split_and!.
  - transitivity (zip sh ord).*1; [by rewrite fst_zip by lia|].
    rewrite Hperm. by rewrite fst_zip by lia.
  - transitivity (zip sh ord).*2; [by rewrite snd_zip by lia|].
    rewrite Hperm. by rewrite snd_zip by lia.
  - apply Forall2_same_length_lookup_2; [done|].
    intros n s o Hs Ho.
    assert (Hin : (s, o) ∈ zip pairs.*1 (Z.of_nat <$> pairs.*2)).
    { rewrite <- Hperm. apply list_elem_of_lookup. exists n.
      rewrite lookup_zip_with, Hs. simpl. by rewrite Ho. }
    apply list_elem_of_lookup in Hin as [m Hm].
    apply lookup_zip_with_Some in Hm as (x & z & Heq & Hx & Hz).
    simplify_eq.
    rewrite list_lookup_fmap in Hx. rewrite !list_lookup_fmap in Hz.
    destruct (pairs !! m) as [[x' k]|] eqn:Hp; simplify_eq/=.
    split; [lia|]. rewrite Nat2Z.id. apply Hpairs.
    apply list_elem_of_lookup. by exists m.
Qed.

Lemma shuffle_loop_frame {G A B} (next : G → nat → Z * G) (i : nat) (g : G)
    (a : JsArray A) (b : JsArray B) (k : nat) :
  Forall (λ p, (p.2 ≤ Z.of_nat p.1)%Z) (draws next i g) →
  (i < k)%nat →
  get_index (shuffle_loop next i g a b).1 (Z.of_nat k) = get_index a (Z.of_nat k)
  ∧ get_index (shuffle_loop next i g a b).2 (Z.of_nat k) = get_index b (Z.of_nat k).
Proof.
  revert g a b. induction i as [|i IH]; intros g a b Hdraws Hk; [done|].
  simpl in *. destruct (next g (S i)) as [j g'].
  apply Forall_cons in Hdraws as [Hj Hdraws]. simpl in Hj.
  destruct (IH g' (swap (Z.of_nat (S i)) j a) (swap (Z.of_nat (S i)) j b))
    as [-> ->]; [done|lia|].
  rewrite !get_swap.
  destruct (decide (Z.of_nat k = j)); [lia|].
  destruct (decide (Z.of_nat k = Z.of_nat (S i))); [lia|done].
Qed.

Lemma zip_seq_lookup {A} (l : list A) (x : A) (k : nat) :
  (x, k) ∈ zip l (seq 0 (length l)) → l !! k = Some x.
Proof.
  intros Hin. apply elem_of_zip_seq in Hin as [_ Hin].
  by rewrite Nat.sub_0_r in Hin.
Qed.

(** X21: [shuffleWithSeed] with every drawn index [j] inside [0 .. i]
    returns two arrays without holes: [shuffled] is a permutation of the
    options, [order] a permutation of their indices, and position by
    position [options[order[k]]] is [shuffled[k]], which is how the
    interview page maps an answer back to the original option. *)
Theorem shuffleWithSeed_order_maps_back (options : list string) (seed : string) :
  Forall (λ p, (0 ≤ p.2 ≤ Z.of_nat p.1)%Z)
         (draws seeded_next (length options - 1) (seed_hash seed)) →
  ∃ shuffled order,
    shuffleWithSeed options seed = (array_of shuffled, array_of order)
    ∧ shuffled ≡ₚ options
    ∧ order ≡ₚ Z.of_nat <$> seq 0 (length options)
    ∧ Forall2 (λ s o, (0 ≤ o)%Z ∧ options !! Z.to_nat o = Some s) shuffled order.
Proof.
  intros Hdraws. unfold shuffleWithSeed.
  pose proof (shuffle_loop_indexed seeded_next (length options - 1) (seed_hash seed)
                (zip options (seq 0 (length options))) options) as H.
  rewrite fst_zip, snd_zip in H by (rewrite length_seq; lia).
  apply H; [apply zip_seq_lookup| |done].
  rewrite length_zip_with_l_eq by (by rewrite length_seq). done.
Qed.

Lemma shuffleWithSeed_order_maps_back_witness :
  ∃ shuffled order,
    shuffleWithSeed ["A"; "B"; "C"; "D"] "mhi2k9q0k2j5h8d1s"
      = (array_of shuffled, array_of order)
    ∧ shuffled ≡ₚ ["A"; "B"; "C"; "D"]
    ∧ order ≡ₚ Z.of_nat <$> seq 0 4
    ∧ Forall2 (λ s o, (0 ≤ o)%Z ∧ ["A"; "B"; "C"; "D"] !! Z.to_nat o = Some s)
              shuffled order.
Proof.
  apply (shuffleWithSeed_order_maps_back ["A"; "B"; "C"; "D"] "mhi2k9q0k2j5h8d1s").
  vm_compute. repeat constructor; discriminate.
Defined.

(** X22: the seeded generator can draw a negative index, since [%] keeps the
    sign of a negative hash. When the first index drawn is negative (and
    none exceeds its [i]), the last slot of both returned arrays is
    [undefined]: the swap reads a property that does not exist and parks the
    last option under the negative key. *)
Theorem negative_draw_leaves_a_hole (options : list string) (seed : string) :
  (2 ≤ length options)%nat →
  (draw (rng_state (seed_hash seed)) (length options - 1) < 0)%Z →
  Forall (λ p, (p.2 ≤ Z.of_nat p.1)%Z)
         (draws seeded_next (length options - 1) (seed_hash seed)) →
  get_index (shuffleWithSeed options seed).1 (Z.of_nat (length options - 1)) = None
  ∧ get_index (shuffleWithSeed options seed).2 (Z.of_nat (length options - 1)) = None.
Proof.
  intros Hlen Hneg Hdraws. unfold shuffleWithSeed.
  destruct (length options - 1)%nat as [|m] eqn:Hm; [lia|].
  remember (array_of options) as a eqn:Ha.
  remember (array_of (Z.of_nat <$> seq 0 (length options))) as b eqn:Hb.
  simpl in Hdraws |- *. apply Forall_cons in Hdraws as [_ Hdraws].
  set (j := draw (rng_state (seed_hash seed)) (S m)) in *.
  destruct (shuffle_loop_frame seeded_next m (rng_state (seed_hash seed))
              (swap (Z.of_nat (S m)) j a) (swap (Z.of_nat (S m)) j b) (S m))
    as [-> ->]; [done|lia|].
  rewrite !get_swap.
  destruct (decide (Z.of_nat (S m) = j)); [lia|].
  rewrite !decide_True by done.
  subst a b. unfold get_index, array_of. simpl.
  destruct (Z.leb_spec 0 j); [lia|]. by rewrite lookup_empty.
Qed.

Lemma negative_draw_leaves_a_hole_witness :
  get_index (shuffleWithSeed ["A"; "B"; "C"; "D"] "mhi2k9q0x9w8v7u6t").1 3 = None
  ∧ get_index (shuffleWithSeed ["A"; "B"; "C"; "D"] "mhi2k9q0x9w8v7u6t").2 3 = None.
Proof.
  apply (negative_draw_leaves_a_hole ["A"; "B"; "C"; "D"] "mhi2k9q0x9w8v7u6t").
  - simpl. lia.
  - vm_compute. reflexivity.
  - vm_compute. repeat constructor; discriminate.
Defined.

Lemma filter_zip_seq_fst (fixedAtEnd l : list string) (s : nat) :
  (filter (λ p : string * nat, is_fixed fixedAtEnd p.1 = false)
          (zip l (seq s (length l)))).*1
  = filter (λ o, is_fixed fixedAtEnd o = false) l.
Proof.
  revert s. induction l as [|x l IH]; intros s; [done|].
  simpl. rewrite !filter_cons. simpl.
  destruct (decide (is_fixed fixedAtEnd x = false)); simpl; by rewrite IH.
Qed.

Lemma length_filter_complement {A} (P : A → bool) (l : list A) :
  (length (filter (λ x, P x = false) l) + length (filter (λ x, P x = true) l)
   = length l)%nat.
Proof.
  induction l as [|x l IH]; [done|].
  rewrite !filter_cons.
  destruct (decide (P x = false)), (decide (P x = true)); simpl; [congruence|lia|lia|].
  by destruct (P x).
Qed.

Lemma eq_reflexive_perm_from {A} (l k : list A) : l = k → l ≡ₚ k.
Proof. by intros ->. Qed.

Lemma shuffleOptions_spec (rand : nat → Z) (options fixedAtEnd : list string) :
  (∀ i, (0 ≤ rand i ≤ Z.of_nat i)%Z) →
  ∃ shuffled order,
    shuffleOptions rand options fixedAtEnd =
      (Some <$> (shuffled ++ filter (λ o, is_fixed fixedAtEnd o = true) options),
       Some <$> (order
                 ++ ((λ index, Z.of_nat (length options)
                               - Z.of_nat (length (filter (λ o, is_fixed fixedAtEnd o = true)
                                                          options))
                               + Z.of_nat index)%Z
                     <$> seq 0 (length (filter (λ o, is_fixed fixedAtEnd o = true) options)))))
    ∧ shuffled ≡ₚ filter (λ o, is_fixed fixedAtEnd o = false) options
    ∧ Forall2 (λ s o, (0 ≤ o)%Z ∧ options !! Z.to_nat o = Some s) shuffled order.
Proof.
  intros Hrand. unfold shuffleOptions.
  set (free := filter (λ p : string * nat, is_fixed fixedAtEnd p.1 = false)
                      (zip options (seq 0 (length options)))).
  destruct (shuffle_loop_indexed (random_next rand) (length free.*1 - 1) tt free options)
    as (sh & ord & Hrun & Hsh & Hord & Hback).
  - intros x k Hin. apply list_elem_of_filter in Hin as [_ Hin].
    by apply zip_seq_lookup.
  - by rewrite length_fmap.
  - generalize (length free.*1 - 1)%nat. intros n. generalize tt.
    induction n as [|n IH]; intros u; simpl; [constructor|].
    constructor; [apply Hrand|apply IH].
  - exists sh, ord. rewrite Hrun. simpl. split_and!.
    + rewrite !fmap_app. f_equal. f_equal. f_equal. apply imap_seq_0.
    + rewrite Hsh. apply eq_reflexive_perm_from. unfold free.
      apply filter_zip_seq_fst.
    + done.
Qed.

(** X23: [shuffleOptions], with [Math.random()] in [0, 1), returns every
    option exactly once: the options that contain no fixed text come first
    in some order, the fixed ones follow in their original order, and for
    the shuffled part [order] names the position each option came from. *)
Theorem shuffleOptions_keeps_fixed_last (rand : nat → Z) (options fixedAtEnd : list string) :
  (∀ i, (0 ≤ rand i ≤ Z.of_nat i)%Z) →
  ∃ shuffled order,
    (shuffleOptions rand options fixedAtEnd).1
      = Some <$> (shuffled ++ filter (λ o, is_fixed fixedAtEnd o = true) options)
    ∧ shuffled ≡ₚ filter (λ o, is_fixed fixedAtEnd o = false) options
    ∧ shuffled ++ filter (λ o, is_fixed fixedAtEnd o = true) options ≡ₚ options
    ∧ take (length shuffled) (shuffleOptions rand options fixedAtEnd).2 = Some <$> order
    ∧ Forall2 (λ s o, (0 ≤ o)%Z ∧ options !! Z.to_nat o = Some s) shuffled order.
Proof.
  intros Hrand.
  destruct (shuffleOptions_spec rand options fixedAtEnd Hrand)
    as (sh & ord & -> & Hsh & Hback).
  exists sh, ord. simpl. split_and!; [done|done| | |done].
  - rewrite Hsh, Permutation_app_comm.
    rewrite <- (filter_app_complement (λ o, is_fixed fixedAtEnd o = true) options) at 3.
    apply Permutation_app; [done|].
    erewrite list_filter_iff; [done|].
    intros x. simpl. by destruct (is_fixed fixedAtEnd x).
  - rewrite fmap_app, (Forall2_length _ _ _ Hback), <- (length_fmap Some ord).
    by rewrite take_app_length.
Qed.

Lemma shuffleOptions_keeps_fixed_last_witness :
  ∃ shuffled order,
    (shuffleOptions (λ i, Z.of_nat (Nat.pred i))
       ["Candidato A"; "Não sabe"; "Candidato B"; "Candidato C"] default_fixedAtEnd).1
      = Some <$> (shuffled ++ ["Não sabe"])
    ∧ shuffled ≡ₚ ["Candidato A"; "Candidato B"; "Candidato C"]
    ∧ shuffled ++ ["Não sabe"]
        ≡ₚ ["Candidato A"; "Não sabe"; "Candidato B"; "Candidato C"]
    ∧ take (length shuffled)
        (shuffleOptions (λ i, Z.of_nat (Nat.pred i))
           ["Candidato A"; "Não sabe"; "Candidato B"; "Candidato C"] default_fixedAtEnd).2
        = Some <$> order
    ∧ Forall2 (λ s o, (0 ≤ o)%Z
                      ∧ ["Candidato A"; "Não sabe"; "Candidato B"; "Candidato C"]
                          !! Z.to_nat o = Some s) shuffled order.
Proof.
  apply (shuffleOptions_keeps_fixed_last (λ i, Z.of_nat (Nat.pred i))
           ["Candidato A"; "Não sabe"; "Candidato B"; "Candidato C"] default_fixedAtEnd).
  intros i. lia.
Defined.

Lemma movable_after_fixed {A} (P : A → bool) (l : list A) (p q : nat) (a b : A) :
  (p < q)%nat →
  l !! p = Some a → P a = true →
  l !! q = Some b → P b = false →
  ∃ q' b', l !! q' = Some b' ∧ P b' = false
           ∧ (length (filter (λ x, P x = false) l) ≤ q')%nat.
Proof.
  revert p q a b. induction l as [|z l IH] using rev_ind; intros p q a b Hpq Ha HPa Hb HPb.
  { by rewrite lookup_nil in Ha. }
  pose proof (lookup_lt_Some _ _ _ Hb) as Hq. rewrite length_app in Hq. simpl in Hq.
  destruct (P z) eqn:HPz.
  - assert (q < length l)%nat as Hql.
    { destruct (decide (q = length l)) as [->|]; [|lia].
      rewrite lookup_app_r, Nat.sub_diag in Hb by lia. simpl in Hb. congruence. }
    rewrite lookup_app_l in Ha, Hb by lia.
    destruct (IH p q a b Hpq Ha HPa Hb HPb) as (q' & b' & Hq' & HPb' & Hlen).
    exists q', b'. split_and!; [|done|].
    + rewrite lookup_app_l; [done|]. by eapply lookup_lt_Some.
    + rewrite filter_app, filter_cons_False, filter_nil, app_nil_r by congruence. done.
  - exists (length l), z. split_and!; [|done|].
    + rewrite lookup_app_r, Nat.sub_diag by lia. done.
    + rewrite filter_app, filter_cons_True, filter_nil, length_app by done. simpl.
      rewrite lookup_app_l in Ha by lia.
      assert (length (filter (λ x, P x = false) l) < length l)%nat; [|lia].
      apply (length_filter_lt _ _ a); [by eapply list_elem_of_lookup_2|congruence].
Qed.

(** X24: [order] numbers the fixed options as if they had been last in the
    input. When a fixed option stands before one that is not fixed, some
    position of the result has [options[order[k]]] different from
    [shuffled[k]]. *)
Theorem shuffleOptions_order_needs_fixed_options_last
    (rand : nat → Z) (options fixedAtEnd : list string) (p q : nat) (a b : string) :
  (∀ i, (0 ≤ rand i ≤ Z.of_nat i)%Z) →
  (p < q)%nat →
  options !! p = Some a → is_fixed fixedAtEnd a = true →
  options !! q = Some b → is_fixed fixedAtEnd b = false →
  ∃ k s o,
    (shuffleOptions rand options fixedAtEnd).1 !! k = Some (Some s)
    ∧ (shuffleOptions rand options fixedAtEnd).2 !! k = Some (Some o)
    ∧ (0 ≤ o)%Z
    ∧ options !! Z.to_nat o ≠ Some s.
Proof.
  intros Hrand Hpq Ha HPa Hb HPb.
  destruct (shuffleOptions_spec rand options fixedAtEnd Hrand)
    as (sh & ord & -> & Hsh & Hback).
  destruct (movable_after_fixed (is_fixed fixedAtEnd) options p q a b)
    as (q' & b' & Hq' & HPb' & Hlen); [done..|].
  pose proof (length_filter_complement (is_fixed fixedAtEnd) options) as Hn.
  pose proof (Permutation_length Hsh) as Hlsh.
  pose proof (Forall2_length _ _ _ Hback) as Hlord.
  pose proof (lookup_lt_Some _ _ _ Hq') as Hq'n.
  set (fixed := filter (λ o, is_fixed fixedAtEnd o = true) options) in *.
  destruct (lookup_lt_is_Some_2 fixed (q' - length sh)) as [f Hf]; [lia|].
  exists q', f, (Z.of_nat q'). simpl. split_and!.
  - rewrite list_lookup_fmap, lookup_app_r by lia. by rewrite Hf.
  - rewrite list_lookup_fmap, lookup_app_r by lia.
    rewrite list_lookup_fmap, lookup_seq_lt by lia. simpl.
    do 2 f_equal. lia.
  - lia.
  - rewrite Nat2Z.id, Hq'. intros [= ->].
    apply list_elem_of_lookup_2, list_elem_of_filter in Hf as [Hf _]. congruence.
Qed.

Lemma shuffleOptions_order_needs_fixed_options_last_witness :
  ∃ k s o,
    (shuffleOptions (λ i, Z.of_nat (Nat.pred i))
       ["Candidato A"; "Não sabe"; "Candidato B"; "Candidato C"] default_fixedAtEnd).1
      !! k = Some (Some s)
    ∧ (shuffleOptions (λ i, Z.of_nat (Nat.pred i))
         ["Candidato A"; "Não sabe"; "Candidato B"; "Candidato C"] default_fixedAtEnd).2
        !! k = Some (Some o)
    ∧ (0 ≤ o)%Z
    ∧ ["Candidato A"; "Não sabe"; "Candidato B"; "Candidato C"] !! Z.to_nat o ≠ Some s.
Proof.
  apply (shuffleOptions_order_needs_fixed_options_last (λ i, Z.of_nat (Nat.pred i))
           ["Candidato A"; "Não sabe"; "Candidato B"; "Candidato C"] default_fixedAtEnd
           1 2 "Não sabe" "Candidato B").
  - intros i. lia.
  - lia.
  - reflexivity.
  - reflexivity.
  - reflexivity.
  - reflexivity.
Defined.

Lemma filter_Forall_id {A} (P : A → Prop) `{!∀ x, Decision (P x)} (l : list A) :
  Forall P l → filter P l = l.
Proof.
  induction 1 as [|x l HP _ IH]; [done|].
  by rewrite filter_cons_True, IH.
Qed.

Lemma filter_Forall_nil {A} (P : A → Prop) `{!∀ x, Decision (P x)} (l : list A) :
  Forall (λ x, ¬ P x) l → filter P l = [].
Proof.
  induction 1 as [|x l HP _ IH]; [done|].
  by rewrite filter_cons_False.
Qed.

(** X25: when the fixed options are already last, [shuffleOptions] keeps
    them in place and [options[order[k]]] is [shuffled[k]] at every
    position. *)
Theorem shuffleOptions_order_maps_back_when_fixed_last
    (rand : nat → Z) (movable fixed fixedAtEnd : list string) :
  (∀ i, (0 ≤ rand i ≤ Z.of_nat i)%Z) →
  Forall (λ o, is_fixed fixedAtEnd o = false) movable →
  Forall (λ o, is_fixed fixedAtEnd o = true) fixed →
  ∃ shuffled order,
    shuffleOptions rand (movable ++ fixed) fixedAtEnd = (Some <$> shuffled, Some <$> order)
    ∧ shuffled ≡ₚ movable ++ fixed
    ∧ drop (length movable) shuffled = fixed
    ∧ Forall2 (λ s o, (0 ≤ o)%Z ∧ (movable ++ fixed) !! Z.to_nat o = Some s)
              shuffled order.
Proof.
  intros Hrand Hmov Hfix.
  destruct (shuffleOptions_spec rand (movable ++ fixed) fixedAtEnd Hrand)
    as (sh & ord & Hrun & Hsh & Hback).
  assert (Hfixed : filter (λ o, is_fixed fixedAtEnd o = true) (movable ++ fixed) = fixed).
  { rewrite filter_app, filter_Forall_nil, filter_Forall_id; [done..|].
    eapply Forall_impl; [exact Hmov|]. simpl. congruence. }
  assert (Hmovable : filter (λ o, is_fixed fixedAtEnd o = false) (movable ++ fixed) = movable).
  { rewrite filter_app, filter_Forall_id, (filter_Forall_nil _ fixed), app_nil_r; [done| |done].
    eapply Forall_impl; [exact Hfix|]. simpl. congruence. }
  rewrite Hfixed in Hrun. rewrite Hmovable in Hsh.
  eexists _, _. split; [exact Hrun|]. split_and!.
  - by rewrite Hsh.
  - rewrite <- (Permutation_length Hsh). by rewrite drop_app_length.
  - apply Forall2_app; [done|].
    apply Forall2_same_length_lookup_2; [by rewrite length_fmap, length_seq|].
    intros i s o Hs Ho.
    rewrite list_lookup_fmap in Ho.
    pose proof (lookup_lt_Some _ _ _ Hs) as Hi.
    rewrite lookup_seq_lt in Ho by done. simpl in Ho. simplify_eq.
    rewrite length_app. split; [lia|].
    rewrite lookup_app_r by lia.
    rewrite <- Hs. f_equal. lia.
Qed.

Lemma shuffleOptions_order_maps_back_when_fixed_last_witness :
  ∃ shuffled order,
    shuffleOptions (λ i, Z.of_nat (Nat.pred i))
      (["Candidato A"; "Candidato B"; "Candidato C"] ++ ["Não sabe"; "Branco/Nulo"])
      default_fixedAtEnd = (Some <$> shuffled, Some <$> order)
    ∧ shuffled ≡ₚ ["Candidato A"; "Candidato B"; "Candidato C"] ++ ["Não sabe"; "Branco/Nulo"]
    ∧ drop (length ["Candidato A"; "Candidato B"; "Candidato C"]) shuffled
      = ["Não sabe"; "Branco/Nulo"]
    ∧ Forall2 (λ s o, (0 ≤ o)%Z
                      ∧ (["Candidato A"; "Candidato B"; "Candidato C"]
                         ++ ["Não sabe"; "Branco/Nulo"]) !! Z.to_nat o = Some s)
              shuffled order.
Proof.
  apply (shuffleOptions_order_maps_back_when_fixed_last (λ i, Z.of_nat (Nat.pred i))
           ["Candidato A"; "Candidato B"; "Candidato C"] ["Não sabe"; "Branco/Nulo"]
           default_fixedAtEnd).
  - intros i. lia.
  - repeat constructor.
  - repeat constructor.
Defined.

End RandomizerFacts.

(* ------------------------------------------------------------------ *)
(** ** Geographic distribution of the sample *)

Section DistributionFacts.
Import StatisticalCalculator.

Lemma num_add_swap (y a b : Num) :
  num_add (num_add y a) b = num_add (num_add y b) a.
Proof.
  destruct y as [y| |[]], a as [a| |[]], b as [b| |[]]; simpl; try done.
  f_equal. lia.
Qed.

Lemma sum_values_insert (d : gmap string Num) (k : string) (v : Num) :
  d !! k = None → sum_values (<[k := v]> d) = num_add (sum_values d) v.
Proof.
  intros Hk. unfold sum_values.
  rewrite map_fold_insert_L; [done| |done].
  intros. apply num_add_swap.
Qed.

Lemma sum_values_replace (d : gmap string Num) (k : string) (v : Num) :
  sum_values (<[k := v]> d) = num_add (sum_values (delete k d)) v.
Proof.
  rewrite <- insert_delete_eq. apply sum_values_insert, lookup_delete_eq.
Qed.

Lemma sum_values_positive (d : gmap string Num) :
  positive_ints d → ∃ t, sum_values d = Int t ∧ (Z.of_nat (size d) ≤ t)%Z.
Proof.
  induction d as [|k v d Hk IH] using map_ind; intros Hd.
  { exists 0%Z. split; [apply map_fold_empty|]. rewrite map_size_empty. lia. }
  apply map_Forall_insert in Hd as [(z & -> & Hz) Hd]; [|done].
  destruct (IH Hd) as (t & Ht & Hsize).
  exists (t + z)%Z. rewrite sum_values_insert, Ht by done.
  split; [done|]. rewrite map_size_insert_None by done. lia.
Qed.

(** A sum that is an integer has integer terms only. *)
Lemma sum_values_Int (d : gmap string Num) (t : Z) :
  sum_values d = Int t → map_Forall (λ _ v, ∃ z, v = Int z) d.
Proof.
  revert t. induction d as [|k v d Hk IH] using map_ind; intros t Ht.
  { apply map_Forall_empty. }
  rewrite sum_values_insert in Ht by done.
  destruct (sum_values d) as [t0| |[]] eqn:Hd, v as [z| |[]]; simplify_eq/=.
  apply map_Forall_insert_2; [by exists z|]. by apply (IH t0).
Qed.

Lemma allocation_positive (totalSample totalPopulation z : Z) (n : Neighborhood) :
  allocation totalSample totalPopulation n = Int z → (1 ≤ z)%Z.
Proof.
  unfold allocation.
  destruct (Math_round _) as [r| |[]]; simpl; intros [= <-]; lia.
Qed.

(** What the [forEach] leaves in the object: allocations, under the names
    other than ["__proto__"]. *)
Lemma allocate_entries (totalSample totalPopulation : Z) (neighborhoods : list Neighborhood) :
  map_Forall (λ _ v, ∃ n, v = allocation totalSample totalPopulation n)
             (allocate totalSample totalPopulation neighborhoods)
  ∧ ∀ k, is_Some (allocate totalSample totalPopulation neighborhoods !! k)
         ↔ k ∈ name <$> neighborhoods ∧ k ≠ "__proto__".
Proof.
  unfold allocate.
  induction neighborhoods as [|n l [IHv IHk]] using rev_ind.
  { split; [apply map_Forall_empty|]. intros k. simpl.
    rewrite lookup_empty, elem_of_nil. split; [by intros [? ?]|by intros [? _]]. }
  rewrite foldl_app. simpl. unfold set_property at 1 3.
  case_bool_decide as Hproto.
  - split; [done|]. intros k. rewrite IHk, fmap_app, elem_of_app. simpl.
    rewrite list_elem_of_singleton. split; [intros [? ?]; auto|].
    intros [[?| ->] ?]; [done|congruence].
  - split; [apply map_Forall_insert_2; [by exists n|done]|].
    intros k. rewrite lookup_insert_is_Some, IHk, fmap_app, elem_of_app. simpl.
    rewrite list_elem_of_singleton.
    destruct (decide (name n = k)) as [<-|Hne]; split.
    + intros _. auto.
    + intros _. by left.
    + intros [?|[_ [? ?]]]; [done|auto].
    + intros [[?| ->] ?]; [|done]. right. auto.
Qed.

Lemma allocate_positive (totalSample totalPopulation t : Z)
    (neighborhoods : list Neighborhood) :
  sum_values (allocate totalSample totalPopulation neighborhoods) = Int t →
  positive_ints (allocate totalSample totalPopulation neighborhoods).
Proof.
  intros Ht k v Hv.
  destruct (sum_values_Int _ _ Ht k v Hv) as [z ->].
  destruct (proj1 (allocate_entries totalSample totalPopulation neighborhoods) k _ Hv)
    as [n Hn].
  exists z. split; [done|]. by eapply allocation_positive.
Qed.

Lemma largest_elem_of (first : Neighborhood) (rest : list Neighborhood) :
  largest first rest ∈ first :: rest.
Proof.
  unfold largest. revert first. induction rest as [|n rest IH]; intros first; simpl.
  { apply list_elem_of_here. }
  destruct (population first <? population n)%Z.
  - apply list_elem_of_further, IH.
  - specialize (IH first). apply elem_of_cons in IH as [->|IH].
    + apply list_elem_of_here.
    + by do 2 apply list_elem_of_further.
Qed.

Lemma calculateGeographicDistribution_spec (totalSample : Z)
    (first : Neighborhood) (rest : list Neighborhood) :
  within_exact_range totalSample (first :: rest) →
  name (largest first rest) ≠ "__proto__" →
  ∃ d v,
    calculateGeographicDistribution totalSample (first :: rest) = Returns d
    ∧ sum_values d = Int totalSample
    ∧ d !! name (largest first rest) = Some (Int v)
    ∧ positive_ints (delete (name (largest first rest)) d)
    ∧ ∀ k, is_Some (d !! k) ↔ k ∈ name <$> first :: rest ∧ k ≠ "__proto__".
Proof.
  intros (_ & _ & _ & t & Ht & _) Hproto. unfold calculateGeographicDistribution.
  pose proof (allocate_positive _ _ _ _ Ht) as Hpos.
  destruct (allocate_entries totalSample (total_population (first :: rest))
              (first :: rest)) as [_ Hdom].
  set (d := allocate totalSample (total_population (first :: rest)) (first :: rest)) in *.
  set (k := name (largest first rest)) in *.
  assert (is_Some (d !! k)) as [w Hw].
  { apply Hdom. split; [|done]. apply list_elem_of_fmap_2, largest_elem_of. }
  destruct (Hpos k w Hw) as (old & -> & Hold).
  destruct (sum_values_positive (delete k d)) as (t0 & Ht0 & _).
  { by apply map_Forall_delete. }
  assert (Hsum : sum_values d = Int (t0 + old)).
  { rewrite <- (insert_delete_id d k (Int old)) by done.
    rewrite sum_values_insert, Ht0 by apply lookup_delete_eq. done. }
  rewrite Hsum. simpl. unfold set_property. rewrite bool_decide_eq_false_2 by done.
  destruct (totalSample + - (t0 + old))%Z eqn:Hdiff.
  - exists d, old. split_and!; [done| |done| |done].
    + rewrite Hsum. f_equal. lia.
    + by apply map_Forall_delete.
  - eexists _, _. split; [done|]. rewrite Hw. simpl. split_and!.
    + rewrite sum_values_replace, Ht0. simpl. f_equal. lia.
    + apply lookup_insert_eq.
    + rewrite delete_insert_eq. by apply map_Forall_delete.
    + intros k'. rewrite lookup_insert_is_Some, <- Hdom.
      split; [intros [<-|[_ ?]]; [by rewrite Hw|done]|].
      intros ?. destruct (decide (k = k')); auto.
  - eexists _, _. split; [done|]. rewrite Hw. simpl. split_and!.
    + rewrite sum_values_replace, Ht0. simpl. f_equal. lia.
    + apply lookup_insert_eq.
    + rewrite delete_insert_eq. by apply map_Forall_delete.
    + intros k'. rewrite lookup_insert_is_Some, <- Hdom.
      split; [intros [<-|[_ ?]]; [by rewrite Hw|done]|].
      intros ?. destruct (decide (k = k')); auto.
Qed.

(** X26: for a non-empty list of neighbourhoods, with numbers in the range
    where double arithmetic is exact and a largest neighbourhood not named
    ["__proto__"], [calculateGeographicDistribution] returns an object with
    one entry per neighbourhood name (none for ["__proto__"]), and its
    values add up to [totalSample] exactly. *)
Theorem distribution_adds_up_to_the_sample (totalSample : Z)
    (first : Neighborhood) (rest : list Neighborhood) :
  within_exact_range totalSample (first :: rest) →
  name (largest first rest) ≠ "__proto__" →
  ∃ d,
    calculateGeographicDistribution totalSample (first :: rest) = Returns d
    ∧ sum_values d = Int totalSample
    ∧ ∀ k, is_Some (d !! k) ↔ k ∈ name <$> first :: rest ∧ k ≠ "__proto__".
Proof.
  intros Hrange Hproto.
  destruct (calculateGeographicDistribution_spec totalSample first rest Hrange Hproto)
    as (d & v & Hrun & Hsum & _ & _ & Hdom).
  by exists d.
Qed.

Lemma distribution_adds_up_to_the_sample_witness :
  ∃ d,
    calculateGeographicDistribution 400
      ({| name := "Centro"; population := 5000 |}
       :: [ {| name := "Norte"; population := 3000 |};
            {| name := "Sul"; population := 2000 |};
            {| name := "Leste"; population := 10 |} ]) = Returns d
    ∧ sum_values d = Int 400
    ∧ ∀ k, is_Some (d !! k)
           ↔ k ∈ name <$> {| name := "Centro"; population := 5000 |}
                          :: [ {| name := "Norte"; population := 3000 |};
                               {| name := "Sul"; population := 2000 |};
                               {| name := "Leste"; population := 10 |} ]
             ∧ k ≠ "__proto__".
Proof.
  apply (distribution_adds_up_to_the_sample 400
           {| name := "Centro"; population := 5000 |}
           [ {| name := "Norte"; population := 3000 |};
             {| name := "Sul"; population := 2000 |};
             {| name := "Leste"; population := 10 |} ]).
  - split_and!.
    + lia.
    + lia.
    + repeat constructor; simpl; lia.
    + vm_compute. discriminate.
    + eexists. split; [vm_compute; reflexivity|lia].
  - vm_compute. discriminate.
Defined.

(** X27: in the same range, every neighbourhood other than the largest gets
    at least one interview, and the largest absorbs the whole correction:
    its share is at most [totalSample] minus the number of the other
    entries, so it is zero or negative when the sample is smaller than
    that. *)
Theorem largest_neighborhood_pays_for_the_minimums (totalSample : Z)
    (first : Neighborhood) (rest : list Neighborhood) :
  within_exact_range totalSample (first :: rest) →
  name (largest first rest) ≠ "__proto__" →
  ∃ d v,
    calculateGeographicDistribution totalSample (first :: rest) = Returns d
    ∧ d !! name (largest first rest) = Some (Int v)
    ∧ (v ≤ totalSample - (Z.of_nat (size d) - 1))%Z
    ∧ ∀ k w, k ≠ name (largest first rest) → d !! k = Some w →
             ∃ z, w = Int z ∧ (1 ≤ z)%Z.
Proof.
  intros Hrange Hproto.
  destruct (calculateGeographicDistribution_spec totalSample first rest Hrange Hproto)
    as (d & v & Hrun & Hsum & Hv & Hothers & _).
  exists d, v. split_and!; [done..| |].
  - destruct (sum_values_positive _ Hothers) as (t0 & Ht0 & Hsize).
    rewrite <- (insert_delete_id d _ _ Hv) in Hsum.
    rewrite sum_values_insert, Ht0 in Hsum by apply lookup_delete_eq.
    simpl in Hsum. injection Hsum as Hsum.
    rewrite map_size_delete_Some in Hsize by done.
    assert (size d ≠ 0%nat).
    { intros Hz. apply map_size_empty_inv in Hz. by rewrite Hz, lookup_empty in Hv. }
    lia.
  - intros k w Hk Hw. apply (Hothers k w). by rewrite lookup_delete_ne.
Qed.

Lemma largest_neighborhood_pays_for_the_minimums_witness :
  ∃ d v,
    calculateGeographicDistribution 2
      ({| name := "Centro"; population := 5000 |}
       :: [ {| name := "Norte"; population := 3000 |};
            {| name := "Sul"; population := 2000 |};
            {| name := "Leste"; population := 10 |};
            {| name := "Oeste"; population := 10 |} ]) = Returns d
    ∧ d !! name (largest {| name := "Centro"; population := 5000 |}
                   [ {| name := "Norte"; population := 3000 |};
                     {| name := "Sul"; population := 2000 |};
                     {| name := "Leste"; population := 10 |};
                     {| name := "Oeste"; population := 10 |} ]) = Some (Int v)
    ∧ (v ≤ 2 - (Z.of_nat (size d) - 1))%Z
    ∧ ∀ k w,
        k ≠ name (largest {| name := "Centro"; population := 5000 |}
                    [ {| name := "Norte"; population := 3000 |};
                      {| name := "Sul"; population := 2000 |};
                      {| name := "Leste"; population := 10 |};
                      {| name := "Oeste"; population := 10 |} ]) →
        d !! k = Some w → ∃ z, w = Int z ∧ (1 ≤ z)%Z.
Proof.
  apply (largest_neighborhood_pays_for_the_minimums 2
           {| name := "Centro"; population := 5000 |}
           [ {| name := "Norte"; population := 3000 |};
             {| name := "Sul"; population := 2000 |};
             {| name := "Leste"; population := 10 |};
             {| name := "Oeste"; population := 10 |} ]).
  - split_and!.
    + lia.
    + lia.
    + repeat constructor; simpl; lia.
    + vm_compute. discriminate.
    + eexists. split; [vm_compute; reflexivity|lia].
  - vm_compute. discriminate.
Defined.

(** X28: [calculateGeographicDistribution] throws exactly when the list of
    neighbourhoods is empty and [totalSample] is not zero ([reduce] of an
    empty array without an initial value); an empty list with a zero sample
    returns the empty object. *)
Theorem distribution_throws_only_without_neighborhoods (totalSample : Z)
    (neighborhoods : list Neighborhood) :
  calculateGeographicDistribution totalSample neighborhoods = TypeError
  ↔ neighborhoods = [] ∧ totalSample ≠ 0%Z.
Proof.
  unfold calculateGeographicDistribution. destruct neighborhoods as [|first rest].
  - unfold allocate, sum_values. simpl. rewrite map_fold_empty. simpl.
    destruct totalSample; simpl; split; try done; intros [_ ?]; by try done.
  - destruct (num_sub _ _) as [[| |]| |]; split; try done; by intros [? _].
Qed.

End DistributionFacts.
